(** * PackedNavBits: the navigation-message bit buffer of GPSTk

    A shallow embedding of [core/lib/GNSSEph/PackedNavBits.cpp] and the
    properties of its pack / unpack / compare operations.

    Conventions of the embedding.
    - [uint64_t], [size_t] and [unsigned long] are 64-bit: a value is a [Z]
      in [[0, 2^64)], and every operation that can leave that range is
      followed by [to_uint64].  [int64_t] and [long] are a [Z] in
      [[-2^63, 2^63)], wrapped by [to_int64]; a signed left shift keeps
      the low 64 bits, a signed right shift copies the sign, and a signed
      product that overflows is undefined.  [int] arguments are a [Z];
      sums of two [int]s are taken in [Z].
    - [std::vector<bool> bits] is a [list bool]; [bits[i]] is the list
      lookup, and an access at [i >= bits.size()] is undefined behaviour.
    - a method that can throw or run into undefined behaviour returns a
      [result] (const methods) or an [effect] (methods that change the
      object; the object as it stands when the exception leaves is kept).
    - two buffers handed to one method are two objects. *)

From Stdlib Require Import ZArith Ascii String.
From stdpp Require Import base tactics option list strings.

Local Open Scope Z_scope.

(** ** Machine integers *)

Definition to_uint64 (z : Z) : Z := z mod 2 ^ 64.
Definition to_int64 (z : Z) : Z := (z + 2 ^ 63) mod 2 ^ 64 - 2 ^ 63.
(** [unsigned] to [int], as the split-field methods hand the entries of
    their [unsigned] arrays to the [int] parameters of [asUint64_t]. *)
Definition to_int (z : Z) : Z := (z + 2 ^ 31) mod 2 ^ 32 - 2 ^ 31.

(** The nearest binary64 number to a non-negative integer, ties to even:
    what the double subtraction in [pow(2.0, numBits) - 1] rounds to. *)
Definition round_binary64 (z : Z) : Z :=
  if z <? 2 ^ 53 then z
  else
    let e := Z.log2 z - 52 in
    let q := Z.shiftr z e in
    let r := Z.land z (Z.ones e) in
    let half := 2 ^ (e - 1) in
    let q' := if r <? half then q
              else if half <? r then q + 1
              else if Z.even q then q else q + 1 in
    q' * 2 ^ e.

(** [uint64_t test = pow(static_cast<double>(2), numBits) - 1;]
    [pow] of an integer exponent is exact, the subtraction rounds, and the
    conversion to [uint64_t] truncates; it is undefined when the truncated
    value is not a [uint64_t].  For [-53 <= numBits < 0] the difference lies
    strictly between -1 and 0 and truncates to 0; below that it rounds to
    -1.0. *)
Definition pow2_minus_1 (numBits : Z) : option Z :=
  if numBits <? -53 then None
  else if numBits <? 0 then Some 0
  else
    let d := round_binary64 (2 ^ numBits - 1) in
    if d <? 2 ^ 64 then Some d else None.

(** ** Outcomes *)

(** [gpstk::InvalidParameter] with its text, and the two exceptions of the
    standard library that [std::vector::resize] and [std::string::substr]
    throw. *)
Inductive exn : Type :=
| InvalidParameter (what : string)
| length_error
| out_of_range.

Inductive result (A : Type) : Type :=
| Val (a : A)
| Exc (e : exn)
| Undef.
Arguments Val {A} a.
Arguments Exc {A} e.
Arguments Undef {A}.

#[global] Instance result_ret : MRet result := fun A a => Val a.
#[global] Instance result_bind : MBind result := fun A B k r =>
  match r with
  | Val a => k a
  | Exc e => Exc e
  | Undef => Undef
  end.

(** ** The collaborating value types

    Satellite, observation and navigation-message identifiers and the
    time stamp are opaque to the buffer: it stores them, copies them and
    hands them to their own comparison operators. *)

Class Collaborators : Type := {
  SatID : Type;
  ObsID : Type;
  NavID : Type;
  CommonTime : Type;
  (** [a != b] on [SatID], on [ObsID], and on the [navType] of a [NavID] *)
  SatID_ne : SatID -> SatID -> bool;
  ObsID_ne : ObsID -> ObsID -> bool;
  navType_ne : NavID -> NavID -> bool;
  (** [fabs(right - left) > 0.001] *)
  diffSec_gt_eps : CommonTime -> CommonTime -> bool;
  (** the [mm...] masks of [matchMetaData] and the default [flagBits] *)
  mmTIME : Z; mmSAT : Z; mmOBS : Z; mmRX : Z; mmNAV : Z; mmALL : Z;
  (** the values of a default-constructed buffer *)
  SatID_default : SatID;
  ObsID_default : ObsID;
  NavID_default : NavID;
  BEGINNING_OF_TIME_GPS : CommonTime
}.

Inductive ParityStatus : Type := psUnknown | psPassed | psFailed.

(** ** Bit patterns as numbers *)

(** The number that a run of bits spells, first bit most significant. *)
Fixpoint value_of (l : list bool) : Z :=
  match l with
  | [] => 0
  | b :: l' => Z.b2z b * 2 ^ Z.of_nat (length l') + value_of l'
  end.

(** The [n] low-order bits of [v], most significant first. *)
Fixpoint to_bits (n : nat) (v : Z) : list bool :=
  match n with
  | O => []
  | S n' => Z.testbit v (Z.of_nat n') :: to_bits n' v
  end.

(** The number that a run of bits spells in two's complement. *)
Definition signed_value (l : list bool) : Z :=
  match l with
  | true :: _ => value_of l - 2 ^ Z.of_nat (length l)
  | _ => value_of l
  end.

(** The first differing position decides, [false] before [true]. *)
Fixpoint lex_less (l r : list bool) : bool :=
  match l, r with
  | false :: _, true :: _ => true
  | true :: _, false :: _ => false
  | _ :: l', _ :: r' => lex_less l' r'
  | _, _ => false
  end.

Section PackedNavBits.

Context `{Collaborators}.

Record PackedNavBits : Type := mkPackedNavBits {
  satSys : SatID;
  obsID : ObsID;
  navID : NavID;
  rxID : list ascii;
  transmitTime : CommonTime;
  parityStatus : ParityStatus;
  bits : list bool;
  bits_used : Z;
  xMitCoerced : bool
}.

Definition with_bits (p : PackedNavBits) (bs : list bool) : PackedNavBits :=
  mkPackedNavBits (satSys p) (obsID p) (navID p) (rxID p) (transmitTime p)
    (parityStatus p) bs (bits_used p) (xMitCoerced p).

Definition with_bits_used (p : PackedNavBits) (n : Z) : PackedNavBits :=
  mkPackedNavBits (satSys p) (obsID p) (navID p) (rxID p) (transmitTime p)
    (parityStatus p) (bits p) n (xMitCoerced p).

(** What a method that changes the object leaves behind. *)
Inductive effect : Type :=
| Done (p : PackedNavBits)
| Raised (e : exn) (p : PackedNavBits)
| Wild.

Definition ebind (r : effect) (k : PackedNavBits -> effect) : effect :=
  match r with
  | Done p => k p
  | Raised e p => Raised e p
  | Wild => Wild
  end.

(** [bits.size()] *)
Definition size (p : PackedNavBits) : Z := Z.of_nat (length (bits p)).

(** The bits of [[start, start + numBits)], first bit most significant. *)
Definition field (p : PackedNavBits) (startBit numBits : Z) : list bool :=
  take (Z.to_nat numBits) (drop (Z.to_nat startBit) (bits p)).

(** The invariant of the storage: [bits_used] counts cells that exist, and
    a [std::vector] holds fewer than [2^63] of them. *)
Definition well_formed (p : PackedNavBits) : Prop :=
  0 <= bits_used p <= size p /\ size p < 2 ^ 63.

(** The object after a raw append of [numBits] bits of [value]. *)
Definition appended (p : PackedNavBits) (value numBits : Z) : PackedNavBits :=
  with_bits_used
    (with_bits p
       (take (Z.to_nat (bits_used p)) (bits p)
        ++ to_bits (Z.to_nat numBits) value
        ++ drop (Z.to_nat (bits_used p + numBits)) (bits p)))
    (bits_used p + numBits).

(** The object that the copy constructor builds from [right]. *)
Definition cloned (right : PackedNavBits) : PackedNavBits :=
  mkPackedNavBits (satSys right) (obsID right) (navID right) (rxID right)
    (transmitTime right) (parityStatus right)
    (take (Z.to_nat (bits_used right)) (bits right))
    (bits_used right) (xMitCoerced right).

(** The object after [right] was appended to [p]. *)
Definition concatenated (p right : PackedNavBits) : PackedNavBits :=
  with_bits_used
    (with_bits p (field p 0 (bits_used p) ++ field right 0 (bits_used right)))
    (bits_used p + bits_used right).

(** ** Constructors *)

(** [PackedNavBits()] *)
Definition PackedNavBits_default : PackedNavBits :=
  mkPackedNavBits SatID_default ObsID_default NavID_default []
    BEGINNING_OF_TIME_GPS psUnknown (replicate 900 false) 0 false.

(** [PackedNavBits(satSysArg, obsIDArg, navIDArg, rxString, transmitTimeArg)] *)
Definition PackedNavBits_new (satSysArg : SatID) (obsIDArg : ObsID)
    (navIDArg : NavID) (rxString : list ascii) (transmitTimeArg : CommonTime)
  : PackedNavBits :=
  mkPackedNavBits satSysArg obsIDArg navIDArg rxString transmitTimeArg
    psUnknown (replicate 900 false) 0 false.

(** ** Unpacking *)

(** The loop of [asUint64_t]: [n] iterations from index [i].  The guard
    of [asUint64_t] keeps [i] inside the storage. *)
Fixpoint asUint64_loop (bs : list bool) (i n : nat) (temp : Z) : Z :=
  match n with
  | O => temp
  | S n' =>
      let temp := to_uint64 (Z.shiftl temp 1) in
      let temp := match bs !! i with
                  | Some true => to_uint64 (temp + 1)
                  | _ => temp
                  end in
      asUint64_loop bs (S i) n' temp
  end.

Definition asUint64_t (p : PackedNavBits) (startBit numBits : Z) : result Z :=
  let stop := to_uint64 (startBit + numBits) in
  if size p <? stop then
    Exc (InvalidParameter "Requested bits not present.")
  else
    let first := to_uint64 startBit in
    Val (asUint64_loop (bits p) (Z.to_nat first) (Z.to_nat (stop - first)) 0).

Definition asUnsignedLong (p : PackedNavBits) (startBit numBits scale : Z)
  : result Z :=
  temp ← asUint64_t p startBit numBits;
  Val (to_uint64 (temp * to_uint64 scale)).

(** [s <<= 64 - numBits; s >>= 64 - numBits;] on the [int64_t] view of the
    extracted word; a shift count outside [[0, 64)] is undefined. *)
Definition SignExtend (p : PackedNavBits) (startBit numBits : Z) : result Z :=
  u ← asUint64_t p startBit numBits;
  let count := 64 - numBits in
  if (count <? 0) || (64 <=? count) then Undef
  else
    let s := to_int64 u in
    let s := to_int64 (Z.shiftl s count) in
    Val (Z.shiftr s count).

(** [(long) (s * scale)]: the product of an [int64_t] and an [int]. *)
Definition mul_int64 (s scale : Z) : result Z :=
  let r := s * scale in
  if (- 2 ^ 63 <=? r) && (r <? 2 ^ 63) then Val r else Undef.

Definition asLong (p : PackedNavBits) (startBit numBits scale : Z) : result Z :=
  s ← SignExtend p startBit numBits;
  mul_int64 s scale.

(** ** Packing *)

(** The loop of [addUint64_t] (and of [insertUnsignedLong]): [n] cells from
    [ndx], one bit of [value] each under a mask that moves right. *)
Fixpoint addUint64_loop (value : Z) (n : nat) (mask : Z) (ndx : nat)
    (bs : list bool) : option (list bool) :=
  match n with
  | O => Some bs
  | S n' =>
      if decide (ndx < length bs)%nat then
        let bs := <[ndx := false]> bs in
        let bs := if Z.land value mask =? 0 then bs else <[ndx := true]> bs in
        addUint64_loop value n' (Z.shiftr mask 1) (S ndx) bs
      else None
  end.

Definition addUint64_t (p : PackedNavBits) (value numBits : Z) : effect :=
  if (numBits <? 1) || (64 <? numBits) then Wild
  else
    let ndx := to_uint64 (bits_used p) in
    let mask := to_uint64 (Z.shiftl 1 (numBits - 1)) in
    match addUint64_loop value (Z.to_nat numBits) mask (Z.to_nat ndx) (bits p) with
    | Some bs => Done (with_bits_used (with_bits p bs) (bits_used p + numBits))
    | None => Wild
    end.

Definition addUnsignedLong (p : PackedNavBits) (value numBits scale : Z)
  : effect :=
  let out := to_uint64 value in
  let divisor := to_uint64 scale in
  if divisor =? 0 then Wild
  else
    let out := out / divisor in
    match pow2_minus_1 numBits with
    | None => Wild
    | Some test =>
        if test <? out then
          Raised (InvalidParameter
                    "Scaled value too large for specifed bit length") p
        else addUint64_t p out numBits
    end.

(** The split signed unpack [asLong(startBits[], numBits[], len, scale)].
    Its loop runs over [i = 1 .. len-1]; the arrays are lists, and reading
    one past its end is undefined. *)
Fixpoint asLong_split_loop (p : PackedNavBits) (startBits numBits : list Z)
    (i n : nat) (s : Z) : result Z :=
  match n with
  | O => Val s
  | S n' =>
      match startBits !! i, numBits !! i with
      | Some sb, Some nb =>
          temp ← asUint64_t p (to_int sb) (to_int nb);
          if 64 <=? nb then Undef
          else
            let s := to_int64 (Z.shiftl s nb) in
            let s := to_int64 (Z.lor (to_uint64 s) temp) in
            asLong_split_loop p startBits numBits (S i) n' s
      | _, _ => Undef
      end
  end.

Definition asLong_split (p : PackedNavBits) (startBits numBits : list Z)
    (len : Z) (scale : Z) : result Z :=
  match startBits !! 0%nat, numBits !! 0%nat with
  | Some sb, Some nb =>
      s ← SignExtend p (to_int sb) (to_int nb);
      s ← asLong_split_loop p startBits numBits 1 (Z.to_nat (len - 1)) s;
      mul_int64 s scale
  | _, _ => Undef
  end.

(** *** The split signed unpack in the words of its description

    The first range gives the initial value, sign-extended; each later
    range is concatenated onto the low end: the running value is shifted
    left by the width of the range and OR-ed with its raw bits; the scale
    multiplies the result, and a product that is not a [long] is not
    defined. *)

Definition concat_range (p : PackedNavBits) (acc : result Z)
    (range : Z * Z) : result Z :=
  s ← acc;
  raw ← asUint64_t p range.1 range.2;
  if 64 <=? range.2 then Undef
  else Val (to_int64 (Z.lor (Z.shiftl s range.2) raw)).

Definition split_signed_spec (p : PackedNavBits) (ranges : list (Z * Z))
    (scale : Z) : result Z :=
  match ranges with
  | [] => Undef
  | first :: rest =>
      s ← fold_left (concat_range p) rest (SignExtend p first.1 first.2);
      if (- 2 ^ 63 <=? s * scale) && (s * scale <? 2 ^ 63)
      then Val (s * scale) else Undef
  end.

(** A range of at least one bit that lies in the storage. *)
Definition range_in_storage (p : PackedNavBits) (range : Z * Z) : Prop :=
  0 <= range.1 < 2 ^ 31 /\ 1 <= range.2 /\ range.1 + range.2 <= size p.

(** The bits of the ranges, one range after the other. *)
Definition fields (p : PackedNavBits) (ranges : list (Z * Z)) : list bool :=
  concat (map (fun range => field p range.1 range.2) ranges).

(** ** Strings *)

Definition code (c : ascii) : Z := Z.of_N (N_of_ascii c).






(** The object after the values [vals] were appended, [width] bits each,
    and the bits of such a run of values. *)
Definition appended_all (p : PackedNavBits) (width : Z) (vals : list Z)
  : PackedNavBits :=
  fold_left (fun p v => appended p v width) vals p.

Definition values_bits (width : Z) (vals : list Z) : list bool :=
  concat (map (to_bits (Z.to_nat width)) vals).

(** The object after the characters [cs] were appended, eight bits each. *)
Definition stored (p : PackedNavBits) (cs : list ascii) : PackedNavBits :=
  appended_all p 8 (map code cs).





(** ** Structure *)

(** [bits.resize(n)] with [n] an [int] converted to [size_t]; a size above
    [max_size()] throws. *)
Definition bits_resize (p : PackedNavBits) (n : Z) : effect :=
  let n := to_uint64 n in
  if 2 ^ 63 <=? n then Raised length_error p
  else Done (with_bits p (resize (Z.to_nat n) false (bits p))).

(** [for (i = 0; i < n; i++) dst[i + off] = src[i];] *)
Fixpoint copy_loop (src : list bool) (off : Z) (i : Z) (n : nat)
    (dst : list bool) : option (list bool) :=
  match n with
  | O => Some dst
  | S n' =>
      let to := Z.to_nat (to_uint64 (i + off)) in
      match src !! Z.to_nat i with
      | Some b =>
          if decide (to < length dst)%nat then
            copy_loop src off (i + 1) n' (<[to := b]> dst)
          else None
      | None => None
      end
  end.

(** The copy constructor; [bits] starts out empty, and [parityStatus] and
    [xMitCoerced] are assigned on the way. *)
Definition PackedNavBits_copy (right : PackedNavBits) : effect :=
  let this := mkPackedNavBits (satSys right) (obsID right) (navID right)
                (rxID right) (transmitTime right) psUnknown []
                (bits_used right) false in
  ebind (bits_resize this (bits_used right)) (fun this =>
    let this := mkPackedNavBits (satSys this) (obsID this) (navID this)
                  (rxID this) (transmitTime this) (parityStatus right)
                  (bits this) (bits_used this) (xMitCoerced this) in
    match copy_loop (bits right) 0 0 (Z.to_nat (bits_used this)) (bits this) with
    | Some bs =>
        Done (mkPackedNavBits (satSys this) (obsID this) (navID this)
                (rxID this) (transmitTime this) (parityStatus this)
                bs (bits_used this) (xMitCoerced right))
    | None => Wild
    end).

Definition clone (p : PackedNavBits) : effect := PackedNavBits_copy p.

Definition addPackedNavBits (p right : PackedNavBits) : effect :=
  let old_bits_used := bits_used p in
  let p := with_bits_used p (bits_used p + bits_used right) in
  ebind (bits_resize p (bits_used p)) (fun p =>
    match copy_loop (bits right) old_bits_used 0
            (Z.to_nat (bits_used right)) (bits p) with
    | Some bs => Done (with_bits p bs)
    | None => Wild
    end).

Definition reset_num_bits (p : PackedNavBits) (new_bits_used : Z)
  : PackedNavBits :=
  with_bits_used p new_bits_used.

Definition trimsize (p : PackedNavBits) : effect :=
  bits_resize p (bits_used p).

(** ** Text import *)

(** *** [std::string] searches

    Positions are [size_type] values; [npos] is the largest one, so that
    [npos + 1] wraps to 0. *)

Definition npos : Z := 2 ^ 64 - 1.

Fixpoint find_from (P : ascii -> bool) (s : list ascii) (i : Z) : Z :=
  match s with
  | [] => npos
  | c :: s' => if P c then i else find_from P s' (i + 1)
  end.

Definition member (chars : list ascii) (c : ascii) : bool :=
  bool_decide (c ∈ chars).

Definition find_first_of (s chars : list ascii) (pos : Z) : Z :=
  if Z.of_nat (length s) <=? pos then npos
  else find_from (member chars) (drop (Z.to_nat pos) s) pos.

Definition find_first_not_of (s chars : list ascii) (pos : Z) : Z :=
  if Z.of_nat (length s) <=? pos then npos
  else find_from (fun c => negb (member chars c)) (drop (Z.to_nat pos) s) pos.

Definition substr (s : list ascii) (pos len : Z) : result (list ascii) :=
  if Z.of_nat (length s) <? pos then Exc out_of_range
  else
    let rest := drop (Z.to_nat pos) s in
    Val (take (Z.to_nat (Z.min len (Z.of_nat (length rest)))) rest).

(** *** Text to number *)

Definition digit_value (c : ascii) : option Z :=
  let n := code c in
  if (code "0" <=? n) && (n <=? code "9") then Some (n - code "0")
  else None.

Definition hex_digit_value (c : ascii) : option Z :=
  let n := code c in
  if (code "0" <=? n) && (n <=? code "9") then Some (n - code "0")
  else if (code "A" <=? n) && (n <=? code "F") then Some (n - code "A" + 10)
  else if (code "a" <=? n) && (n <=? code "f") then Some (n - code "a" + 10)
  else None.

(** The value of the longest prefix of [s] made of digits of the given
    base, continuing from [acc]. *)
Fixpoint leading_number (digit : ascii -> option Z) (base : Z)
    (s : list ascii) (acc : Z) : Z :=
  match s with
  | [] => acc
  | c :: s' =>
      match digit c with
      | Some d => leading_number digit base s' (base * acc + d)
      | None => acc
      end
  end.

(** Modelled from the spec: [StringUtils::asInt] is not among the sources.
    The first token of the text "is the decimal bit count": the decimal
    number that the string starts with. *)
Definition asInt (s : list ascii) : Z :=
  leading_number digit_value 10 s 0.

(** Modelled from the spec: [StringUtils::x2uint] is not among the sources.
    A word token has "the form 0x + 8 hex digits": the hexadecimal number
    that follows the two-character prefix. *)
Definition x2uint (s : list ascii) : Z :=
  leading_number hex_digit_value 16 (drop 2 s) 0.

Definition whiteSpace : list ascii :=
  [" "; "009"; ","]%char.

(** The word loop of [rawBitInput], [n] words to go; the statements after
    the loop are at its end. *)
Fixpoint rawBitInput_words (inString : list ascii) (bitsExpected : Z)
    (n : nat) (end_ bitsRead : Z) (p : PackedNavBits) : effect :=
  match n with
  | O => trimsize (with_bits_used p bitsRead)
  | S n' =>
      let begin := find_first_not_of inString whiteSpace (to_uint64 (end_ + 1)) in
      if begin =? npos then
        Raised (InvalidParameter
                  "Did not find expected number of hex words.") p
      else
        let end_ := find_first_of inString whiteSpace begin in
        let length := to_uint64 (end_ - begin) in
        match substr inString begin length with
        | Val hexWord =>
            if negb (bool_decide (take 2 hexWord = ["0"; "x"]%char))
               && negb (bool_decide (take 2 hexWord = ["0"; "X"]%char)) then
              Raised (InvalidParameter
                        "Expected hex data did not being with '0x'") p
            else
              let dataWord := x2uint hexWord in
              let numBitsToAdd := bitsExpected - bitsRead in
              let numBitsToAdd :=
                if 32 <? numBitsToAdd then 32 else numBitsToAdd in
              ebind (addUnsignedLong p dataWord 32 1)
                (rawBitInput_words inString bitsExpected n' end_
                   (bitsRead + numBitsToAdd))
        | Exc e => Raised e p
        | Undef => Wild
        end
  end.

Definition rawBitInput (p : PackedNavBits) (inString : list ascii) : effect :=
  let begin := find_first_not_of inString whiteSpace 0 in
  if begin =? npos then
    Raised (InvalidParameter
              "Did not find #bits at beginning of input string.") p
  else
    let end_ := find_first_of inString whiteSpace begin in
    if end_ =? npos then
      Raised (InvalidParameter
                "Did not find space after #bits at beginning of input string.")
        p
    else
      match substr inString begin end_ with
      | Val textBitCount =>
          let bitsExpected := asInt textBitCount in
          let numWordsExpected := Z.quot (bitsExpected - 1) 32 + 1 in
          rawBitInput_words inString bitsExpected
            (Z.to_nat numWordsExpected) end_ 0 p
      | Exc e => Raised e p
      | Undef => Wild
      end.

(** *** The interchange text

    A decimal count, then words of the form [0x] and eight hexadecimal
    digits, each behind a separator of spaces, tabs and commas. *)

Definition is_white (c : ascii) : Prop := member whiteSpace c = true.

Definition separator (sep : list ascii) : Prop :=
  sep <> [] /\ Forall is_white sep.

Definition decimal_count (ds : list ascii) : Prop :=
  ds <> [] /\ Forall (fun c => is_Some (digit_value c)) ds.

Definition hex_word (tok : list ascii) : Prop :=
  exists x hs,
    tok = "0"%char :: x :: hs
    /\ (x = "x"%char \/ x = "X"%char)
    /\ length hs = 8%nat
    /\ Forall (fun c => is_Some (hex_digit_value c)) hs.

(** The text of a count [ds] and of [words], each a separator and a word
    token, with whatever follows the last word. *)
Definition words_text (words : list (list ascii * list ascii)) : list ascii :=
  concat (map (fun w => w.1 ++ w.2) words).

Definition interchange_text (ds : list ascii)
    (words : list (list ascii * list ascii)) (trail : list ascii)
  : list ascii :=
  ds ++ words_text words ++ trail.

(** What may follow the last word: nothing, or a separator and anything. *)
Definition trailer (trail : list ascii) : Prop :=
  trail = [] \/ exists c t, trail = c :: t /\ is_white c.

(** The values of the word tokens. *)
Definition word_values (words : list (list ascii * list ascii)) : list Z :=
  map (fun w => x2uint w.2) words.

(** The buffer that holds the first [n] bits of the 32-bit values [vals]
    and nothing else. *)
Definition imported (p : PackedNavBits) (n : Z) (vals : list Z)
  : PackedNavBits :=
  with_bits (with_bits_used p n) (take (Z.to_nat n) (values_bits 32 vals)).

(** ** Comparison *)

(** The scan of [operator<] over [i = 0 .. bits.size()-1]. *)
Fixpoint less_scan (l r : list bool) (i n : nat) : bool :=
  match n with
  | O => false
  | S n' =>
      match l !! i, r !! i with
      | Some false, Some true => true
      | Some true, Some false => false
      | _, _ => less_scan l r (S i) n'
      end
  end.

Definition operator_lt (p right : PackedNavBits) : bool :=
  if negb (size p =? size right) then
    if size p <? size right then true else false
  else less_scan (bits p) (bits right) 0 (length (bits p)).

Definition flag_set (flagBits mask : Z) : bool :=
  negb (Z.land flagBits mask =? 0).

Definition matchMetaData (p right : PackedNavBits) (flagBits : Z) : bool :=
  if flag_set flagBits mmTIME
     && diffSec_gt_eps (transmitTime right) (transmitTime p) then false
  else if flag_set flagBits mmSAT && SatID_ne (satSys p) (satSys right)
  then false
  else if flag_set flagBits mmOBS && ObsID_ne (obsID p) (obsID right)
  then false
  else if flag_set flagBits mmRX
          && negb (bool_decide (rxID p = rxID right)) then false
  else if flag_set flagBits mmNAV && navType_ne (navID p) (navID right)
  then false
  else true.

(** Conversion to [short]. *)
Definition to_short (z : Z) : Z := (z + 2 ^ 15) mod 2 ^ 16 - 2 ^ 15.

(** [for (int i = startBit; i <= endBit; i++) if (bits[i] != right.bits[i])
    return false;] with [n] iterations left. *)
Fixpoint matchBits_loop (l r : list bool) (i : Z) (n : nat) : result bool :=
  match n with
  | O => Val true
  | S n' =>
      let ndx := Z.to_nat (to_uint64 i) in
      match l !! ndx, r !! ndx with
      | Some x, Some y =>
          if negb (eqb x y) then Val false
          else matchBits_loop l r (i + 1) n'
      | _, _ => Undef
      end
  end.

Definition matchBits (p right : PackedNavBits) (startBitA endBitA : Z)
  : result bool :=
  if negb (size p =? size right) then Val false
  else
    let startBit := startBitA in
    let endBit := endBitA in
    let endBit := if (endBit =? -1) || (size p <=? endBit)
                  then to_short (size p - 1) else endBit in
    let startBit := if startBit <? 0 then 0 else startBit in
    let startBit := if size p <=? startBit
                    then to_short (size p - 1) else startBit in
    matchBits_loop (bits p) (bits right) startBit
      (Z.to_nat (endBit - startBit + 1)).

(** [match] of the source. *)
Definition match_ (p right : PackedNavBits) (startBit endBit flagBits : Z)
  : result bool :=
  if negb (matchMetaData p right flagBits) then Val false
  else
    b ← matchBits p right startBit endBit;
    if negb b then Val false else Val true.

(** [operator==] calls [match(right)]: all bits ([startBit = 0],
    [endBit = -1]) and all metadata ([flagBits = mmALL]). *)
Definition operator_eq (p right : PackedNavBits) : result bool :=
  match_ p right 0 (-1) mmALL.

(** ** Further methods *)

(** [int64_t test = pow(static_cast<double>(2), numBits - 1) - 1;] for the
    exponent [e = numBits - 1]: as [pow2_minus_1], converted to [int64_t];
    below [-53] the difference rounds to [-1.0]. *)
Definition pow2_minus_1_signed (e : Z) : option Z :=
  if e <? -53 then Some (-1)
  else if e <? 0 then Some 0
  else
    let d := round_binary64 (2 ^ e - 1) in
    if d <? 2 ^ 63 then Some d else None.

(** [out /= scale] on an [int64_t] truncates towards zero; a zero divisor
    and the quotient of the least [int64_t] by -1 are undefined.  The union
    hands the same 64 bits to [addUint64_t]. *)
Definition addLong (p : PackedNavBits) (value numBits scale : Z) : effect :=
  if scale =? 0 then Wild
  else if (value =? - 2 ^ 63) && (scale =? -1) then Wild
  else
    let out := Z.quot value scale in
    match pow2_minus_1_signed (numBits - 1) with
    | None => Wild
    | Some test =>
        if (test <? out) || (out <? - (test + 1)) then
          Raised (InvalidParameter
                    "Scaled value too large for specifed bit length") p
        else addUint64_t p (to_uint64 out) numBits
    end.

(** [smag *= -1] on a [long]. *)
Definition asSignMagLong (p : PackedNavBits) (startBit numBits scale : Z)
  : result Z :=
  let startBitMag := startBit + 1 in
  let numBitsMag := numBits - 1 in
  mag ← asUnsignedLong p startBitMag numBitsMag scale;
  uint ← asUint64_t p startBit 1;
  let smag := to_int64 mag in
  if uint =? 1 then
    if smag =? - 2 ^ 63 then Undef else Val (smag * -1)
  else Val smag.

(** [asString]: the result starts out as one space, and every eight bits
    add one [char]; the sum [currentStart += CHAR_SIZE] is undefined when
    it leaves [int]. *)
Fixpoint asString_loop (p : PackedNavBits) (n : nat) (currentStart : Z)
    (out : list ascii) : result (list ascii) :=
  match n with
  | O => Val out
  | S n' =>
      temp ← asUint64_t p currentStart 8;
      let ch := ascii_of_N (Z.to_N (temp mod 256)) in
      if 2 ^ 31 <=? currentStart + 8 then Undef
      else asString_loop p n' (currentStart + 8) (out ++ [ch])
  end.

Definition asString (p : PackedNavBits) (startBit numChars : Z)
  : result (list ascii) :=
  asString_loop p (Z.to_nat numChars) startBit [" "%char].

(** The split unsigned unpack
    [asUnsignedLong(startBits[], numBits[], len, scale)]. *)
Fixpoint asUnsignedLong_split_loop (p : PackedNavBits)
    (startBits numBits : list Z) (i n : nat) (ulong : Z) : result Z :=
  match n with
  | O => Val ulong
  | S n' =>
      match startBits !! i, numBits !! i with
      | Some sb, Some nb =>
          temp ← asUint64_t p (to_int sb) (to_int nb);
          if 64 <=? nb then Undef
          else
            let ulong := to_uint64 (Z.shiftl ulong nb) in
            let ulong := Z.lor ulong temp in
            asUnsignedLong_split_loop p startBits numBits (S i) n' ulong
      | _, _ => Undef
      end
  end.

Definition asUnsignedLong_split (p : PackedNavBits)
    (startBits numBits : list Z) (len : Z) (scale : Z) : result Z :=
  match startBits !! 0%nat, numBits !! 0%nat with
  | Some sb, Some nb =>
      ulong ← asUint64_t p (to_int sb) (to_int nb);
      ulong ← asUnsignedLong_split_loop p startBits numBits 1
                (Z.to_nat (len - 1)) ulong;
      Val (to_uint64 (ulong * to_uint64 scale))
  | _, _ => Undef
  end.

(** [asBool]: [bits[bitNum]], without a check. *)
Definition asBool (p : PackedNavBits) (bitNum : Z) : result bool :=
  match bits p !! Z.to_nat bitNum with
  | Some b => Val b
  | None => Undef
  end.

Definition insertUnsignedLong (p : PackedNavBits)
    (value startBit numBits scale : Z) : effect :=
  if bits_used p <? startBit + numBits then
    Raised (InvalidParameter
              "insertUnsignedLong called with startBit+numBits > bits_used.")
      p
  else
    let out := to_uint64 value in
    let divisor := to_uint64 scale in
    if divisor =? 0 then Wild
    else
      let out := out / divisor in
      match pow2_minus_1 numBits with
      | None => Wild
      | Some test =>
          if test <? out then
            Raised (InvalidParameter
                      "Scaled value too large for specifed bit length") p
          else if (numBits <? 1) || (64 <? numBits) then Wild
          else
            let ndx := to_uint64 startBit in
            let mask := to_uint64 (Z.shiftl 1 (numBits - 1)) in
            match addUint64_loop out (Z.to_nat numBits) mask (Z.to_nat ndx)
                    (bits p) with
            | Some bs => Done (with_bits p bs)
            | None => Wild
            end
      end.



Definition clearBits (p : PackedNavBits) : PackedNavBits :=
  with_bits_used (with_bits p []) 0.

(** [for (short i = startBit; i <= finalBit; i++) bits[i] = from.bits[i];]
    with [n] iterations left. *)
Fixpoint copyBits_loop (src : list bool) (i : Z) (n : nat) (dst : list bool)
  : option (list bool) :=
  match n with
  | O => Some dst
  | S n' =>
      let ndx := Z.to_nat (to_uint64 i) in
      match src !! ndx with
      | Some b =>
          if decide (ndx < length dst)%nat then
            copyBits_loop src (i + 1) n' (<[ndx := b]> dst)
          else None
      | None => None
      end
  end.

(** [copyBits]; a [short] counter never gets past a final bit of 32767, and
    the loop then runs on into indices outside the storage. *)
Definition copyBits (p from : PackedNavBits) (startBit endBit : Z) : effect :=
  if negb (bits_used p =? bits_used from) then
    Raised (InvalidParameter
              "PackedNavBits::copyBits( ) may only be called on two objects with the same number of packed bits.")
      p
  else
    let finalBit := endBit in
    let finalBit := if finalBit =? -1 then to_short (bits_used p - 1)
                    else finalBit in
    if finalBit =? 32767 then Wild
    else
      match copyBits_loop (bits from) startBit
              (Z.to_nat (finalBit - startBit + 1)) (bits p) with
      | Some bs => Done (with_bits p bs)
      | None => Wild
      end.

(** The object after the [numBits] bits at [startBit] were overwritten
    with those of [value]. *)
Definition patched (p : PackedNavBits) (value startBit numBits : Z)
  : PackedNavBits :=
  with_bits p
    (take (Z.to_nat startBit) (bits p)
     ++ to_bits (Z.to_nat numBits) value
     ++ drop (Z.to_nat (startBit + numBits)) (bits p)).

(** The object whose storage holds the bits in use and no more. *)
Definition trimmed (p : PackedNavBits) : PackedNavBits :=
  with_bits p (take (Z.to_nat (bits_used p)) (bits p)).

(** The object after the cells [startBit .. finalBit] were taken over from
    [from]. *)
Definition overlaid (p from : PackedNavBits) (startBit finalBit : Z)
  : PackedNavBits :=
  with_bits p
    (take (Z.to_nat startBit) (bits p)
     ++ take (Z.to_nat (finalBit - startBit + 1))
          (drop (Z.to_nat startBit) (bits from))
     ++ drop (Z.to_nat (finalBit + 1)) (bits p)).

(** The character that [asString] makes of the eight bits from
    [startBit]. *)
Definition char_at (p : PackedNavBits) (startBit : Z) : ascii :=
  ascii_of_N (Z.to_N (value_of (field p startBit 8) mod 256)).

(** The range that [matchBits] compares, after its clamping. *)
Definition clamped_start (p : PackedNavBits) (startBit : Z) : Z :=
  if startBit <? 0 then 0
  else if size p <=? startBit then size p - 1 else startBit.

Definition clamped_end (p : PackedNavBits) (endBit : Z) : Z :=
  if (endBit =? -1) || (size p <=? endBit) then size p - 1 else endBit.

End PackedNavBits.

(** ** A concrete set of collaborators

    Identifiers are numbers, a time stamp is a whole number of
    microseconds, and the masks have the values of the header. *)

Definition plain : Collaborators := {|
  SatID := Z; ObsID := Z; NavID := Z; CommonTime := Z;
  SatID_ne := fun a b => negb (a =? b);
  ObsID_ne := fun a b => negb (a =? b);
  navType_ne := fun a b => negb (a =? b);
  diffSec_gt_eps := fun a b => 1000 <? Z.abs (a - b);
  mmTIME := 1; mmSAT := 2; mmOBS := 4; mmRX := 8; mmNAV := 16;
  mmALL := 65535;
  SatID_default := 0; ObsID_default := 0; NavID_default := 0;
  BEGINNING_OF_TIME_GPS := 0
|}.

(** A default-constructed buffer. *)
Definition fresh : @PackedNavBits plain := PackedNavBits_default.

(** The text of 900 bits: the count and 29 words [0x00000000], each after
    one space. *)
Definition text_900 : list ascii :=
  interchange_text (list_ascii_of_string "900")
    (replicate 29
       (list_ascii_of_string " ", list_ascii_of_string "0x00000000"))
    [].

(** * Properties *)

Section Extraction.

Context `{Collaborators}.

Implicit Types p right : PackedNavBits.

(** ** Machine integers *)

Lemma to_uint64_small z : 0 <= z < 2 ^ 64 -> to_uint64 z = z.
Proof. intros Hz. unfold to_uint64. apply Z.mod_small. exact Hz. Qed.

Lemma to_uint64_range z : 0 <= to_uint64 z < 2 ^ 64.
Proof. unfold to_uint64. apply Z.mod_pos_bound. lia. Qed.

Lemma to_int64_small z : - 2 ^ 63 <= z < 2 ^ 63 -> to_int64 z = z.
Proof.
  intros Hz. unfold to_int64. rewrite Z.mod_small; lia.
Qed.

Lemma to_uint64_congr a b k : a = b + k * 2 ^ 64 -> to_uint64 a = to_uint64 b.
Proof. intros ->. unfold to_uint64. apply Z_mod_plus_full. Qed.

Lemma to_uint64_decomp z : exists k, to_uint64 z = z + k * 2 ^ 64.
Proof.
  exists (- (z / 2 ^ 64)). unfold to_uint64.
  pose proof (Z.div_mod z (2 ^ 64)) as Hdm. lia.
Qed.

(** ** Bit patterns *)

Lemma value_of_bounds l : 0 <= value_of l < 2 ^ Z.of_nat (length l).
Proof.
  induction l as [|b l IH]; simpl value_of; simpl length.
  - simpl. lia.
  - rewrite Nat2Z.inj_succ, Z.pow_succ_r by lia.
    destruct b; simpl Z.b2z; lia.
Qed.

Lemma value_of_app l1 l2 :
  value_of (l1 ++ l2) = value_of l1 * 2 ^ Z.of_nat (length l2) + value_of l2.
Proof.
  induction l1 as [|b l1 IH]; simpl value_of; [lia|].
  rewrite IH, length_app, Nat2Z.inj_add, Z.pow_add_r by lia. ring.
Qed.

Lemma value_of_testbit l (k : nat) :
  (k < length l)%nat ->
  l !! (length l - 1 - k)%nat = Some (Z.testbit (value_of l) (Z.of_nat k)).
Proof.
  induction l as [|b l IH]; simpl length; [lia|].
  intros Hk. simpl value_of.
  pose proof (value_of_bounds l) as Hb.
  destruct (decide (k = length l)) as [->|Hne].
  - replace (S (length l) - 1 - length l)%nat with O by lia. simpl.
    f_equal.
    rewrite <- (Z.add_0_l (Z.of_nat (length l))), <- Z.div_pow2_bits by lia.
    rewrite Z.add_comm, Z.div_add, Z.div_small by lia.
    destruct b; reflexivity.
  - replace (S (length l) - 1 - k)%nat with (S (length l - 1 - k)) by lia.
    simpl. rewrite IH by lia. f_equal.
    rewrite <- (Z.mod_pow2_bits_low (_ + _) (Z.of_nat (length l))) by lia.
    rewrite Z.add_comm, Z_mod_plus_full, Z.mod_small by lia.
    reflexivity.
Qed.

Lemma to_bits_length n v : length (to_bits n v) = n.
Proof. induction n as [|n IH]; simpl; congruence. Qed.

Lemma value_of_to_bits n v : value_of (to_bits n v) = v mod 2 ^ Z.of_nat n.
Proof.
  induction n as [|n IH]; simpl to_bits; simpl value_of.
  - simpl. rewrite Z.mod_1_r. reflexivity.
  - rewrite IH, to_bits_length.
    rewrite Nat2Z.inj_succ, Z.pow_succ_r by lia.
    rewrite Z.testbit_spec' by lia.
    pose proof (Z.pow_pos_nonneg 2 (Z.of_nat n)) as Hpos.
    rewrite (Z.mul_comm 2), Z.rem_mul_r by lia. lia.
Qed.

(** ** Raw extraction *)

Lemma asUint64_loop_spec bs n : forall (i : nat) temp,
  (i + n <= length bs)%nat ->
  0 <= temp < 2 ^ 64 ->
  asUint64_loop bs i n temp
  = to_uint64 (temp * 2 ^ Z.of_nat n + value_of (take n (drop i bs))).
Proof.
  induction n as [|n IH]; intros i temp Hlen Htemp.
  - simpl. rewrite to_uint64_small; lia.
  - destruct (lookup_lt_is_Some_2 bs i) as [b Hb]; [lia|].
    rewrite (drop_S _ _ _ Hb). simpl take. simpl value_of.
    rewrite length_take, length_drop, Nat.min_l by lia.
    cbn [asUint64_loop]. rewrite Hb.
    set (t1 := to_uint64 (Z.shiftl temp 1)).
    set (t2 := match b with true => to_uint64 (t1 + 1) | false => t1 end).
    assert (Ht2 : exists k, t2 = 2 * temp + Z.b2z b + k * 2 ^ 64).
    { destruct (to_uint64_decomp (Z.shiftl temp 1)) as [k Hk].
      fold t1 in Hk. rewrite Z.shiftl_mul_pow2 in Hk by lia.
      subst t2. destruct b; simpl Z.b2z.
      - destruct (to_uint64_decomp (t1 + 1)) as [k' Hk'].
        exists (k + k'). lia.
      - exists k. lia. }
    assert (Hr : 0 <= t2 < 2 ^ 64).
    { subst t2 t1. destruct b; apply to_uint64_range. }
    rewrite IH by (try lia; exact Hr).
    destruct Ht2 as [k Hk].
    apply (to_uint64_congr _ _ (k * 2 ^ Z.of_nat n)).
    rewrite Hk, Nat2Z.inj_succ, Z.pow_succ_r by lia. ring.
Qed.

Lemma asUint64_t_in_range p startBit numBits :
  0 <= startBit < 2 ^ 63 -> 0 <= numBits <= 64 ->
  startBit + numBits <= size p ->
  asUint64_t p startBit numBits
  = Val (value_of (take (Z.to_nat numBits) (drop (Z.to_nat startBit) (bits p)))).
Proof.
  intros Hs Hn Hfit. unfold asUint64_t, size in *.
  rewrite !to_uint64_small by lia.
  destruct (Z.ltb_spec (Z.of_nat (length (bits p))) (startBit + numBits));
    [lia|].
  replace (startBit + numBits - startBit) with numBits by lia.
  rewrite asUint64_loop_spec by lia.
  f_equal. rewrite Z.mul_0_l, Z.add_0_l.
  apply to_uint64_small.
  pose proof (value_of_bounds
                (take (Z.to_nat numBits) (drop (Z.to_nat startBit) (bits p))))
    as Hb.
  rewrite length_take, length_drop, Nat.min_l in Hb by lia.
  rewrite Z2Nat.id in Hb by lia.
  assert (2 ^ numBits <= 2 ^ 64) by (apply Z.pow_le_mono_r; lia). lia.
Qed.

(** C1, as the code has it: the bound of [asUint64_t] is the size of the
    storage, not [bits_used].  For a start bit and a width of at most 64
    that are not negative, the call throws exactly when
    [startBit + numBits] exceeds [bits.size()]; otherwise it returns the
    number spelled by the bits from [startBit] on, first bit most
    significant: below [2 ^ numBits], and with bit [k] of the result equal
    to the stored bit [startBit + numBits - 1 - k]. *)
Theorem asUint64_t_storage_bound p startBit numBits :
  0 <= startBit < 2 ^ 31 -> 0 <= numBits <= 64 ->
  (asUint64_t p startBit numBits
   = Exc (InvalidParameter "Requested bits not present.")
   <-> size p < startBit + numBits)
  /\ (startBit + numBits <= size p ->
      exists v,
        asUint64_t p startBit numBits = Val v
        /\ v = value_of (field p startBit numBits)
        /\ 0 <= v < 2 ^ numBits
        /\ forall k, 0 <= k < numBits ->
             bits p !! Z.to_nat (startBit + numBits - 1 - k)
             = Some (Z.testbit v k)).
Proof.
  intros Hs Hn. split.
  - unfold asUint64_t. rewrite (to_uint64_small (startBit + numBits)) by lia.
    destruct (Z.ltb_spec (size p) (startBit + numBits)) as [Hlt|Hge].
    + split; [intros _; exact Hlt | reflexivity].
    + split; [discriminate | lia].
  - intros Hfit. exists (value_of (field p startBit numBits)).
    assert (Hlen : length (field p startBit numBits) = Z.to_nat numBits).
    { unfold field, size in *.
      rewrite length_take, length_drop, Nat.min_l by lia. reflexivity. }
    pose proof (value_of_bounds (field p startBit numBits)) as Hb.
    rewrite Hlen, Z2Nat.id in Hb by lia.
    split; [apply asUint64_t_in_range; lia|].
    split; [reflexivity|]. split; [exact Hb|].
    intros k Hk.
    pose proof (value_of_testbit (field p startBit numBits) (Z.to_nat k)) as Ht.
    rewrite Hlen, Z2Nat.id in Ht by lia.
    rewrite <- Ht by lia.
    unfold field. rewrite lookup_take_lt, lookup_drop by lia.
    f_equal. lia.
Qed.

End Extraction.

(** C1: a default-constructed buffer has no bit in use and 900 cells of
    storage, and [asUint64_t] reads eight of them without an exception. *)
Lemma asUint64_t_reads_past_bits_used :
  bits_used fresh < 0 + 8 /\ asUint64_t fresh 0 8 = Val 0.
Proof. split; reflexivity. Qed.

(** C1 on the byte [10100101] appended to a new buffer. *)
Lemma asUint64_t_storage_bound_witness :
  (0 <= 0 < 2 ^ 31 /\ 0 <= 8 <= 64)
  /\ (asUint64_t (appended fresh 165 8) 0 8
      = Exc (InvalidParameter "Requested bits not present.")
      <-> size (appended fresh 165 8) < 0 + 8)
  /\ asUint64_t (appended fresh 165 8) 0 8 = Val 165.
Proof.
  split; [lia|].
  destruct (asUint64_t_storage_bound (appended fresh 165 8) 0 8)
    as [Hiff Hval]; [lia | lia |].
  split; [exact Hiff|].
  destruct Hval as (v & Hv & Heq & _); [vm_compute; congruence|].
  rewrite Hv, Heq. reflexivity.
Defined.

Section Structure.

Context `{Collaborators}.

Implicit Types p right : PackedNavBits.

(** ** [reset_num_bits] *)

(** C10: [reset_num_bits] stores the given number in [bits_used] whatever
    it is, and changes neither the bits, nor the size of the storage, nor
    any field of the metadata; with it [bits_used] can be set above 900
    and above the storage size. *)
Theorem reset_num_bits_frame :
  (forall p (n : Z),
     bits_used (reset_num_bits p n) = n
     /\ bits (reset_num_bits p n) = bits p
     /\ size (reset_num_bits p n) = size p
     /\ satSys (reset_num_bits p n) = satSys p
     /\ obsID (reset_num_bits p n) = obsID p
     /\ navID (reset_num_bits p n) = navID p
     /\ rxID (reset_num_bits p n) = rxID p
     /\ transmitTime (reset_num_bits p n) = transmitTime p
     /\ parityStatus (reset_num_bits p n) = parityStatus p
     /\ xMitCoerced (reset_num_bits p n) = xMitCoerced p)
  /\ (exists n, 900 < bits_used (reset_num_bits PackedNavBits_default n)
                /\ size (reset_num_bits PackedNavBits_default n)
                   < bits_used (reset_num_bits PackedNavBits_default n))
  /\ (exists n, bits_used (reset_num_bits PackedNavBits_default n) < 0).
Proof.
  split; [|split].
  - intros p n. unfold reset_num_bits, with_bits_used, size. simpl.
    repeat split; reflexivity.
  - exists 901. split; vm_compute; reflexivity.
  - exists (-1). vm_compute. reflexivity.
Qed.

End Structure.

Section Packing.

Context `{Collaborators}.

Implicit Types p right : PackedNavBits.

(** ** The limit of an unsigned field *)

Lemma pow2_minus_1_exact (n : nat) :
  (n <= 53)%nat -> pow2_minus_1 (Z.of_nat n) = Some (2 ^ Z.of_nat n - 1).
Proof.
  intros Hn.
  do 54 (destruct n as [|n]; [vm_compute; reflexivity|]). lia.
Qed.

Lemma pow2_minus_1_rounded (n : nat) :
  (54 <= n <= 63)%nat -> pow2_minus_1 (Z.of_nat n) = Some (2 ^ Z.of_nat n).
Proof.
  intros Hn.
  do 54 (destruct n as [|n]; [lia|]).
  do 10 (destruct n as [|n]; [vm_compute; reflexivity|]). lia.
Qed.

(** Up to 63 bits the limit lets every value of the width through. *)
Lemma pow2_minus_1_admits numBits :
  0 <= numBits <= 63 ->
  exists test, pow2_minus_1 numBits = Some test /\ 2 ^ numBits - 1 <= test.
Proof.
  intros Hn. rewrite <- (Z2Nat.id numBits) by lia.
  destruct (decide (Z.to_nat numBits <= 53)%nat).
  - eexists. split; [apply pow2_minus_1_exact; lia | lia].
  - eexists. split; [apply pow2_minus_1_rounded; lia | lia].
Qed.

(** ** Raw append *)

Lemma land_pow2 v k :
  0 <= k -> Z.land v (2 ^ k) = if Z.testbit v k then 2 ^ k else 0.
Proof.
  intros Hk. apply Z.bits_inj'. intros m Hm.
  rewrite Z.land_spec, Z.pow2_bits_eqb by lia.
  destruct (Z.eqb_spec k m) as [->|Hne].
  - destruct (Z.testbit v m); simpl.
    + rewrite Z.pow2_bits_true by lia. reflexivity.
    + rewrite Z.bits_0. reflexivity.
  - rewrite andb_false_r.
    destruct (Z.testbit v k).
    + rewrite Z.pow2_bits_false by lia. reflexivity.
    + rewrite Z.bits_0. reflexivity.
Qed.

Lemma land_pow2_eqb v k :
  0 <= k -> (Z.land v (2 ^ k) =? 0) = negb (Z.testbit v k).
Proof.
  intros Hk. rewrite land_pow2 by lia.
  pose proof (Z.pow_pos_nonneg 2 k).
  destruct (Z.testbit v k); simpl; [apply Z.eqb_neq; lia | reflexivity].
Qed.

Lemma shiftr_pow2 (n : nat) :
  Z.shiftr (2 ^ Z.of_nat n) 1 = 2 ^ (Z.of_nat n - 1).
Proof.
  destruct n as [|n]; [reflexivity|].
  rewrite Z.shiftr_div_pow2, Nat2Z.inj_succ by lia.
  replace (Z.succ (Z.of_nat n) - 1) with (Z.of_nat n) by lia.
  rewrite Z.pow_succ_r, Z.pow_1_r, Z.mul_comm, Z.div_mul by lia.
  reflexivity.
Qed.

Lemma addUint64_loop_spec value n : forall (ndx : nat) bs,
  (ndx + n <= length bs)%nat ->
  addUint64_loop value n (2 ^ (Z.of_nat n - 1)) ndx bs
  = Some (take ndx bs ++ to_bits n value ++ drop (ndx + n) bs).
Proof.
  induction n as [|n IH]; intros ndx bs Hlen.
  - simpl. rewrite Nat.add_0_r, take_drop. reflexivity.
  - cbn [addUint64_loop to_bits].
    destruct (decide (ndx < length bs)%nat) as [Hlt|]; [|lia].
    replace (Z.of_nat (S n) - 1) with (Z.of_nat n) by lia.
    rewrite land_pow2_eqb, shiftr_pow2 by lia.
    set (b := Z.testbit value (Z.of_nat n)).
    assert (Hins : (if negb b then <[ndx:=false]> bs
                    else <[ndx:=true]> (<[ndx:=false]> bs)) = <[ndx:=b]> bs).
    { destruct b; simpl; [apply list_insert_insert_eq | reflexivity]. }
    rewrite Hins, IH by (rewrite length_insert; lia).
    f_equal.
    rewrite (take_S_r _ _ b) by (apply list_lookup_insert_eq; lia).
    rewrite take_insert_ge, drop_insert_lt by lia.
    rewrite <- app_assoc. simpl.
    replace (S (ndx + n))%nat with (ndx + S n)%nat by lia. reflexivity.
Qed.

Lemma addUint64_t_spec p value numBits :
  1 <= numBits <= 64 -> well_formed p ->
  bits_used p + numBits <= size p ->
  addUint64_t p value numBits = Done (appended p value numBits).
Proof.
  intros Hn [Hu Hsz] Hfit. unfold addUint64_t, size in *.
  destruct (Z.ltb_spec numBits 1); [lia|].
  destruct (Z.ltb_spec 64 numBits); [lia|]. simpl orb. cbv iota.
  rewrite Z.shiftl_1_l.
  assert (2 ^ (numBits - 1) < 2 ^ 64) by (apply Z.pow_lt_mono_r; lia).
  assert (0 < 2 ^ (numBits - 1)) by (apply Z.pow_pos_nonneg; lia).
  rewrite !to_uint64_small by lia.
  replace (numBits - 1) with (Z.of_nat (Z.to_nat numBits) - 1) by lia.
  rewrite addUint64_loop_spec by lia.
  unfold appended. rewrite Z2Nat.inj_add by lia. reflexivity.
Qed.

(** A field that does not fit behind [bits_used] takes the loop past the
    end of the storage. *)
Lemma addUint64_loop_overrun value n : forall mask (ndx : nat) bs,
  (length bs < ndx + S n)%nat ->
  addUint64_loop value (S n) mask ndx bs = None.
Proof.
  induction n as [|n IH]; intros mask ndx bs Hlen.
  - cbn [addUint64_loop].
    destruct (decide (ndx < length bs)%nat); [lia | reflexivity].
  - remember (S n) as m eqn:Hm. cbn [addUint64_loop].
    destruct (decide (ndx < length bs)%nat); [|reflexivity].
    subst m. apply IH.
    destruct (Z.land value mask =? 0); rewrite ?length_insert; lia.
Qed.

Lemma addUint64_t_overrun p value numBits :
  1 <= numBits <= 64 -> 0 <= bits_used p < 2 ^ 63 ->
  size p < bits_used p + numBits ->
  addUint64_t p value numBits = Wild.
Proof.
  intros Hn Hu Hsize. unfold addUint64_t, size in *.
  destruct (Z.ltb_spec numBits 1); [lia|].
  destruct (Z.ltb_spec 64 numBits); [lia|]. simpl orb. cbv iota.
  rewrite (to_uint64_small (bits_used p)) by lia.
  replace (Z.to_nat numBits) with (S (Z.to_nat (numBits - 1))) by lia.
  rewrite addUint64_loop_overrun by lia. reflexivity.
Qed.

Lemma appended_size p value numBits :
  0 <= numBits -> 0 <= bits_used p -> bits_used p + numBits <= size p ->
  size (appended p value numBits) = size p.
Proof.
  intros Hn Hu Hfit. unfold appended, size in *. simpl.
  rewrite !length_app, length_take, to_bits_length, length_drop. lia.
Qed.

Lemma appended_well_formed p value numBits :
  0 <= numBits -> well_formed p -> bits_used p + numBits <= size p ->
  well_formed (appended p value numBits).
Proof.
  intros Hn [Hu Hsz] Hfit. unfold well_formed.
  rewrite appended_size by lia. simpl. lia.
Qed.

Lemma appended_field p value numBits :
  0 <= numBits -> 0 <= bits_used p -> bits_used p + numBits <= size p ->
  field (appended p value numBits) (bits_used p) numBits
  = to_bits (Z.to_nat numBits) value.
Proof.
  intros Hn Hu Hfit. unfold field, appended, size in *. simpl.
  rewrite drop_app_length' by (rewrite length_take; lia).
  rewrite take_app_length' by (rewrite to_bits_length; lia).
  reflexivity.
Qed.

Lemma appended_bits p value numBits :
  bits (appended p value numBits)
  = take (Z.to_nat (bits_used p)) (bits p)
    ++ to_bits (Z.to_nat numBits) value
    ++ drop (Z.to_nat (bits_used p + numBits)) (bits p).
Proof. reflexivity. Qed.

Lemma appended_bits_used p value numBits :
  bits_used (appended p value numBits) = bits_used p + numBits.
Proof. reflexivity. Qed.

(** ** Runs of appends *)

Lemma values_bits_length width vals :
  length (values_bits width vals) = (Z.to_nat width * length vals)%nat.
Proof.
  unfold values_bits. induction vals as [|v vals IH]; [simpl; lia|].
  cbn [map concat]. rewrite length_app, to_bits_length, IH.
  cbn [length]. lia.
Qed.

Lemma appended_all_cons p width v vals :
  appended_all p width (v :: vals)
  = appended_all (appended p v width) width vals.
Proof. reflexivity. Qed.



Lemma appended_all_layout width vals : forall p,
  0 <= width -> well_formed p ->
  bits_used p + width * Z.of_nat (length vals) <= size p ->
  bits_used (appended_all p width vals)
  = bits_used p + width * Z.of_nat (length vals)
  /\ bits (appended_all p width vals)
     = take (Z.to_nat (bits_used p)) (bits p)
       ++ values_bits width vals
       ++ drop (Z.to_nat (bits_used p + width * Z.of_nat (length vals)))
            (bits p).
Proof.
  induction vals as [|v vals IH]; intros p Hw Hwf Hfit.
  - simpl. rewrite Z.mul_0_r, Z.add_0_r, take_drop.
    split; [lia | reflexivity].
  - cbn [length] in *. rewrite Nat2Z.inj_succ in *.
    pose proof Hwf as [Hu Hsz].
    assert (Hwf' : well_formed (appended p v width))
      by (apply appended_well_formed; (assumption || nia)).
    assert (Hsize : size (appended p v width) = size p)
      by (apply appended_size; nia).
    destruct (IH (appended p v width) Hw Hwf') as [Hbu Hbits].
    { rewrite Hsize, appended_bits_used. nia. }
    rewrite appended_all_cons.
    rewrite appended_bits_used in Hbu, Hbits. rewrite appended_bits in Hbits.
    split; [rewrite Hbu; lia|].
    rewrite Hbits. unfold size in *.
    change (values_bits width (v :: vals))
      with (to_bits (Z.to_nat width) v ++ values_bits width vals).
    set (bu := Z.to_nat (bits_used p)).
    set (w := Z.to_nat width).
    replace (Z.to_nat (bits_used p + width)) with (bu + w)%nat by lia.
    replace (Z.to_nat (bits_used p + width + width * Z.of_nat (length vals)))
      with (bu + w + w * length vals)%nat by nia.
    replace (Z.to_nat (bits_used p + width * Z.succ (Z.of_nat (length vals))))
      with (bu + w + w * length vals)%nat by nia.
    assert (Hbu' : length (take bu (bits p)) = bu)
      by (rewrite length_take; nia).
    set (A := take bu (bits p)) in *. set (B := to_bits w v).
    set (D := drop (bu + w) (bits p)).
    assert (HAB : length (A ++ B) = (bu + w)%nat)
      by (rewrite length_app, Hbu'; subst B; rewrite to_bits_length;
          reflexivity).
    rewrite (app_assoc A B D).
    rewrite (take_app_length' (A ++ B) D) by (symmetry; exact HAB).
    rewrite (drop_app_ge (A ++ B) D) by lia.
    rewrite HAB. subst D. rewrite drop_drop.
    replace (bu + w + (bu + w + w * length vals - (bu + w)))%nat
      with (bu + w + w * length vals)%nat by lia.
    rewrite <- !app_assoc. reflexivity.
Qed.

(** ** Unsigned fields *)

Lemma addUnsignedLong_unfold p value numBits scale test :
  0 <= value < 2 ^ 64 -> 1 <= scale < 2 ^ 31 ->
  pow2_minus_1 numBits = Some test ->
  addUnsignedLong p value numBits scale
  = if test <? value / scale
    then Raised (InvalidParameter
                   "Scaled value too large for specifed bit length") p
    else addUint64_t p (value / scale) numBits.
Proof.
  intros Hv Hs Ht. unfold addUnsignedLong.
  rewrite !to_uint64_small by lia.
  destruct (Z.eqb_spec scale 0); [lia|]. rewrite Ht. reflexivity.
Qed.

(** X1: up to 53 bits the test of [addUnsignedLong] is the one its message
    describes: on a buffer with room for the field it throws
    [InvalidParameter], leaving the buffer as it was, exactly when the
    scaled value [value / scale] is above [2 ^ numBits - 1]. *)
Theorem addUnsignedLong_rejects_iff p value numBits scale :
  0 <= value < 2 ^ 64 -> 1 <= scale < 2 ^ 31 -> 1 <= numBits <= 53 ->
  well_formed p -> bits_used p + numBits <= size p ->
  addUnsignedLong p value numBits scale
  = Raised (InvalidParameter
              "Scaled value too large for specifed bit length") p
  <-> 2 ^ numBits - 1 < value / scale.
Proof.
  intros Hv Hs Hn Hwf Hfit.
  rewrite (addUnsignedLong_unfold p value numBits scale (2 ^ numBits - 1))
    by (try lia; rewrite <- (Z2Nat.id numBits) by lia;
        apply pow2_minus_1_exact; lia).
  destruct (Z.ltb_spec (2 ^ numBits - 1) (value / scale)) as [Hlt|Hge].
  - split; [intros _; exact Hlt | reflexivity].
  - rewrite addUint64_t_spec by (try assumption; lia).
    split; [discriminate | lia].
Qed.

(** From 54 to 63 bits the limit is [2 ^ numBits] itself, and the value
    [2 ^ numBits] is let through. *)
Lemma addUnsignedLong_accepts_pow2 p numBits :
  54 <= numBits <= 63 -> well_formed p -> bits_used p + numBits <= size p ->
  addUnsignedLong p (2 ^ numBits) numBits 1
  = Done (appended p (2 ^ numBits) numBits).
Proof.
  intros Hn Hwf Hfit.
  assert (2 ^ numBits < 2 ^ 64) by (apply Z.pow_lt_mono_r; lia).
  assert (0 < 2 ^ numBits) by (apply Z.pow_pos_nonneg; lia).
  rewrite (addUnsignedLong_unfold p _ numBits 1 (2 ^ numBits))
    by (try lia; rewrite <- (Z2Nat.id numBits) at 1 by lia;
        rewrite pow2_minus_1_rounded by lia; rewrite Z2Nat.id by lia;
        reflexivity).
  rewrite Z.div_1_r, Z.ltb_irrefl.
  apply addUint64_t_spec; [lia | assumption | assumption].
Qed.

(** C3, as the code has it: [addUnsignedLong] divides by the scale with
    the remainder dropped, so for a width of 1 to 63 bits, a scale of at
    least 1 and a value whose quotient fits the width, [asUnsignedLong] at
    the position of the append gives back [scale * (value / scale)]: the
    value itself when the scale divides it (always for scale 1), and
    otherwise the multiple of the scale below it, less than one scale
    away. *)
Theorem unsigned_round_trip p value numBits scale :
  1 <= numBits <= 63 -> 1 <= scale < 2 ^ 31 -> 0 <= value < 2 ^ 64 ->
  value / scale <= 2 ^ numBits - 1 ->
  well_formed p -> bits_used p + numBits <= size p ->
  exists p',
    addUnsignedLong p value numBits scale = Done p'
    /\ bits_used p' = bits_used p + numBits
    /\ asUnsignedLong p' (bits_used p) numBits scale
       = Val (scale * (value / scale))
    /\ value - scale < scale * (value / scale) <= value
    /\ (value mod scale = 0 -> scale * (value / scale) = value)
    /\ (scale = 1 -> scale * (value / scale) = value).
Proof.
  intros Hn Hs Hv Hrep Hwf Hfit.
  pose proof Hwf as [Hu Hsz].
  destruct (pow2_minus_1_admits numBits) as (test & Htest & Hle); [lia|].
  assert (Hq : 0 <= value / scale) by (apply Z.div_pos; lia).
  pose proof (Z.div_mod value scale) as Hdm.
  pose proof (Z.mod_pos_bound value scale) as Hmod.
  exists (appended p (value / scale) numBits).
  split.
  { rewrite (addUnsignedLong_unfold p _ _ _ test) by (assumption || lia).
    destruct (Z.ltb_spec test (value / scale)); [lia|].
    apply addUint64_t_spec; [lia | assumption | assumption]. }
  split; [reflexivity|].
  split.
  { unfold asUnsignedLong.
    rewrite asUint64_t_in_range
      by (rewrite ?appended_size by lia; lia).
    fold (field (appended p (value / scale) numBits) (bits_used p) numBits).
    rewrite appended_field, value_of_to_bits, Z2Nat.id by lia.
    simpl. unfold mret, result_ret. f_equal.
    rewrite Z.mod_small by lia.
    rewrite (to_uint64_small scale) by lia.
    rewrite to_uint64_small by nia. ring. }
  split; [nia|]. split; [intros Hz; nia|].
  intros ->. rewrite Z.div_1_r. ring.
Qed.

End Packing.

(** X1 on four bits: 16 is refused and 15 is not. *)
Lemma addUnsignedLong_rejects_iff_witness :
  (0 <= 16 < 2 ^ 64 /\ 1 <= 1 < 2 ^ 31 /\ 1 <= 4 <= 53
   /\ well_formed fresh /\ bits_used fresh + 4 <= size fresh)
  /\ addUnsignedLong fresh 16 4 1
     = Raised (InvalidParameter
                 "Scaled value too large for specifed bit length") fresh
  /\ addUnsignedLong fresh 15 4 1
     <> Raised (InvalidParameter
                  "Scaled value too large for specifed bit length") fresh.
Proof.
  assert (Hwf : well_formed fresh) by (vm_compute; intuition congruence).
  assert (Hfit : bits_used fresh + 4 <= size fresh)
    by (vm_compute; congruence).
  split;
    [split; [lia|]; split; [lia|]; split; [lia|];
     split; [exact Hwf | exact Hfit]|].
  split.
  - apply (addUnsignedLong_rejects_iff fresh 16 4 1);
      try lia; try assumption. vm_compute. reflexivity.
  - intros Hraised.
    apply (addUnsignedLong_rejects_iff fresh 15 4 1) in Hraised;
      try lia; try assumption. vm_compute in Hraised. discriminate.
Defined.

(** C2: with 54 bits the limit that [addUnsignedLong] computes in floating
    point is [2 ^ 54], not [2 ^ 54 - 1]; the value [2 ^ 54] is not refused,
    54 zero bits are appended, and the field reads back as 0. *)
Theorem addUnsignedLong_accepts_2_pow_54 :
  pow2_minus_1 54 = Some (2 ^ 54)
  /\ addUnsignedLong fresh (2 ^ 54) 54 1 = Done (with_bits_used fresh 54)
  /\ asUnsignedLong (with_bits_used fresh 54) 0 54 1 = Val 0.
Proof. repeat split; vm_compute; reflexivity. Qed.

(** C3: 5 packed with scale 3 in 4 bits is stored as 1 and unpacked as 3,
    two away from 5 and so more than half the scale. *)
Lemma unsigned_round_trip_truncates :
  addUnsignedLong fresh 5 4 3 = Done (appended fresh 1 4)
  /\ asUnsignedLong (appended fresh 1 4) 0 4 3 = Val 3
  /\ ~ (2 * Z.abs (3 - 5) <= 3).
Proof. repeat split; vm_compute; congruence. Qed.

(** C3 on 5 in four bits with scale 1: stored as [0101], read back as 5. *)
Lemma unsigned_round_trip_witness :
  (1 <= 4 <= 63 /\ 1 <= 1 < 2 ^ 31 /\ 0 <= 5 < 2 ^ 64
   /\ 5 / 1 <= 2 ^ 4 - 1 /\ well_formed fresh
   /\ bits_used fresh + 4 <= size fresh)
  /\ addUnsignedLong fresh 5 4 1 = Done (appended fresh 5 4)
  /\ field (appended fresh 5 4) 0 4 = [false; true; false; true]
  /\ asUnsignedLong (appended fresh 5 4) 0 4 1 = Val 5.
Proof.
  assert (Hwf : well_formed fresh) by (vm_compute; intuition congruence).
  split; [repeat split; try lia; vm_compute; congruence|].
  destruct (unsigned_round_trip fresh 5 4 1)
    as (p' & Hdone & _ & Hback & _);
    [lia | lia | lia | vm_compute; congruence | exact Hwf
     | vm_compute; congruence |].
  assert (Hp : p' = appended fresh 5 4)
    by (assert (Hrun : addUnsignedLong fresh 5 4 1
                       = Done (appended fresh 5 4)) by reflexivity;
        congruence).
  subst p'. split; [exact Hdone|]. split; [reflexivity | exact Hback].
Defined.

Section Ordering.

Context `{Collaborators}.

Implicit Types p right : PackedNavBits.
Implicit Types l r : list bool.

(** ** The scan of [operator<] *)

Lemma less_scan_shift x y l r n : forall i,
  less_scan (x :: l) (y :: r) (S i) n = less_scan l r i n.
Proof.
  induction n as [|n IH]; intros i; [reflexivity|].
  cbn [less_scan]. rewrite IH. reflexivity.
Qed.

Lemma less_scan_lex l : forall r,
  length l = length r -> less_scan l r 0 (length l) = lex_less l r.
Proof.
  induction l as [|x l IH]; intros [|y r] Hlen; try discriminate.
  - reflexivity.
  - simpl length. cbn [less_scan lex_less]. simpl lookup.
    rewrite less_scan_shift, IH by (simpl in Hlen; lia).
    destruct x, y; reflexivity.
Qed.

Lemma lex_less_value l : forall r,
  length l = length r -> lex_less l r = (value_of l <? value_of r).
Proof.
  induction l as [|x l IH]; intros [|y r] Hlen; try discriminate.
  - reflexivity.
  - injection Hlen as Hlen. simpl value_of. cbn [lex_less].
    pose proof (value_of_bounds l) as Hl.
    pose proof (value_of_bounds r) as Hr.
    rewrite <- Hlen in *. rewrite (IH r Hlen).
    destruct x, y; simpl Z.b2z;
      destruct (Z.ltb_spec (value_of l) (value_of r));
      symmetry; (apply Z.ltb_lt || apply Z.ltb_ge); lia.
Qed.

Lemma value_of_inj l : forall r,
  length l = length r -> value_of l = value_of r -> l = r.
Proof.
  induction l as [|x l IH]; intros [|y r] Hlen Hv; try discriminate.
  - reflexivity.
  - injection Hlen as Hlen. simpl value_of in Hv.
    pose proof (value_of_bounds l) as Hl.
    pose proof (value_of_bounds r) as Hr.
    rewrite <- Hlen in *.
    assert (x = y) as -> by (destruct x, y; simpl Z.b2z in Hv; try reflexivity; lia).
    f_equal. apply IH; [exact Hlen | lia].
Qed.

Lemma lex_less_first_difference l : forall r,
  length l = length r ->
  lex_less l r = true
  <-> exists i : nat,
        l !! i = Some false /\ r !! i = Some true /\ take i l = take i r.
Proof.
  induction l as [|x l IH]; intros [|y r] Hlen; try discriminate.
  - split; [discriminate | intros (i & Hi & _); discriminate].
  - injection Hlen as Hlen. cbn [lex_less]. split.
    + intros Hless.
      destruct x, y; try discriminate.
      * apply (IH r Hlen) in Hless as (i & Hl & Hr & Ht).
        exists (S i). simpl. rewrite Ht. auto.
      * exists O. auto.
      * apply (IH r Hlen) in Hless as (i & Hl & Hr & Ht).
        exists (S i). simpl. rewrite Ht. auto.
    + intros (i & Hl & Hr & Ht). destruct i as [|i].
      * simpl in Hl, Hr. injection Hl as ->. injection Hr as ->. reflexivity.
      * simpl in Hl, Hr, Ht. injection Ht as -> Ht.
        assert (lex_less l r = true) as ->
          by (apply (IH r Hlen); exists i; auto).
        destruct y; reflexivity.
Qed.

(** [operator<] orders by storage size first and by the number the bits
    spell second. *)
Lemma operator_lt_key p right :
  operator_lt p right = true
  <-> size p < size right
      \/ (size p = size right
          /\ value_of (bits p) < value_of (bits right)).
Proof.
  unfold operator_lt.
  destruct (Z.eqb_spec (size p) (size right)) as [Heq|Hne]; simpl negb; cbv iota.
  - assert (Hlen : length (bits p) = length (bits right))
      by (unfold size in Heq; lia).
    rewrite less_scan_lex, lex_less_value by exact Hlen.
    rewrite Z.ltb_lt. lia.
  - destruct (Z.ltb_spec (size p) (size right)); split; intros; try lia;
      try discriminate; reflexivity.
Qed.

Lemma operator_lt_false p right :
  operator_lt p right = false
  <-> ~ (size p < size right
         \/ (size p = size right
             /\ value_of (bits p) < value_of (bits right))).
Proof.
  rewrite <- operator_lt_key.
  destruct (operator_lt p right); intuition congruence.
Qed.

Lemma operator_lt_equivalent p right :
  operator_lt p right = false -> operator_lt right p = false ->
  bits p = bits right.
Proof.
  rewrite !operator_lt_false. intros H1 H2.
  assert (Hsz : size p = size right) by lia.
  apply value_of_inj; [unfold size in Hsz; lia | lia].
Qed.

(** C4, as the code has it: [operator<] is a strict weak order that looks
    at the storage, not at [bits_used].  It has no reflexive pair, is
    transitive, and being unordered either way is transitive; the buffer
    with fewer cells of storage is the lesser one whatever the bits; with
    equally many cells, the lesser one is the one with [false] against
    [true] at the first cell where the two differ; and two buffers are
    unordered either way exactly when their cells are the same. *)
Theorem operator_lt_strict_weak_order :
  (forall a : PackedNavBits, operator_lt a a = false)
  /\ (forall a b c : PackedNavBits,
        operator_lt a b = true -> operator_lt b c = true ->
        operator_lt a c = true)
  /\ (forall a b c : PackedNavBits,
        operator_lt a b = false -> operator_lt b a = false ->
        operator_lt b c = false -> operator_lt c b = false ->
        operator_lt a c = false /\ operator_lt c a = false)
  /\ (forall a b : PackedNavBits,
        size a < size b ->
        operator_lt a b = true /\ operator_lt b a = false)
  /\ (forall a b : PackedNavBits,
        size a = size b ->
        (operator_lt a b = true
         <-> exists i : nat,
               bits a !! i = Some false /\ bits b !! i = Some true
               /\ take i (bits a) = take i (bits b)))
  /\ (forall a b : PackedNavBits,
        bits a = bits b
        <-> operator_lt a b = false /\ operator_lt b a = false).
Proof.
  repeat apply conj.
  - intros a. apply operator_lt_false. lia.
  - intros a b c. rewrite !operator_lt_key. lia.
  - intros a b c Hab Hba Hbc Hcb.
    pose proof (operator_lt_equivalent a b Hab Hba) as Ha.
    pose proof (operator_lt_equivalent b c Hbc Hcb) as Hb.
    rewrite !operator_lt_false. unfold size. rewrite Ha, Hb. lia.
  - intros a b Hlt. rewrite operator_lt_key, operator_lt_false. lia.
  - intros a b Hsz.
    assert (Hlen : length (bits a) = length (bits b))
      by (unfold size in Hsz; lia).
    rewrite <- (lex_less_first_difference _ _ Hlen).
    unfold operator_lt. rewrite Hsz, Z.eqb_refl. simpl negb. cbv iota.
    rewrite less_scan_lex by exact Hlen. reflexivity.
  - intros a b. split.
    + intros Heq. rewrite !operator_lt_false. unfold size. rewrite Heq. lia.
    + intros [Hab Hba]. apply operator_lt_equivalent; assumption.
Qed.

(** X2: between two buffers whose storage holds exactly their bits in use
    (after [trimsize], a copy or a text import) the one with fewer bits in
    use is the lesser; with equally many bits in use, the lesser one is
    the one whose bits in use spell the smaller number. *)
Theorem operator_lt_trimmed (a b : PackedNavBits) :
  size a = bits_used a -> size b = bits_used b ->
  (bits_used a < bits_used b ->
   operator_lt a b = true /\ operator_lt b a = false)
  /\ (bits_used a = bits_used b ->
      operator_lt a b = true
      <-> value_of (field a 0 (bits_used a))
          < value_of (field b 0 (bits_used b))).
Proof.
  intros Ha Hb. split.
  - intros Hlt. rewrite operator_lt_key, operator_lt_false. lia.
  - intros Heq. rewrite operator_lt_key. unfold field.
    change (Z.to_nat 0) with O. rewrite !drop_0.
    rewrite !take_ge by (unfold size in *; lia). lia.
Qed.

End Ordering.

(** C4: one bit [1] appended to a new buffer against two bits [00]
    appended to another: the first has fewer bits in use and is not the
    lesser one. *)
Lemma operator_lt_ignores_bits_used :
  addUint64_t fresh 1 1 = Done (appended fresh 1 1)
  /\ addUint64_t fresh 0 2 = Done (appended fresh 0 2)
  /\ bits_used (appended fresh 1 1) < bits_used (appended fresh 0 2)
  /\ operator_lt (appended fresh 1 1) (appended fresh 0 2) = false
  /\ operator_lt (appended fresh 0 2) (appended fresh 1 1) = true.
Proof. repeat split; vm_compute; reflexivity. Qed.

(** X2 on the texts ["1 0x80000000"] and ["2 0x00000000"] once imported:
    one bit [1] is less than two bits [00]. *)
Lemma operator_lt_trimmed_witness :
  (size (imported fresh 1 [0x80000000])
   = bits_used (imported fresh 1 [0x80000000])
   /\ size (imported fresh 2 [0])
      = bits_used (imported fresh 2 [0]))
  /\ operator_lt (imported fresh 1 [0x80000000]) (imported fresh 2 [0]) = true
  /\ operator_lt (imported fresh 2 [0]) (imported fresh 1 [0x80000000])
     = false.
Proof.
  split; [split; reflexivity|].
  apply (operator_lt_trimmed (imported fresh 1 [0x80000000])
           (imported fresh 2 [0])); [reflexivity | reflexivity |].
  vm_compute. reflexivity.
Defined.

Section Copying.

Context `{Collaborators}.

Implicit Types p right : PackedNavBits.

(** ** The copy loop *)

Lemma copy_loop_spec src off n : forall i dst,
  0 <= i -> 0 <= off -> i + off + Z.of_nat n < 2 ^ 64 ->
  (Z.to_nat i + n <= length src)%nat ->
  (Z.to_nat (i + off) + n <= length dst)%nat ->
  copy_loop src off i n dst
  = Some (take (Z.to_nat (i + off)) dst
          ++ take n (drop (Z.to_nat i) src)
          ++ drop (Z.to_nat (i + off) + n) dst).
Proof.
  induction n as [|n IH]; intros i dst Hi Hoff Hmax Hsrc Hdst.
  - simpl. rewrite Nat.add_0_r, take_drop. reflexivity.
  - cbn [copy_loop].
    destruct (lookup_lt_is_Some_2 src (Z.to_nat i)) as [b Hb]; [lia|].
    rewrite Hb, to_uint64_small by lia.
    destruct (decide (Z.to_nat (i + off) < length dst)%nat); [|lia].
    rewrite IH by (rewrite ?length_insert; lia).
    f_equal.
    replace (Z.to_nat (i + 1 + off)) with (S (Z.to_nat (i + off))) by lia.
    replace (Z.to_nat (i + 1)) with (S (Z.to_nat i)) by lia.
    rewrite (take_S_r _ _ b) by (apply list_lookup_insert_eq; lia).
    rewrite take_insert_ge, drop_insert_lt by lia.
    rewrite (drop_S _ _ _ Hb). rewrite <- app_assoc. simpl.
    replace (S (Z.to_nat (i + off) + n))%nat
      with (Z.to_nat (i + off) + S n)%nat by lia.
    reflexivity.
Qed.

Lemma bits_resize_spec p n :
  0 <= n < 2 ^ 63 ->
  bits_resize p n = Done (with_bits p (resize (Z.to_nat n) false (bits p))).
Proof.
  intros Hn. unfold bits_resize. rewrite to_uint64_small by lia.
  destruct (Z.leb_spec (2 ^ 63) n); [lia | reflexivity].
Qed.

(** ** The copy constructor *)

Lemma clone_spec p : well_formed p -> clone p = Done (cloned p).
Proof.
  intros [Hu Hsz]. unfold clone, PackedNavBits_copy, size in *.
  rewrite bits_resize_spec by (simpl; lia).
  cbn [ebind with_bits bits bits_used satSys obsID navID rxID transmitTime
       parityStatus xMitCoerced].
  rewrite resize_nil, copy_loop_spec
    by (rewrite ?length_replicate; lia).
  change (Z.to_nat (0 + 0)) with O. change (Z.to_nat 0) with O.
  rewrite take_0, drop_0. simpl app.
  rewrite drop_ge, app_nil_r by (rewrite length_replicate; lia).
  reflexivity.
Qed.

Lemma cloned_size p : well_formed p -> size (cloned p) = bits_used p.
Proof.
  intros [Hu Hsz]. unfold size, cloned in *. simpl.
  rewrite length_take. lia.
Qed.

Lemma matchBits_sizes_differ p right startBit endBit :
  size p <> size right -> matchBits p right startBit endBit = Val false.
Proof.
  intros Hne. unfold matchBits.
  destruct (Z.eqb_spec (size p) (size right)); [contradiction | reflexivity].
Qed.

Lemma operator_eq_sizes_differ p right :
  size p <> size right -> operator_eq p right = Val false.
Proof.
  intros Hne. unfold operator_eq, match_.
  rewrite matchBits_sizes_differ by exact Hne.
  destruct (matchMetaData p right mmALL); reflexivity.
Qed.

(** C9: the copy constructor copies the metadata, [bits_used] and the bits
    in use, into a storage of exactly [bits_used] cells; [matchBits] and
    with it [operator==] answer [false] as soon as the storage sizes
    differ, so a buffer whose storage is larger than its bits in use is
    not equal to its own copy, in either order. *)
Theorem clone_not_equal p :
  well_formed p ->
  clone p = Done (cloned p)
  /\ satSys (cloned p) = satSys p /\ obsID (cloned p) = obsID p
  /\ navID (cloned p) = navID p /\ rxID (cloned p) = rxID p
  /\ transmitTime (cloned p) = transmitTime p
  /\ parityStatus (cloned p) = parityStatus p
  /\ bits_used (cloned p) = bits_used p
  /\ field (cloned p) 0 (bits_used p) = field p 0 (bits_used p)
  /\ size (cloned p) = bits_used p
  /\ (size p <> bits_used p ->
      (forall startBit endBit,
         matchBits p (cloned p) startBit endBit = Val false)
      /\ operator_eq p (cloned p) = Val false
      /\ operator_eq (cloned p) p = Val false).
Proof.
  intros Hwf. pose proof (cloned_size p Hwf) as Hsize.
  split; [apply clone_spec; exact Hwf|].
  do 7 (split; [reflexivity|]).
  split.
  { unfold field, cloned. simpl. rewrite !drop_0, take_take, Nat.min_id.
    reflexivity. }
  split; [exact Hsize|].
  intros Hne. repeat split.
  - intros. apply matchBits_sizes_differ. congruence.
  - apply operator_eq_sizes_differ. congruence.
  - apply operator_eq_sizes_differ. congruence.
Qed.

(** ** Appending a buffer *)

(** C5, as the code has it: [addPackedNavBits] has no capacity check and
    never throws on buffers that satisfy the storage invariant.  It
    resizes the storage to the combined number of bits in use and copies
    the bits in use of [right] behind those of [p]: [bits_used] grows by
    [right]'s, the storage holds exactly the two runs of bits one after
    the other, and the metadata stays. *)
Theorem addPackedNavBits_appends p right :
  well_formed p -> well_formed right ->
  bits_used p + bits_used right < 2 ^ 31 ->
  addPackedNavBits p right = Done (concatenated p right)
  /\ bits_used (concatenated p right) = bits_used p + bits_used right
  /\ bits (concatenated p right)
     = field p 0 (bits_used p) ++ field right 0 (bits_used right)
  /\ size (concatenated p right) = bits_used p + bits_used right
  /\ satSys (concatenated p right) = satSys p
  /\ obsID (concatenated p right) = obsID p
  /\ navID (concatenated p right) = navID p
  /\ rxID (concatenated p right) = rxID p
  /\ transmitTime (concatenated p right) = transmitTime p
  /\ parityStatus (concatenated p right) = parityStatus p.
Proof.
  intros [Hu Hsz] [Hur Hszr] Hsum. unfold size in *.
  split.
  { unfold addPackedNavBits.
    rewrite bits_resize_spec by (simpl; lia).
    cbn [ebind with_bits with_bits_used bits bits_used].
    rewrite copy_loop_spec
      by (rewrite ?length_resize; lia).
    unfold concatenated, field, with_bits, with_bits_used. simpl.
    do 2 f_equal.
    change (Z.to_nat 0) with O. rewrite Z.add_0_l, !drop_0.
    rewrite (drop_ge (resize _ _ _)) by (rewrite length_resize; lia).
    rewrite app_nil_r, take_resize_le, resize_le by lia.
    reflexivity. }
  split; [reflexivity|]. split; [reflexivity|].
  split.
  { unfold concatenated, field, size. simpl.
    change (Z.to_nat 0) with O. rewrite !drop_0.
    rewrite length_app, !length_take. lia. }
  repeat split; reflexivity.
Qed.

End Copying.

(** C5: a buffer with all 900 bits in use takes one more bit from another
    buffer: no exception, and 901 bits in use afterwards. *)
Lemma addPackedNavBits_exceeds_900 :
  900 < bits_used (reset_num_bits fresh 900) + bits_used (appended fresh 1 1)
  /\ addPackedNavBits (reset_num_bits fresh 900) (appended fresh 1 1)
     = Done (concatenated (reset_num_bits fresh 900) (appended fresh 1 1))
  /\ bits_used (concatenated (reset_num_bits fresh 900) (appended fresh 1 1))
     = 901
  /\ size (concatenated (reset_num_bits fresh 900) (appended fresh 1 1))
     = 901.
Proof. repeat split; vm_compute; reflexivity. Qed.

(** C5 on the four bits [0101] followed by the one bit [1]. *)
Lemma addPackedNavBits_appends_witness :
  (well_formed (appended fresh 5 4) /\ well_formed (appended fresh 1 1)
   /\ bits_used (appended fresh 5 4) + bits_used (appended fresh 1 1)
      < 2 ^ 31)
  /\ addPackedNavBits (appended fresh 5 4) (appended fresh 1 1)
     = Done (concatenated (appended fresh 5 4) (appended fresh 1 1))
  /\ bits_used (concatenated (appended fresh 5 4) (appended fresh 1 1)) = 5
  /\ bits (concatenated (appended fresh 5 4) (appended fresh 1 1))
     = [false; true; false; true; true].
Proof.
  assert (Hwf1 : well_formed (appended fresh 5 4))
    by (vm_compute; intuition congruence).
  assert (Hwf2 : well_formed (appended fresh 1 1))
    by (vm_compute; intuition congruence).
  split; [repeat split; try assumption; vm_compute; congruence|].
  destruct (addPackedNavBits_appends (appended fresh 5 4)
              (appended fresh 1 1))
    as (Hdone & Hbu & Hbits & _);
    [exact Hwf1 | exact Hwf2 | vm_compute; congruence |].
  split; [exact Hdone|].
  split; [rewrite Hbu | rewrite Hbits]; reflexivity.
Defined.

(** C9 on a new buffer: 900 cells, none in use, and a copy without
    cells. *)
Lemma clone_not_equal_witness :
  well_formed fresh
  /\ clone fresh = Done (cloned fresh)
  /\ size fresh = 900 /\ size (cloned fresh) = 0
  /\ operator_eq fresh (cloned fresh) = Val false
  /\ operator_eq (cloned fresh) fresh = Val false.
Proof.
  assert (Hwf : well_formed fresh) by (vm_compute; intuition congruence).
  split; [exact Hwf|].
  destruct (clone_not_equal fresh Hwf)
    as (Hdone & _ & _ & _ & _ & _ & _ & _ & _ & Hsize & Hne).
  split; [exact Hdone|]. split; [reflexivity|].
  split; [rewrite Hsize; reflexivity|].
  destruct Hne as (_ & Heq1 & Heq2); [vm_compute; congruence|].
  split; assumption.
Defined.

Section SplitFields.

Context `{Collaborators}.

Implicit Types p : PackedNavBits.

(** ** Two's complement *)

Lemma to_int64_congr x y k :
  x = y + k * 2 ^ 64 -> - 2 ^ 63 <= y < 2 ^ 63 -> to_int64 x = y.
Proof.
  intros -> Hy. unfold to_int64.
  replace (y + k * 2 ^ 64 + 2 ^ 63) with (y + 2 ^ 63 + k * 2 ^ 64) by ring.
  rewrite Z_mod_plus_full, Z.mod_small by lia. lia.
Qed.

Lemma to_int64_decomp z : exists k, to_int64 z = z + k * 2 ^ 64.
Proof.
  exists (- ((z + 2 ^ 63) / 2 ^ 64)). unfold to_int64.
  pose proof (Z.div_mod (z + 2 ^ 63) (2 ^ 64)) as Hdm. lia.
Qed.

Lemma to_int64_range z : - 2 ^ 63 <= to_int64 z < 2 ^ 63.
Proof.
  unfold to_int64. pose proof (Z.mod_pos_bound (z + 2 ^ 63) (2 ^ 64)). lia.
Qed.

Lemma signed_value_bounds l :
  l <> [] ->
  - 2 ^ (Z.of_nat (length l) - 1) <= signed_value l
  < 2 ^ (Z.of_nat (length l) - 1).
Proof.
  destruct l as [|b l]; [congruence|]. intros _.
  pose proof (value_of_bounds l) as Hb.
  unfold signed_value. simpl length. simpl value_of.
  replace (Z.of_nat (S (length l)) - 1) with (Z.of_nat (length l)) by lia.
  rewrite Nat2Z.inj_succ, Z.pow_succ_r by lia.
  destruct b; simpl Z.b2z; lia.
Qed.

Lemma signed_value_congr l :
  exists k, (k = 0 \/ k = -1)
            /\ signed_value l = value_of l + k * 2 ^ Z.of_nat (length l).
Proof.
  destruct l as [|[] l]; unfold signed_value.
  - exists 0. split; [auto | lia].
  - exists (-1). split; [auto | lia].
  - exists 0. split; [auto | lia].
Qed.

Lemma signed_value_app l m :
  l <> [] ->
  signed_value (l ++ m)
  = signed_value l * 2 ^ Z.of_nat (length m) + value_of m.
Proof.
  destruct l as [|b l]; [congruence|]. intros _.
  unfold signed_value. rewrite <- app_comm_cons.
  rewrite (app_comm_cons l m b), value_of_app, length_app, Nat2Z.inj_add,
    Z.pow_add_r by lia.
  destruct b; ring.
Qed.

Lemma lor_shiftl_add s n raw :
  0 <= n -> 0 <= raw < 2 ^ n -> Z.lor (Z.shiftl s n) raw = s * 2 ^ n + raw.
Proof.
  intros Hn Hraw.
  assert (Hland : Z.land (Z.shiftl s n) raw = 0).
  { apply Z.bits_inj'. intros m Hm.
    rewrite Z.land_spec, Z.bits_0.
    destruct (Z.lt_ge_cases m n) as [Hlt|Hge].
    - rewrite Z.shiftl_spec_low by lia. reflexivity.
    - rewrite <- (Z.mod_small raw (2 ^ n)) by lia.
      rewrite Z.mod_pow2_bits_high by lia. apply andb_false_r. }
  rewrite <- Z.lxor_lor, <- Z.add_nocarry_lxor by exact Hland.
  rewrite Z.shiftl_mul_pow2 by lia. reflexivity.
Qed.

(** The two shifts of [SignExtend] on an unsigned field of [n] bits. *)
Lemma sign_extension l :
  (1 <= length l <= 64)%nat ->
  let count := 64 - Z.of_nat (length l) in
  Z.shiftr (to_int64 (Z.shiftl (to_int64 (value_of l)) count)) count
  = signed_value l.
Proof.
  intros Hlen count.
  pose proof (value_of_bounds l) as Hb.
  assert (Hne : l <> []) by (intros ->; simpl in Hlen; lia).
  pose proof (signed_value_bounds l Hne) as Hs.
  destruct (signed_value_congr l) as (k & Hk & Hsv).
  destruct (to_int64_decomp (value_of l)) as (k1 & Hk1).
  assert (Hpow : 2 ^ 64 = 2 ^ Z.of_nat (length l) * 2 ^ count)
    by (rewrite <- Z.pow_add_r by lia; f_equal; lia).
  assert (Hpow' : 2 ^ 63 = 2 ^ (Z.of_nat (length l) - 1) * 2 ^ count)
    by (rewrite <- Z.pow_add_r by lia; f_equal; lia).
  assert (Hc : 0 < 2 ^ count) by (apply Z.pow_pos_nonneg; lia).
  rewrite Z.shiftl_mul_pow2, Hk1 by lia.
  rewrite (to_int64_congr _ (signed_value l * 2 ^ count)
             (k1 * 2 ^ count - k)) by nia.
  rewrite Z.shiftr_div_pow2, Z.div_mul by lia. reflexivity.
Qed.

Lemma SignExtend_in_range p startBit numBits :
  0 <= startBit < 2 ^ 63 -> 1 <= numBits <= 64 ->
  startBit + numBits <= size p ->
  SignExtend p startBit numBits
  = Val (signed_value (field p startBit numBits)).
Proof.
  intros Hs Hn Hfit. unfold SignExtend.
  rewrite asUint64_t_in_range by lia. simpl.
  destruct (Z.ltb_spec (64 - numBits) 0); [lia|].
  destruct (Z.leb_spec 64 (64 - numBits)); [lia|]. simpl.
  fold (field p startBit numBits).
  assert (Hlen : length (field p startBit numBits) = Z.to_nat numBits).
  { unfold field, size in *.
    rewrite length_take, length_drop, Nat.min_l by lia. reflexivity. }
  pose proof (sign_extension (field p startBit numBits)) as Hse.
  rewrite Hlen, Z2Nat.id in Hse by lia.
  rewrite Hse by lia. reflexivity.
Qed.

(** ** The loop of the split unpack against its description *)

Lemma to_int_small z : 0 <= z < 2 ^ 31 -> to_int z = z.
Proof. intros Hz. unfold to_int. rewrite Z.mod_small; lia. Qed.

Lemma to_int64_mod z : to_int64 (z mod 2 ^ 64) = to_int64 z.
Proof.
  unfold to_int64. rewrite Z.add_mod_idemp_l by lia. reflexivity.
Qed.

Lemma to_uint64_to_int64 z : to_uint64 (to_int64 z) = z mod 2 ^ 64.
Proof.
  destruct (to_int64_decomp z) as [k Hk].
  rewrite (to_uint64_congr _ z k Hk). reflexivity.
Qed.

Lemma lor_mod_l a t : Z.lor (a mod 2 ^ 64) t mod 2 ^ 64 = Z.lor a t mod 2 ^ 64.
Proof.
  rewrite <- !Z.land_ones by lia.
  rewrite !Z.land_lor_distr_l, <- Z.land_assoc, Z.land_diag.
  reflexivity.
Qed.

(** [s <<= n; s |= temp;] on an [int64_t] is the shift and OR of the
    description, wrapped once. *)
Lemma shift_or_step s n temp :
  to_int64 (Z.lor (to_uint64 (to_int64 (Z.shiftl s n))) temp)
  = to_int64 (Z.lor (Z.shiftl s n) temp).
Proof.
  rewrite to_uint64_to_int64.
  rewrite <- (to_int64_mod (Z.lor (_ mod _) _)), lor_mod_l, to_int64_mod.
  reflexivity.
Qed.

Lemma fold_concat_range_Exc p rest e :
  fold_left (concat_range p) rest (Exc e) = Exc e.
Proof. induction rest as [|r rest IH]; [reflexivity | exact IH]. Qed.

Lemma fold_concat_range_Undef p rest :
  fold_left (concat_range p) rest Undef = Undef.
Proof. induction rest as [|r rest IH]; [reflexivity | exact IH]. Qed.

Lemma asLong_split_loop_fold p startBits numBits n : forall (i : nat) s,
  length startBits = length numBits ->
  (i + n = length startBits)%nat ->
  Forall (fun x => 0 <= x < 2 ^ 31) startBits ->
  Forall (fun x => 0 <= x < 2 ^ 31) numBits ->
  asLong_split_loop p startBits numBits i n s
  = fold_left (concat_range p) (drop i (zip startBits numBits)) (Val s).
Proof.
  induction n as [|n IH]; intros i s Hlen Hi Hsb Hnb.
  - rewrite drop_ge by (rewrite length_zip_with; lia). reflexivity.
  - destruct (lookup_lt_is_Some_2 startBits i) as [sb Hsbi]; [lia|].
    destruct (lookup_lt_is_Some_2 numBits i) as [nb Hnbi]; [lia|].
    assert (Hz : zip startBits numBits !! i = Some (sb, nb))
      by (rewrite lookup_zip_with, Hsbi, Hnbi; reflexivity).
    rewrite (drop_S _ _ _ Hz). cbn [asLong_split_loop fold_left].
    rewrite Hsbi, Hnbi.
    pose proof (Forall_lookup_1 _ _ _ _ Hsb Hsbi) as Hsbr.
    pose proof (Forall_lookup_1 _ _ _ _ Hnb Hnbi) as Hnbr.
    simpl in Hsbr, Hnbr.
    rewrite !to_int_small by lia.
    unfold concat_range at 2. simpl.
    destruct (asUint64_t p sb nb) as [temp|e|]; simpl.
    + destruct (64 <=? nb).
      * rewrite fold_concat_range_Undef. reflexivity.
      * rewrite shift_or_step. apply IH; (assumption || lia).
    + rewrite fold_concat_range_Exc. reflexivity.
    + rewrite fold_concat_range_Undef. reflexivity.
Qed.

Lemma asLong_split_refines p startBits numBits len scale :
  1 <= len ->
  length startBits = Z.to_nat len -> length numBits = Z.to_nat len ->
  Forall (fun x => 0 <= x < 2 ^ 31) startBits ->
  Forall (fun x => 0 <= x < 2 ^ 31) numBits ->
  asLong_split p startBits numBits len scale
  = split_signed_spec p (zip startBits numBits) scale.
Proof.
  intros Hlen Hls Hln Hsb Hnb.
  destruct startBits as [|sb startBits]; [simpl in Hls; lia|].
  destruct numBits as [|nb numBits]; [simpl in Hln; lia|].
  unfold asLong_split, split_signed_spec. simpl lookup. simpl zip_with.
  cbn [fst snd].
  pose proof (Forall_inv Hsb) as Hsbr. pose proof (Forall_inv Hnb) as Hnbr.
  simpl in Hsbr, Hnbr.
  rewrite !to_int_small by lia.
  destruct (SignExtend p sb nb) as [s|e|]; simpl.
  - rewrite asLong_split_loop_fold
      by (try assumption; simpl in *; lia).
    reflexivity.
  - rewrite fold_concat_range_Exc. reflexivity.
  - rewrite fold_concat_range_Undef. reflexivity.
Qed.

(** ** The description as a concatenation of bits *)

Lemma field_length p range :
  range_in_storage p range ->
  length (field p range.1 range.2) = Z.to_nat range.2.
Proof.
  intros (Hs & Hn & Hfit). unfold field, size in *.
  rewrite length_take, length_drop, Nat.min_l by lia. reflexivity.
Qed.

Lemma fold_concat_range_fields p rest : forall l,
  l <> [] ->
  Forall (range_in_storage p) rest ->
  (length l + length (fields p rest) <= 64)%nat ->
  fold_left (concat_range p) rest (Val (signed_value l))
  = Val (signed_value (l ++ fields p rest)).
Proof.
  induction rest as [|r rest IH]; intros l Hne Hin Hlen.
  - unfold fields. simpl. rewrite app_nil_r. reflexivity.
  - apply Forall_cons in Hin as [Hr Hin].
    pose proof (field_length p r Hr) as Hfl.
    pose proof Hr as (Hs & Hn & Hfit).
    unfold fields in *. simpl concat in *. simpl map in *.
    rewrite length_app, Hfl in Hlen.
    assert (Hl : (1 <= length l)%nat)
      by (destruct l; [congruence | simpl; lia]).
    cbn [fold_left]. unfold concat_range at 2. simpl.
    rewrite asUint64_t_in_range by lia. simpl.
    destruct (Z.leb_spec 64 r.2); [lia|].
    fold (field p r.1 r.2).
    pose proof (value_of_bounds (field p r.1 r.2)) as Hb.
    rewrite Hfl, Z2Nat.id in Hb by lia.
    rewrite lor_shiftl_add by lia.
    replace (signed_value l * 2 ^ r.2 + value_of (field p r.1 r.2))
      with (signed_value (l ++ field p r.1 r.2))
      by (rewrite signed_value_app, Hfl, Z2Nat.id by (assumption || lia);
          reflexivity).
    assert (Hne' : l ++ field p r.1 r.2 <> [])
      by (destruct l; [congruence | discriminate]).
    pose proof (signed_value_bounds _ Hne') as Hsb.
    rewrite length_app, Hfl in Hsb.
    assert (2 ^ (Z.of_nat (length l + Z.to_nat r.2) - 1) <= 2 ^ 63)
      by (apply Z.pow_le_mono_r; lia).
    rewrite to_int64_small by lia.
    rewrite app_assoc. apply IH; [exact Hne' | exact Hin |].
    rewrite length_app, Hfl. lia.
Qed.

Lemma split_signed_spec_fields p ranges scale :
  ranges <> [] ->
  Forall (range_in_storage p) ranges ->
  (length (fields p ranges) <= 64)%nat ->
  split_signed_spec p ranges scale
  = if (- 2 ^ 63 <=? signed_value (fields p ranges) * scale)
       && (signed_value (fields p ranges) * scale <? 2 ^ 63)
    then Val (signed_value (fields p ranges) * scale) else Undef.
Proof.
  intros Hne Hin Hlen.
  destruct ranges as [|r rest]; [congruence|].
  apply Forall_cons in Hin as [Hr Hin].
  pose proof (field_length p r Hr) as Hfl.
  pose proof Hr as (Hs & Hn & Hfit).
  unfold split_signed_spec.
  change (fields p (r :: rest)) with (field p r.1 r.2 ++ fields p rest) in *.
  rewrite length_app, Hfl in Hlen.
  rewrite SignExtend_in_range by lia.
  rewrite fold_concat_range_fields; [reflexivity | | exact Hin | lia].
  intros Hnil. rewrite Hnil in Hfl. simpl in Hfl. lia.
Qed.

(** C6: the split signed unpack is the sign extension of the first range,
    then for each later range a left shift of the running value by the
    width of the range and an OR with its raw bits, then the product with
    the scale.  When the ranges lie in the storage and are at most 64
    bits together, the value before the scale is the two's complement
    number [v] spelled by the bits of the ranges put one after the other,
    and the result is [v * scale] whenever this product is a [long], and
    not defined otherwise; it is not the sum of the values of the
    ranges. *)
Theorem asLong_split_concatenates p startBits numBits len scale :
  1 <= len ->
  length startBits = Z.to_nat len -> length numBits = Z.to_nat len ->
  Forall (fun x => 0 <= x < 2 ^ 31) startBits ->
  Forall (fun x => 0 <= x < 2 ^ 31) numBits ->
  asLong_split p startBits numBits len scale
  = split_signed_spec p (zip startBits numBits) scale
  /\ (Forall (range_in_storage p) (zip startBits numBits) ->
      (length (fields p (zip startBits numBits)) <= 64)%nat ->
      asLong_split p startBits numBits len scale
      = (if (- 2 ^ 63
             <=? signed_value (fields p (zip startBits numBits)) * scale)
            && (signed_value (fields p (zip startBits numBits)) * scale
                <? 2 ^ 63)
         then Val (signed_value (fields p (zip startBits numBits)) * scale)
         else Undef)
      /\ (- 2 ^ 63
          <= signed_value (fields p (zip startBits numBits)) * scale
          < 2 ^ 63 ->
          asLong_split p startBits numBits len scale
          = Val (signed_value (fields p (zip startBits numBits)) * scale))).
Proof.
  intros Hlen Hls Hln Hsb Hnb.
  pose proof (asLong_split_refines p startBits numBits len scale
                Hlen Hls Hln Hsb Hnb) as Href.
  split; [exact Href|].
  intros Hin Hw.
  assert (Hcat : asLong_split p startBits numBits len scale
                 = (if (- 2 ^ 63
                        <=? signed_value (fields p (zip startBits numBits))
                            * scale)
                       && (signed_value (fields p (zip startBits numBits))
                           * scale <? 2 ^ 63)
                    then Val (signed_value
                                (fields p (zip startBits numBits)) * scale)
                    else Undef)).
  { rewrite Href.
    apply split_signed_spec_fields; [|exact Hin|exact Hw].
    destruct startBits, numBits; simpl in *; (lia || discriminate). }
  split; [exact Hcat|].
  intros Hprod. rewrite Hcat.
  destruct (Z.leb_spec (- 2 ^ 63)
              (signed_value (fields p (zip startBits numBits)) * scale));
    [|lia].
  destruct (Z.ltb_spec
              (signed_value (fields p (zip startBits numBits)) * scale)
              (2 ^ 63)); [reflexivity | lia].
Qed.

End SplitFields.

(** The bits [1101] read as the ranges [[0,2)] and [[2,4)]: the first
    range alone is -1, the second is 1, and the split unpack gives
    [-1 * 4 + 1 = -3], where a sum would give 0. *)
Lemma asLong_split_is_not_a_sum :
  bits (appended fresh 13 4) !! 0%nat = Some true
  /\ SignExtend (appended fresh 13 4) 0 2 = Val (-1)
  /\ asUint64_t (appended fresh 13 4) 2 2 = Val 1
  /\ asLong_split (appended fresh 13 4) [0; 2] [2; 2] 2 1 = Val (-3).
Proof. repeat split; vm_compute; reflexivity. Qed.

(** C6 on the same bits with a scale of 5: the ranges spell [1101], which
    is -3, and the result is -15. *)
Lemma asLong_split_concatenates_witness :
  (1 <= 2 /\ length [0; 2] = Z.to_nat 2 /\ length [2; 2] = Z.to_nat 2)
  /\ asLong_split (appended fresh 13 4) [0; 2] [2; 2] 2 5
     = split_signed_spec (appended fresh 13 4) (zip [0; 2] [2; 2]) 5
  /\ fields (appended fresh 13 4) (zip [0; 2] [2; 2])
     = [true; true; false; true]
  /\ signed_value [true; true; false; true] = -3
  /\ asLong_split (appended fresh 13 4) [0; 2] [2; 2] 2 5 = Val (-15).
Proof.
  split; [repeat split; lia|].
  destruct (asLong_split_concatenates (appended fresh 13 4)
              [0; 2] [2; 2] 2 5) as [Href Hcat];
    [lia | reflexivity | reflexivity
     | repeat constructor; lia | repeat constructor; lia |].
  destruct Hcat as [_ Hval].
  - repeat apply Forall_cons_2; try apply Forall_nil_2;
      (split; [simpl; lia | split; [simpl; lia | vm_compute; congruence]]).
  - vm_compute. lia.
  - split; [exact Href|]. split; [reflexivity|]. split; [reflexivity|].
    apply Hval. vm_compute. intuition congruence.
Defined.

Section Text.

Context `{Collaborators}.

Implicit Types p : PackedNavBits.
Implicit Types cs : list ascii.

(** ** Character fields *)





(** ** The two loops of [addString] *)







End Text.


Section TextImport.

Context `{Collaborators}.

Implicit Types p : PackedNavBits.
Implicit Types s pre tok sep trail : list ascii.

(** ** Searching a string *)

Lemma find_from_skip P a : forall s i,
  Forall (fun c => P c = false) a ->
  find_from P (a ++ s) i = find_from P s (i + Z.of_nat (length a)).
Proof.
  induction a as [|c a IH]; intros s i Ha.
  - simpl. rewrite Z.add_0_r. reflexivity.
  - apply Forall_cons in Ha as [Hc Ha]. cbn [app find_from length].
    rewrite Hc, IH by exact Ha. f_equal. lia.
Qed.

Lemma find_from_none P s i :
  Forall (fun c => P c = false) s -> find_from P s i = npos.
Proof.
  intros Hs. rewrite <- (app_nil_r s), find_from_skip by exact Hs.
  reflexivity.
Qed.

Lemma find_first_not_of_at pre a c s :
  Forall is_white a -> member whiteSpace c = false ->
  find_first_not_of (pre ++ a ++ c :: s) whiteSpace (Z.of_nat (length pre))
  = Z.of_nat (length pre) + Z.of_nat (length a).
Proof.
  intros Ha Hc. unfold find_first_not_of.
  destruct (Z.leb_spec (Z.of_nat (length (pre ++ a ++ c :: s)))
              (Z.of_nat (length pre))) as [Hle|_].
  { rewrite !length_app in Hle. simpl in Hle. lia. }
  rewrite Nat2Z.id, drop_app_length.
  rewrite find_from_skip.
  - simpl. rewrite Hc. reflexivity.
  - eapply Forall_impl; [exact Ha|]. intros x Hx. unfold is_white in Hx.
    rewrite Hx. reflexivity.
Qed.

Lemma find_first_of_at pre a c s :
  Forall (fun x => member whiteSpace x = false) a -> is_white c ->
  find_first_of (pre ++ a ++ c :: s) whiteSpace (Z.of_nat (length pre))
  = Z.of_nat (length pre) + Z.of_nat (length a).
Proof.
  intros Ha Hc. unfold find_first_of.
  destruct (Z.leb_spec (Z.of_nat (length (pre ++ a ++ c :: s)))
              (Z.of_nat (length pre))) as [Hle|_].
  { rewrite !length_app in Hle. simpl in Hle. lia. }
  rewrite Nat2Z.id, drop_app_length.
  rewrite find_from_skip by exact Ha.
  simpl. unfold is_white in Hc. rewrite Hc. reflexivity.
Qed.

Lemma find_first_of_end pre a :
  Forall (fun x => member whiteSpace x = false) a ->
  find_first_of (pre ++ a) whiteSpace (Z.of_nat (length pre)) = npos.
Proof.
  intros Ha. unfold find_first_of.
  destruct (Z.leb (Z.of_nat (length (pre ++ a))) (Z.of_nat (length pre)));
    [reflexivity|].
  rewrite Nat2Z.id, drop_app_length. apply find_from_none. exact Ha.
Qed.

Lemma substr_at pre tok s len :
  Z.of_nat (length tok) <= len ->
  (s = [] \/ len = Z.of_nat (length tok)) ->
  substr (pre ++ tok ++ s) (Z.of_nat (length pre)) len = Val tok.
Proof.
  intros Hlen Hs. unfold substr.
  destruct (Z.ltb_spec (Z.of_nat (length (pre ++ tok ++ s)))
              (Z.of_nat (length pre))) as [Hlt|_].
  { rewrite !length_app in Hlt. lia. }
  rewrite Nat2Z.id, drop_app_length. f_equal.
  destruct Hs as [->| ->].
  - rewrite app_nil_r, Z.min_r, Nat2Z.id by lia. apply take_ge. lia.
  - rewrite Z.min_l, Nat2Z.id by (rewrite length_app; lia).
    apply take_app_length.
Qed.

(** ** Tokens *)

Lemma white_cases c :
  is_white c -> c = " "%char \/ c = "009"%char \/ c = ","%char.
Proof.
  unfold is_white, member, whiteSpace. intros Hc.
  apply bool_decide_eq_true in Hc.
  rewrite !elem_of_cons, elem_of_nil in Hc. tauto.
Qed.

Lemma not_white c :
  ~ is_white c -> member whiteSpace c = false.
Proof.
  unfold is_white. destruct (member whiteSpace c); [intros []; reflexivity|].
  reflexivity.
Qed.

Lemma digit_not_white c :
  is_Some (digit_value c) -> member whiteSpace c = false.
Proof.
  intros [d Hd]. apply not_white. intros Hw.
  destruct (white_cases c Hw) as [->|[->| ->]]; vm_compute in Hd;
    discriminate.
Qed.

Lemma hex_digit_not_white c :
  is_Some (hex_digit_value c) -> member whiteSpace c = false.
Proof.
  intros [d Hd]. apply not_white. intros Hw.
  destruct (white_cases c Hw) as [->|[->| ->]]; vm_compute in Hd;
    discriminate.
Qed.

Lemma hex_digit_value_range c d : hex_digit_value c = Some d -> 0 <= d < 16.
Proof.
  unfold hex_digit_value.
  change (code "0") with 48. change (code "9") with 57.
  change (code "A") with 65. change (code "F") with 70.
  change (code "a") with 97. change (code "f") with 102.
  destruct (Z.leb_spec 48 (code c)), (Z.leb_spec (code c) 57); simpl;
    try (intros [= <-]; lia);
    destruct (Z.leb_spec 65 (code c)), (Z.leb_spec (code c) 70); simpl;
    try (intros [= <-]; lia);
    destruct (Z.leb_spec 97 (code c)), (Z.leb_spec (code c) 102); simpl;
    try (intros [= <-]; lia); discriminate.
Qed.

Lemma leading_number_hex_bound hs : forall acc,
  0 <= acc ->
  Forall (fun c => is_Some (hex_digit_value c)) hs ->
  0 <= leading_number hex_digit_value 16 hs acc
  < (acc + 1) * 16 ^ Z.of_nat (length hs).
Proof.
  induction hs as [|c hs IH]; intros acc Hacc Hhs.
  - simpl. lia.
  - apply Forall_cons in Hhs as [[d Hd] Hhs].
    pose proof (hex_digit_value_range c d Hd) as Hr.
    cbn [leading_number length]. rewrite Hd.
    rewrite Nat2Z.inj_succ, Z.pow_succ_r by lia.
    specialize (IH (16 * acc + d) ltac:(lia) Hhs).
    pose proof (Z.pow_pos_nonneg 16 (Z.of_nat (length hs))). nia.
Qed.

Lemma hex_word_facts tok :
  hex_word tok ->
  Forall (fun x => member whiteSpace x = false) tok
  /\ (take 2 tok = ["0"; "x"]%char \/ take 2 tok = ["0"; "X"]%char)
  /\ 0 <= x2uint tok < 2 ^ 32
  /\ length tok = 10%nat.
Proof.
  intros (x & hs & -> & Hx & Hlen & Hhs).
  repeat split.
  - constructor; [reflexivity|]. constructor.
    + destruct Hx as [-> | ->]; reflexivity.
    + eapply Forall_impl; [exact Hhs | exact hex_digit_not_white].
  - destruct Hx as [-> | ->]; [left | right]; reflexivity.
  - unfold x2uint. simpl drop.
    apply (leading_number_hex_bound hs 0); [lia | exact Hhs].
  - unfold x2uint. simpl drop.
    pose proof (leading_number_hex_bound hs 0 ltac:(lia) Hhs) as Hb.
    rewrite Hlen in Hb. exact (proj2 Hb).
  - simpl. rewrite Hlen. reflexivity.
Qed.

(** ** The word loop *)

Lemma words_text_cons w words :
  words_text (w :: words) = w.1 ++ w.2 ++ words_text words.
Proof. unfold words_text. simpl. rewrite app_assoc. reflexivity. Qed.

Lemma rest_starts_white words trail :
  Forall (fun w => separator w.1 /\ hex_word w.2) words ->
  trailer trail ->
  words_text words ++ trail = []
  \/ exists c t, words_text words ++ trail = c :: t /\ is_white c.
Proof.
  intros Hwords Htrail. destruct words as [|[sep tok] words].
  - exact Htrail.
  - right. apply Forall_cons in Hwords as [[[Hne Hsep] _] _].
    simpl in Hne, Hsep. destruct sep as [|c sep]; [congruence|].
    apply Forall_cons in Hsep as [Hc _].
    rewrite words_text_cons. simpl. eauto.
Qed.

Lemma pow2_minus_1_32 : pow2_minus_1 32 = Some (2 ^ 32 - 1).
Proof. reflexivity. Qed.

Lemma addUnsignedLong_word p v :
  0 <= v < 2 ^ 32 -> well_formed p -> bits_used p + 32 <= size p ->
  addUnsignedLong p v 32 1 = Done (appended p v 32).
Proof.
  intros Hv Hwf Hfit.
  rewrite (addUnsignedLong_unfold p v 32 1 _ ltac:(lia) ltac:(lia)
             pow2_minus_1_32).
  rewrite Z.div_1_r.
  destruct (Z.ltb_spec (2 ^ 32 - 1) v); [lia|].
  apply addUint64_t_spec; (assumption || lia).
Qed.

Lemma rawBitInput_words_spec N words : forall pre trail end_ k p,
  Forall (fun w => separator w.1 /\ hex_word w.2) words ->
  trailer trail ->
  Z.of_nat (length (pre ++ words_text words ++ trail)) < 2 ^ 63 ->
  (words <> [] -> end_ = Z.of_nat (length pre)) ->
  well_formed p ->
  bits_used p + 32 * Z.of_nat (length words) <= size p ->
  rawBitInput_words (pre ++ words_text words ++ trail) N (length words)
    end_ (Z.min (32 * k) N) p
  = trimsize
      (with_bits_used (appended_all p 32 (word_values words))
         (Z.min (32 * (k + Z.of_nat (length words))) N)).
Proof.
  induction words as [|[sep tok] words IH];
    intros pre trail end_ k p Hwords Htrail Hmax Hend Hwf Hfit.
  - simpl. rewrite Z.add_0_r. reflexivity.
  - apply Forall_cons in Hwords as [[[Hne Hsep] Htok] Hwords].
    simpl in Hne, Hsep, Htok.
    pose proof (rest_starts_white words trail Hwords Htrail) as Hrest.
    pose proof (hex_word_facts tok Htok) as (Hnw & Htake & Hval & Hlen).
    destruct sep as [|c0 sep]; [congruence|].
    apply Forall_cons in Hsep as [Hc0 Hsep].
    destruct tok as [|t0 tok]; [discriminate|].
    pose proof Hnw as Hnw'. apply Forall_cons in Hnw' as [Ht0 _].
    cbn [length] in Hfit. rewrite Nat2Z.inj_succ in Hfit.
    rewrite (Hend ltac:(discriminate)).
    set (text := pre ++ words_text ((c0 :: sep, t0 :: tok) :: words) ++ trail)
      in *.
    set (rest := words_text words ++ trail) in *.
    assert (Htext1 : text = (pre ++ [c0]) ++ sep ++ t0 :: (tok ++ rest)).
    { subst text rest. rewrite words_text_cons. simpl.
      rewrite <- !app_assoc. simpl. rewrite <- !app_assoc. reflexivity. }
    assert (Htext2 : text = (pre ++ c0 :: sep) ++ (t0 :: tok) ++ rest).
    { subst text rest. rewrite words_text_cons. simpl.
      rewrite <- !app_assoc. simpl. rewrite <- !app_assoc. reflexivity. }
    assert (Htext3 : text = (pre ++ (c0 :: sep) ++ t0 :: tok) ++ rest).
    { rewrite Htext2. rewrite <- !app_assoc. reflexivity. }
    assert (Hlt : Z.of_nat (length text) < 2 ^ 63) by exact Hmax.
    pose proof Hlt as Hlt'. rewrite Htext2, !length_app in Hlt'.
    cbn [length] in Hlt'.
    set (begin := Z.of_nat (length (pre ++ c0 :: sep))).
    assert (Hbegin : find_first_not_of text whiteSpace
                       (to_uint64 (Z.of_nat (length pre) + 1)) = begin).
    { rewrite to_uint64_small by lia.
      replace (Z.of_nat (length pre) + 1)
        with (Z.of_nat (length (pre ++ [c0])))
        by (rewrite length_app; simpl; lia).
      rewrite Htext1, find_first_not_of_at by assumption.
      subst begin. rewrite !length_app. simpl. lia. }
    change (length ((c0 :: sep, t0 :: tok) :: words)) with (S (length words)).
    cbn [rawBitInput_words]. cbv zeta. rewrite Hbegin.
    assert (Hbegin_lt : begin < 2 ^ 63)
      by (subst begin; rewrite length_app; cbn [length]; lia).
    destruct (Z.eqb_spec begin npos) as [Heq|_];
      [unfold npos in Heq; lia|].
    set (end' := find_first_of text whiteSpace begin).
    assert (Hend' : (rest = [] /\ end' = npos)
                    \/ (rest <> []
                        /\ end' = begin + Z.of_nat (length (t0 :: tok)))).
    { destruct Hrest as [Hnil | (c & t & Hcons & Hc)].
      - left. split; [exact Hnil|]. subst end' begin.
        rewrite Htext2, Hnil, app_nil_r. apply find_first_of_end. exact Hnw.
      - right. split; [rewrite Hcons; discriminate|]. subst end' begin.
        rewrite Htext2, Hcons. apply find_first_of_at; assumption. }
    assert (Hsub : substr text begin (to_uint64 (end' - begin))
                   = Val (t0 :: tok)).
    { subst begin. rewrite Htext2. apply substr_at.
      - destruct Hend' as [[_ ->] | [_ ->]];
          rewrite to_uint64_small; unfold npos; lia.
      - destruct Hend' as [[Hnil _] | [_ ->]]; [left; exact Hnil | right].
        rewrite to_uint64_small by lia. lia. }
    rewrite Hsub.
    assert (Hprefix : negb (bool_decide (take 2 (t0 :: tok) = ["0"; "x"]%char))
                      && negb (bool_decide
                                 (take 2 (t0 :: tok) = ["0"; "X"]%char))
                      = false).
    { destruct Htake as [-> | ->]; reflexivity. }
    rewrite Hprefix.
    rewrite addUnsignedLong_word by (assumption || lia).
    cbn [ebind].
    replace (Z.min (32 * k) N
             + (if 32 <? N - Z.min (32 * k) N then 32
                else N - Z.min (32 * k) N))
      with (Z.min (32 * (k + 1)) N)
      by (destruct (Z.ltb_spec 32 (N - Z.min (32 * k) N)); lia).
    pose proof Hwf as [Hu Hsz].
    rewrite Htext3. unfold rest.
    rewrite (IH (pre ++ (c0 :: sep) ++ t0 :: tok) trail end' (k + 1)
               (appended p (x2uint (t0 :: tok)) 32)).
    + cbn [length word_values map]. rewrite appended_all_cons.
      do 3 f_equal. lia.
    + exact Hwords.
    + exact Htrail.
    + fold rest. rewrite <- Htext3. exact Hlt.
    + intros Hwn. destruct Hend' as [[Hnil _] | [_ ->]].
      * exfalso. destruct words as [|[sep' tok'] words']; [congruence|].
        subst rest. rewrite words_text_cons in Hnil.
        apply Forall_cons in Hwords as [[[Hne' _] _] _]. simpl in *.
        destruct sep'; [congruence | discriminate].
      * subst begin. rewrite !length_app. cbn [length]. lia.
    + apply appended_well_formed; (assumption || lia).
    + rewrite appended_size, appended_bits_used by lia. lia.
Qed.

(** ** [rawBitInput] *)

Lemma appended_all_frame width vals : forall p,
  appended_all p width vals
  = with_bits_used
      (with_bits p (bits (appended_all p width vals)))
      (bits_used (appended_all p width vals)).
Proof.
  induction vals as [|v vals IH]; intros p.
  - destruct p. reflexivity.
  - rewrite appended_all_cons, IH at 1. reflexivity.
Qed.

(** X25: on a newly constructed buffer (no bit in use, 900 cells), for a
    text made of a decimal count [N] with
    [1 <= N <= 896] and of [(N - 1) / 32 + 1] words [0x] + eight
    hexadecimal digits, each behind a separator, [rawBitInput] appends
    the values of the words, 32 bits each and most significant bit
    first, and leaves exactly the first [N] of these bits: [bits_used]
    and the size of the storage are [N]. *)
Theorem rawBitInput_imports p ds words trail :
  bits_used p = 0 -> size p = 900 ->
  decimal_count ds ->
  Forall (fun w => separator w.1 /\ hex_word w.2) words ->
  trailer trail ->
  1 <= asInt ds <= 896 ->
  Z.of_nat (length words) = (asInt ds - 1) / 32 + 1 ->
  Z.of_nat (length (interchange_text ds words trail)) < 2 ^ 63 ->
  rawBitInput p (interchange_text ds words trail)
  = Done (imported p (asInt ds) (word_values words))
  /\ bits_used (imported p (asInt ds) (word_values words)) = asInt ds
  /\ size (imported p (asInt ds) (word_values words)) = asInt ds
  /\ bits (imported p (asInt ds) (word_values words))
     = take (Z.to_nat (asInt ds)) (values_bits 32 (word_values words)).
Proof.
  intros Hbu Hsize [Hdne Hds] Hwords Htrail HN Hcount Hmax.
  set (N := asInt ds) in *.
  assert (Hdiv : 32 * ((N - 1) / 32) <= N - 1 < 32 * ((N - 1) / 32) + 32).
  { pose proof (Z.div_mod (N - 1) 32 ltac:(lia)) as Hdm.
    pose proof (Z.mod_pos_bound (N - 1) 32 ltac:(lia)). lia. }
  assert (Hvl : length (values_bits 32 (word_values words))
                = (32 * length words)%nat).
  { rewrite values_bits_length. unfold word_values. rewrite length_map.
    reflexivity. }
  assert (Hwf : well_formed p) by (unfold well_formed; lia).
  split.
  2: { unfold imported, size. simpl. rewrite length_take. repeat split. lia. }
  destruct ds as [|d0 ds]; [congruence|].
  pose proof Hds as Hds0. apply Forall_cons in Hds0 as [Hd0 _].
  destruct words as [|[sep tok] words]; [simpl in Hcount; lia|].
  pose proof Hwords as Hw0. apply Forall_cons in Hw0 as [[[Hsne Hsep] _] _].
  simpl in Hsne, Hsep. destruct sep as [|c0 sep]; [congruence|].
  apply Forall_cons in Hsep as [Hc0 _].
  set (text := interchange_text (d0 :: ds)
                 ((c0 :: sep, tok) :: words) trail) in *.
  set (tail := sep ++ tok ++ words_text words ++ trail).
  assert (Htext0 : text = [] ++ [] ++ d0 :: (ds ++ c0 :: tail)).
  { subst text tail. unfold interchange_text.
    rewrite words_text_cons. simpl. rewrite <- !app_assoc. reflexivity. }
  assert (Htext1 : text = [] ++ (d0 :: ds) ++ c0 :: tail).
  { rewrite Htext0. reflexivity. }
  assert (Htext2 : text = [] ++ (d0 :: ds) ++ (c0 :: tail)).
  { rewrite Htext0. reflexivity. }
  assert (Hb : find_first_not_of text whiteSpace 0 = 0).
  { rewrite Htext0.
    apply (find_first_not_of_at [] [] d0); [constructor|].
    apply digit_not_white. exact Hd0. }
  assert (He : find_first_of text whiteSpace 0
               = Z.of_nat (length (d0 :: ds))).
  { rewrite Htext1.
    refine (find_first_of_at [] (d0 :: ds) c0 tail _ Hc0).
    eapply Forall_impl; [exact Hds | exact digit_not_white]. }
  assert (Hs : substr text 0 (Z.of_nat (length (d0 :: ds)))
               = Val (d0 :: ds)).
  { rewrite Htext2. apply (substr_at [] (d0 :: ds)); [lia | right; reflexivity]. }
  unfold rawBitInput. rewrite Hb. cbv zeta.
  change (0 =? npos) with false. cbv iota. rewrite He.
  pose proof Hmax as Hmax'. rewrite Htext1, !length_app in Hmax'.
  destruct (Z.eqb_spec (Z.of_nat (length (d0 :: ds))) npos) as [Heq|_];
    [unfold npos in Heq; lia|].
  rewrite Hs. fold N.
  rewrite Z.quot_div_nonneg by lia.
  rewrite <- Hcount, Nat2Z.id.
  replace 0 with (Z.min (32 * 0) N) at 1 by lia.
  unfold text, interchange_text.
  rewrite rawBitInput_words_spec;
    [| exact Hwords | exact Htrail | exact Hmax | reflexivity | exact Hwf
     | rewrite Hbu, Hsize; lia].
  rewrite Z.add_0_l, Z.min_r by lia.
  unfold trimsize.
  rewrite bits_resize_spec by (cbn [with_bits_used bits_used]; lia).
  destruct (appended_all_layout 32 (word_values ((c0 :: sep, tok) :: words)) p)
    as [Hbu' Hbits']; [lia | exact Hwf | |].
  { unfold word_values. rewrite length_map, Hbu, Hsize. lia. }
  set (vals := word_values ((c0 :: sep, tok) :: words)) in *.
  rewrite (appended_all_frame 32 vals p), Hbits'.
  unfold imported, with_bits, with_bits_used.
  cbn [bits bits_used satSys obsID navID rxID transmitTime parityStatus
       xMitCoerced].
  do 2 f_equal. rewrite Hbu. change (Z.to_nat 0) with O.
  rewrite take_0. cbn [app].
  rewrite resize_le by (rewrite length_app; lia).
  apply take_app_le. lia.
Qed.

End TextImport.

(** X25 on the text of the description: ["32 0xABCD1234"] gives 32 bits
    in use that read back as [0xABCD1234]. *)
Lemma rawBitInput_imports_witness :
  (1 <= asInt (list_ascii_of_string "32") <= 896)
  /\ rawBitInput fresh (list_ascii_of_string "32 0xABCD1234")
     = Done (imported fresh 32 [0xABCD1234])
  /\ bits_used (imported fresh 32 [0xABCD1234]) = 32
  /\ asUint64_t (imported fresh 32 [0xABCD1234]) 0 32 = Val 0xABCD1234.
Proof.
  split; [vm_compute; intuition congruence|].
  destruct (rawBitInput_imports fresh (list_ascii_of_string "32")
              [(list_ascii_of_string " ", list_ascii_of_string "0xABCD1234")]
              [])
    as (Hdone & Hbu & _).
  - reflexivity.
  - reflexivity.
  - split; [discriminate | repeat constructor; vm_compute; eauto].
  - repeat constructor; try discriminate.
    exists "x"%char, (list_ascii_of_string "ABCD1234").
    repeat split; auto. repeat constructor; vm_compute; eauto.
  - left. reflexivity.
  - vm_compute. intuition congruence.
  - reflexivity.
  - vm_compute. reflexivity.
  - split; [exact Hdone|]. split; [exact Hbu|]. vm_compute. reflexivity.
Defined.

Section SignedFields.

Context `{Collaborators}.

Implicit Types p : PackedNavBits.

(** ** The limit of a signed field *)

Lemma pow2_minus_1_signed_exact (e : nat) :
  (e <= 53)%nat -> pow2_minus_1_signed (Z.of_nat e) = Some (2 ^ Z.of_nat e - 1).
Proof.
  intros He.
  do 54 (destruct e as [|e]; [vm_compute; reflexivity|]). lia.
Qed.

Lemma pow2_minus_1_signed_rounded (e : nat) :
  (54 <= e <= 62)%nat -> pow2_minus_1_signed (Z.of_nat e) = Some (2 ^ Z.of_nat e).
Proof.
  intros He.
  do 54 (destruct e as [|e]; [lia|]).
  do 9 (destruct e as [|e]; [vm_compute; reflexivity|]). lia.
Qed.

Lemma pow2_minus_1_signed_admits numBits :
  1 <= numBits <= 63 ->
  exists test,
    pow2_minus_1_signed (numBits - 1) = Some test
    /\ 2 ^ (numBits - 1) - 1 <= test <= 2 ^ (numBits - 1).
Proof.
  intros Hn. rewrite <- (Z2Nat.id (numBits - 1)) by lia.
  assert (0 < 2 ^ Z.of_nat (Z.to_nat (numBits - 1)))
    by (apply Z.pow_pos_nonneg; lia).
  destruct (decide (Z.to_nat (numBits - 1) <= 53)%nat).
  - eexists. split; [apply pow2_minus_1_signed_exact; lia | lia].
  - eexists. split; [apply pow2_minus_1_signed_rounded; lia | lia].
Qed.

(** ** Two's complement fields *)

Lemma to_bits_to_uint64 (n : nat) v :
  (n <= 64)%nat -> to_bits n (to_uint64 v) = to_bits n v.
Proof.
  induction n as [|n IH]; intros Hn; [reflexivity|].
  cbn [to_bits]. rewrite IH by lia. f_equal.
  unfold to_uint64. apply Z.mod_pow2_bits_low. lia.
Qed.

Lemma to_bits_congr (n m : nat) a b :
  (m <= n)%nat -> a mod 2 ^ Z.of_nat n = b mod 2 ^ Z.of_nat n ->
  to_bits m a = to_bits m b.
Proof.
  intros Hm Hab. induction m as [|m IH]; [reflexivity|].
  cbn [to_bits]. rewrite IH by lia. f_equal.
  rewrite <- (Z.mod_pow2_bits_low a (Z.of_nat n)) by lia.
  rewrite <- (Z.mod_pow2_bits_low b (Z.of_nat n)) by lia.
  rewrite Hab. reflexivity.
Qed.

Lemma signed_value_to_bits (n : nat) q :
  (1 <= n)%nat ->
  - 2 ^ (Z.of_nat n - 1) <= q < 2 ^ (Z.of_nat n - 1) ->
  signed_value (to_bits n q) = q.
Proof.
  intros Hn Hq.
  assert (Hne : to_bits n q <> [])
    by (destruct n; [lia | discriminate]).
  pose proof (signed_value_bounds _ Hne) as Hb.
  destruct (signed_value_congr (to_bits n q)) as (k & Hk & Hsv).
  rewrite to_bits_length in Hb, Hsv. rewrite value_of_to_bits in Hsv.
  assert (Hpow : 2 ^ Z.of_nat n = 2 * 2 ^ (Z.of_nat n - 1))
    by (rewrite <- Z.pow_succ_r by lia; f_equal; lia).
  assert (Hx : 0 < 2 ^ (Z.of_nat n - 1)) by (apply Z.pow_pos_nonneg; lia).
  pose proof (Z.div_mod q (2 ^ Z.of_nat n) ltac:(lia)) as Hdm.
  rewrite Hpow in *.
  set (x := 2 ^ (Z.of_nat n - 1)) in *.
  set (d := q / (2 * x)) in *. set (sv := signed_value (to_bits n q)) in *.
  assert (Hdiff : sv - q = (k - d) * (2 * x)) by lia.
  assert (Hj : k - d = 0) by nia.
  rewrite Hj in Hdiff. lia.
Qed.

Lemma quot_bounds value scale :
  scale <> 0 ->
  Z.abs (value - scale * Z.quot value scale) < Z.abs scale
  /\ Z.abs (scale * Z.quot value scale) <= Z.abs value.
Proof.
  intros Hs.
  pose proof (Z.quot_rem' value scale) as Hqr.
  pose proof (Z.rem_bound_abs value scale Hs) as Hrb.
  split; [replace (value - scale * Z.quot value scale)
            with (Z.rem value scale) by lia; exact Hrb|].
  destruct (Z.le_ge_cases 0 value) as [Hpos|Hneg].
  - pose proof (Z.mul_quot_le value scale Hpos Hs). lia.
  - pose proof (Z.mul_quot_ge value scale Hneg Hs). lia.
Qed.

Lemma addLong_unfold p value numBits scale test :
  scale <> 0 -> ~ (value = - 2 ^ 63 /\ scale = -1) ->
  pow2_minus_1_signed (numBits - 1) = Some test ->
  addLong p value numBits scale
  = if (test <? Z.quot value scale) || (Z.quot value scale <? - (test + 1))
    then Raised (InvalidParameter
                   "Scaled value too large for specifed bit length") p
    else addUint64_t p (to_uint64 (Z.quot value scale)) numBits.
Proof.
  intros Hs Hmin Ht. unfold addLong.
  destruct (Z.eqb_spec scale 0); [contradiction|].
  destruct (Z.eqb_spec value (- 2 ^ 63)), (Z.eqb_spec scale (-1));
    simpl andb; cbv iota; try (exfalso; apply Hmin; split; assumption);
    rewrite Ht; reflexivity.
Qed.

(** The field that [appended] wrote, read as a signed number. *)
Lemma SignExtend_appended p q numBits :
  1 <= numBits <= 64 ->
  - 2 ^ (numBits - 1) <= q < 2 ^ (numBits - 1) ->
  well_formed p -> bits_used p + numBits <= size p ->
  SignExtend (appended p (to_uint64 q) numBits) (bits_used p) numBits = Val q.
Proof.
  intros Hn Hq [Hu Hsz] Hfit.
  rewrite SignExtend_in_range by (rewrite ?appended_size by lia; lia).
  rewrite appended_field, to_bits_to_uint64 by lia.
  rewrite signed_value_to_bits; [reflexivity | lia |].
  rewrite Z2Nat.id by lia. exact Hq.
Qed.

(** X3: the signed round trip.  For 1 to 63 bits, a scale other than 0 and
    a value whose quotient by the scale (rounded towards zero) fits the
    width in two's complement, [addLong] appends the quotient, and
    [asLong] at the position of the append gives back
    [scale * (value quot scale)]: the value itself for scale 1, and
    otherwise a number less than one scale away from it, towards zero. *)
Theorem signed_round_trip p value numBits scale :
  1 <= numBits <= 63 ->
  scale <> 0 -> - 2 ^ 31 <= scale < 2 ^ 31 ->
  - 2 ^ 63 <= value < 2 ^ 63 ->
  - 2 ^ (numBits - 1) <= Z.quot value scale <= 2 ^ (numBits - 1) - 1 ->
  well_formed p -> bits_used p + numBits <= size p ->
  addLong p value numBits scale
  = Done (appended p (to_uint64 (Z.quot value scale)) numBits)
  /\ field (appended p (to_uint64 (Z.quot value scale)) numBits)
       (bits_used p) numBits
     = to_bits (Z.to_nat numBits) (Z.quot value scale)
  /\ asLong (appended p (to_uint64 (Z.quot value scale)) numBits)
       (bits_used p) numBits scale
     = Val (scale * Z.quot value scale)
  /\ Z.abs (value - scale * Z.quot value scale) < Z.abs scale
  /\ Z.abs (scale * Z.quot value scale) <= Z.abs value
  /\ (scale = 1 -> scale * Z.quot value scale = value).
Proof.
  intros Hn Hs Hsr Hv Hq Hwf Hfit. pose proof Hwf as [Hu Hsz].
  destruct (pow2_minus_1_signed_admits numBits Hn) as (test & Htest & Hle).
  destruct (quot_bounds value scale Hs) as [Hrem Habs].
  assert (Hpow : 2 ^ (numBits - 1) <= 2 ^ 62)
    by (apply Z.pow_le_mono_r; lia).
  split.
  { rewrite (addLong_unfold p value numBits scale test Hs) by (assumption || lia).
    destruct (Z.ltb_spec test (Z.quot value scale)); [lia|].
    destruct (Z.ltb_spec (Z.quot value scale) (- (test + 1))); [lia|].
    simpl orb. cbv iota.
    apply addUint64_t_spec; (assumption || lia). }
  split.
  { rewrite appended_field, to_bits_to_uint64 by lia. reflexivity. }
  split.
  { unfold asLong. rewrite SignExtend_appended by (assumption || lia).
    simpl. unfold mul_int64. rewrite (Z.mul_comm (Z.quot value scale)).
    destruct (Z.leb_spec (- 2 ^ 63) (scale * Z.quot value scale)); [|lia].
    destruct (Z.ltb_spec (scale * Z.quot value scale) (2 ^ 63)); [|lia].
    reflexivity. }
  split; [exact Hrem|]. split; [exact Habs|].
  intros ->. rewrite Z.quot_1_r. lia.
Qed.

(** X4: up to 54 bits the test of [addLong] is exact: on a buffer with
    room for the field it throws [InvalidParameter], leaving the buffer as
    it was, exactly when the quotient of the value by the scale is outside
    [[-2^(numBits-1), 2^(numBits-1) - 1]]. *)
Theorem addLong_rejects_iff p value numBits scale :
  1 <= numBits <= 54 ->
  scale <> 0 -> ~ (value = - 2 ^ 63 /\ scale = -1) ->
  well_formed p -> bits_used p + numBits <= size p ->
  addLong p value numBits scale
  = Raised (InvalidParameter
              "Scaled value too large for specifed bit length") p
  <-> (Z.quot value scale < - 2 ^ (numBits - 1)
       \/ 2 ^ (numBits - 1) - 1 < Z.quot value scale).
Proof.
  intros Hn Hs Hmin Hwf Hfit.
  rewrite (addLong_unfold p value numBits scale (2 ^ (numBits - 1) - 1))
    by (try assumption; rewrite <- (Z2Nat.id (numBits - 1)) by lia;
        apply pow2_minus_1_signed_exact; lia).
  destruct (Z.ltb_spec (2 ^ (numBits - 1) - 1) (Z.quot value scale));
    destruct (Z.ltb_spec (Z.quot value scale) (- (2 ^ (numBits - 1) - 1 + 1)));
    simpl orb; cbv iota; try (split; [intros _; lia | reflexivity]).
  rewrite addUint64_t_spec by (assumption || lia).
  split; [discriminate | lia].
Qed.

(** X5: from 55 to 63 bits the limit of [addLong] is one too high:
    [2^(numBits-1)], which has no place in the field, is appended as the
    bit 1 and zeros, and [asLong] reads it back as [-2^(numBits-1)]. *)
Theorem addLong_accepts_one_too_many p numBits :
  55 <= numBits <= 63 ->
  well_formed p -> bits_used p + numBits <= size p ->
  addLong p (2 ^ (numBits - 1)) numBits 1
  = Done (appended p (2 ^ (numBits - 1)) numBits)
  /\ asLong (appended p (2 ^ (numBits - 1)) numBits) (bits_used p) numBits 1
     = Val (- 2 ^ (numBits - 1)).
Proof.
  intros Hn Hwf Hfit. pose proof Hwf as [Hu Hsz].
  assert (Hpos : 0 < 2 ^ (numBits - 1)) by (apply Z.pow_pos_nonneg; lia).
  assert (Hpow : 2 ^ (numBits - 1) <= 2 ^ 62)
    by (apply Z.pow_le_mono_r; lia).
  assert (Hdouble : 2 ^ numBits = 2 * 2 ^ (numBits - 1))
    by (rewrite <- Z.pow_succ_r by lia; f_equal; lia).
  split.
  { rewrite (addLong_unfold p _ numBits 1 (2 ^ (numBits - 1)))
      by (try lia; rewrite <- (Z2Nat.id (numBits - 1)) at 1 by lia;
          rewrite pow2_minus_1_signed_rounded by lia;
          rewrite Z2Nat.id by lia; reflexivity).
    rewrite Z.quot_1_r, Z.ltb_irrefl.
    destruct (Z.ltb_spec (2 ^ (numBits - 1)) (- (2 ^ (numBits - 1) + 1)));
      [lia|].
    simpl orb. cbv iota. rewrite to_uint64_small by lia.
    apply addUint64_t_spec; (assumption || lia). }
  unfold asLong.
  rewrite SignExtend_in_range by (rewrite ?appended_size by lia; lia).
  rewrite appended_field by lia.
  assert (Hbits : to_bits (Z.to_nat numBits) (2 ^ (numBits - 1))
                  = to_bits (Z.to_nat numBits) (- 2 ^ (numBits - 1))).
  { apply (to_bits_congr (Z.to_nat numBits) (Z.to_nat numBits));
      [lia|]. rewrite Z2Nat.id by lia.
    rewrite <- (Z_mod_plus_full (- 2 ^ (numBits - 1)) 1). f_equal. lia. }
  rewrite Hbits, signed_value_to_bits by (rewrite ?Z2Nat.id by lia; lia).
  simpl. unfold mul_int64. rewrite Z.mul_1_r.
  destruct (Z.leb_spec (- 2 ^ 63) (- 2 ^ (numBits - 1))); [|lia].
  destruct (Z.ltb_spec (- 2 ^ (numBits - 1)) (2 ^ 63)); [|lia].
  reflexivity.
Qed.

End SignedFields.

(** X3 on -3 in four bits: stored as [1101], read back as -3. *)
Lemma signed_round_trip_witness :
  (1 <= 4 <= 63 /\ 1 <> 0 /\ - 2 ^ 63 <= -3 < 2 ^ 63
   /\ - 2 ^ (4 - 1) <= Z.quot (-3) 1 <= 2 ^ (4 - 1) - 1
   /\ well_formed fresh)
  /\ addLong fresh (-3) 4 1 = Done (appended fresh (to_uint64 (-3)) 4)
  /\ field (appended fresh (to_uint64 (-3)) 4) 0 4
     = [true; true; false; true]
  /\ asLong (appended fresh (to_uint64 (-3)) 4) 0 4 1 = Val (-3).
Proof.
  assert (Hwf : well_formed fresh) by (vm_compute; intuition congruence).
  split;
    [split; [lia|]; split; [lia|]; split; [lia|];
     split; [vm_compute; intuition congruence | exact Hwf]|].
  destruct (signed_round_trip fresh (-3) 4 1)
    as (Hdone & Hfield & Hback & _);
    [lia | lia | lia | lia | vm_compute; intuition congruence | exact Hwf
     | vm_compute; congruence |].
  split; [exact Hdone|]. split; [exact Hfield | exact Hback].
Defined.

(** X4 on four bits: 8 is refused, -8 is not. *)
Lemma addLong_rejects_iff_witness :
  (1 <= 4 <= 54 /\ well_formed fresh /\ bits_used fresh + 4 <= size fresh)
  /\ addLong fresh 8 4 1
     = Raised (InvalidParameter
                 "Scaled value too large for specifed bit length") fresh
  /\ addLong fresh (-8) 4 1
     <> Raised (InvalidParameter
                  "Scaled value too large for specifed bit length") fresh.
Proof.
  assert (Hwf : well_formed fresh) by (vm_compute; intuition congruence).
  assert (Hfit : bits_used fresh + 4 <= size fresh)
    by (vm_compute; congruence).
  split; [split; [lia|]; split; [exact Hwf | exact Hfit]|].
  split.
  - apply (addLong_rejects_iff fresh 8 4 1);
      try lia; try assumption. right. vm_compute. reflexivity.
  - intros Hraised.
    apply (addLong_rejects_iff fresh (-8) 4 1) in Hraised;
      try lia; try assumption.
    vm_compute in Hraised. intuition discriminate.
Defined.

(** X5 on 55 bits: [2^54] comes back as [-2^54]. *)
Lemma addLong_accepts_one_too_many_witness :
  (55 <= 55 <= 63 /\ well_formed fresh /\ bits_used fresh + 55 <= size fresh)
  /\ addLong fresh (2 ^ 54) 55 1 = Done (appended fresh (2 ^ 54) 55)
  /\ asLong (appended fresh (2 ^ 54) 55) 0 55 1 = Val (- 2 ^ 54).
Proof.
  assert (Hwf : well_formed fresh) by (vm_compute; intuition congruence).
  assert (Hfit : bits_used fresh + 55 <= size fresh)
    by (vm_compute; congruence).
  split; [split; [lia|]; split; [exact Hwf | exact Hfit]|].
  exact (addLong_accepts_one_too_many fresh 55 ltac:(lia) Hwf Hfit).
Defined.

Section Patching.

Context `{Collaborators}.

Implicit Types p : PackedNavBits.

(** ** Raw append and raw extraction together *)

Lemma field_early p value numBits startBit n :
  0 <= startBit -> 0 <= n -> 0 <= numBits ->
  startBit + n <= bits_used p -> bits_used p + numBits <= size p ->
  field (appended p value numBits) startBit n = field p startBit n.
Proof.
  intros Hs Hn Hnb Hin Hfit. unfold field, size in *.
  rewrite appended_bits.
  rewrite <- (take_drop (Z.to_nat (bits_used p)) (bits p)) at 3.
  set (A := take (Z.to_nat (bits_used p)) (bits p)).
  assert (HA : length A = Z.to_nat (bits_used p))
    by (subst A; rewrite length_take; lia).
  rewrite !drop_app_le by lia.
  rewrite !take_app_le by (rewrite length_drop; lia).
  reflexivity.
Qed.

(** X6: the raw append keeps the low [numBits] bits of the value and
    nothing else of it: on a buffer with room, [asUint64_t] at the position
    of the append returns [value mod 2^numBits], [bits_used] grows by
    [numBits], the storage keeps its size, and every field that lay in the
    bits in use before reads as before. *)
Theorem addUint64_t_then_asUint64_t p value numBits :
  1 <= numBits <= 64 -> well_formed p -> bits_used p + numBits <= size p ->
  addUint64_t p value numBits = Done (appended p value numBits)
  /\ bits_used (appended p value numBits) = bits_used p + numBits
  /\ size (appended p value numBits) = size p
  /\ asUint64_t (appended p value numBits) (bits_used p) numBits
     = Val (value mod 2 ^ numBits)
  /\ (forall startBit n,
        0 <= startBit -> 0 <= n <= 64 -> startBit + n <= bits_used p ->
        asUint64_t (appended p value numBits) startBit n
        = asUint64_t p startBit n).
Proof.
  intros Hn Hwf Hfit. pose proof Hwf as [Hu Hsz].
  assert (Hsize : size (appended p value numBits) = size p)
    by (apply appended_size; lia).
  split; [apply addUint64_t_spec; assumption|].
  split; [reflexivity|]. split; [exact Hsize|].
  split.
  - rewrite asUint64_t_in_range by lia.
    fold (field (appended p value numBits) (bits_used p) numBits).
    rewrite appended_field, value_of_to_bits, Z2Nat.id by lia.
    reflexivity.
  - intros startBit n Hs Hnn Hin.
    rewrite !asUint64_t_in_range by lia.
    fold (field (appended p value numBits) startBit n).
    fold (field p startBit n).
    rewrite field_early by lia. reflexivity.
Qed.

(** ** [insertUnsignedLong] *)

Lemma insertUnsignedLong_unfold p value startBit numBits scale test :
  startBit + numBits <= bits_used p ->
  0 <= value < 2 ^ 64 -> 1 <= scale < 2 ^ 31 ->
  1 <= numBits <= 64 -> 0 <= startBit ->
  well_formed p ->
  pow2_minus_1 numBits = Some test ->
  insertUnsignedLong p value startBit numBits scale
  = if test <? value / scale
    then Raised (InvalidParameter
                   "Scaled value too large for specifed bit length") p
    else Done (patched p (value / scale) startBit numBits).
Proof.
  intros Hin Hv Hs Hn Hsb [Hu Hsz] Ht. unfold insertUnsignedLong, size in *.
  destruct (Z.ltb_spec (bits_used p) (startBit + numBits)); [lia|].
  rewrite !(to_uint64_small value), !(to_uint64_small scale) by lia.
  destruct (Z.eqb_spec scale 0); [lia|]. rewrite Ht.
  destruct (test <? value / scale); [reflexivity|].
  destruct (Z.ltb_spec numBits 1); [lia|].
  destruct (Z.ltb_spec 64 numBits); [lia|]. simpl orb. cbv iota.
  rewrite Z.shiftl_1_l.
  assert (2 ^ (numBits - 1) < 2 ^ 64) by (apply Z.pow_lt_mono_r; lia).
  assert (0 < 2 ^ (numBits - 1)) by (apply Z.pow_pos_nonneg; lia).
  rewrite !to_uint64_small by lia.
  replace (numBits - 1) with (Z.of_nat (Z.to_nat numBits) - 1) by lia.
  rewrite addUint64_loop_spec by lia.
  unfold patched. rewrite Z2Nat.inj_add by lia. reflexivity.
Qed.

Lemma patched_size p value startBit numBits :
  0 <= startBit -> 0 <= numBits -> startBit + numBits <= size p ->
  size (patched p value startBit numBits) = size p.
Proof.
  intros Hs Hn Hfit. unfold patched, size in *. simpl.
  rewrite !length_app, length_take, to_bits_length, length_drop. lia.
Qed.

Lemma patched_field p value startBit numBits :
  0 <= startBit -> 0 <= numBits -> startBit + numBits <= size p ->
  field (patched p value startBit numBits) startBit numBits
  = to_bits (Z.to_nat numBits) value.
Proof.
  intros Hs Hn Hfit. unfold field, patched, size in *. simpl.
  rewrite drop_app_length' by (rewrite length_take; lia).
  rewrite take_app_length' by (rewrite to_bits_length; lia).
  reflexivity.
Qed.

Lemma patched_outside p value startBit numBits (i : nat) :
  0 <= startBit -> 0 <= numBits -> startBit + numBits <= size p ->
  (Z.of_nat i < startBit \/ startBit + numBits <= Z.of_nat i) ->
  bits (patched p value startBit numBits) !! i = bits p !! i.
Proof.
  intros Hs Hn Hfit Hi. unfold patched, size in *. simpl.
  assert (Hlt : length (take (Z.to_nat startBit) (bits p)) = Z.to_nat startBit)
    by (rewrite length_take; lia).
  destruct Hi as [Hbefore|Hafter].
  - rewrite lookup_app_l by lia. apply lookup_take_lt. lia.
  - rewrite lookup_app_r by lia. rewrite lookup_app_r
      by (rewrite to_bits_length; lia).
    rewrite lookup_drop, Hlt, to_bits_length. f_equal. lia.
Qed.

(** X7: [insertUnsignedLong] overwrites a field inside the bits in use.
    With [startBit + numBits] above [bits_used] it throws and changes
    nothing.  Otherwise, for 1 to 63 bits and a scaled value that fits
    them, it leaves [bits_used], the storage size and every cell outside
    [[startBit, startBit + numBits)] as they were, and [asUnsignedLong] on
    the field gives [scale * (value / scale)]. *)
Theorem insertUnsignedLong_patches p value startBit numBits scale :
  1 <= numBits <= 63 -> 0 <= startBit < 2 ^ 31 - 63 ->
  0 <= value < 2 ^ 64 -> 1 <= scale < 2 ^ 31 ->
  value / scale <= 2 ^ numBits - 1 ->
  well_formed p ->
  (bits_used p < startBit + numBits ->
   insertUnsignedLong p value startBit numBits scale
   = Raised (InvalidParameter
               "insertUnsignedLong called with startBit+numBits > bits_used.")
       p)
  /\ (startBit + numBits <= bits_used p ->
      insertUnsignedLong p value startBit numBits scale
      = Done (patched p (value / scale) startBit numBits)
      /\ bits_used (patched p (value / scale) startBit numBits)
         = bits_used p
      /\ size (patched p (value / scale) startBit numBits) = size p
      /\ (forall i : nat,
            Z.of_nat i < startBit \/ startBit + numBits <= Z.of_nat i ->
            bits (patched p (value / scale) startBit numBits) !! i
            = bits p !! i)
      /\ asUnsignedLong (patched p (value / scale) startBit numBits)
           startBit numBits scale
         = Val (scale * (value / scale))).
Proof.
  intros Hn Hsb Hv Hs Hrep Hwf. pose proof Hwf as [Hu Hsz]. split.
  - intros Hout. unfold insertUnsignedLong.
    destruct (Z.ltb_spec (bits_used p) (startBit + numBits)); [reflexivity|lia].
  - intros Hin.
    destruct (pow2_minus_1_admits numBits) as (test & Htest & Hle); [lia|].
    assert (Hq : 0 <= value / scale) by (apply Z.div_pos; lia).
    pose proof (Z.div_mod value scale ltac:(lia)) as Hdm.
    pose proof (Z.mod_pos_bound value scale ltac:(lia)) as Hmod.
    split.
    { rewrite (insertUnsignedLong_unfold p _ _ _ _ test)
        by (assumption || lia).
      destruct (Z.ltb_spec test (value / scale)); [lia | reflexivity]. }
    split; [reflexivity|].
    split; [apply patched_size; lia|].
    split; [intros i Hi; apply patched_outside; (assumption || lia)|].
    unfold asUnsignedLong.
    rewrite asUint64_t_in_range by (rewrite ?patched_size by lia; lia).
    fold (field (patched p (value / scale) startBit numBits) startBit numBits).
    rewrite patched_field, value_of_to_bits, Z2Nat.id by lia.
    simpl. unfold mret, result_ret. f_equal.
    rewrite Z.mod_small by lia.
    rewrite (to_uint64_small scale) by lia.
    rewrite to_uint64_small by nia. ring.
Qed.

End Patching.

(** X6 on 21 in four bits: [0101] is kept, the 1 above it is lost. *)
Lemma addUint64_t_then_asUint64_t_witness :
  (1 <= 4 <= 64 /\ well_formed fresh /\ bits_used fresh + 4 <= size fresh)
  /\ addUint64_t fresh 21 4 = Done (appended fresh 21 4)
  /\ asUint64_t (appended fresh 21 4) 0 4 = Val 5.
Proof.
  assert (Hwf : well_formed fresh) by (vm_compute; intuition congruence).
  assert (Hfit : bits_used fresh + 4 <= size fresh)
    by (vm_compute; congruence).
  split; [split; [lia|]; split; [exact Hwf | exact Hfit]|].
  destruct (addUint64_t_then_asUint64_t fresh 21 4 ltac:(lia) Hwf Hfit)
    as (Hdone & _ & _ & Hback & _).
  split; [exact Hdone | exact Hback].
Defined.

(** X7 on the byte [11111111] with its middle four bits set to [0000]. *)
Lemma insertUnsignedLong_patches_witness :
  (1 <= 4 <= 63 /\ 0 <= 2 < 2 ^ 31 - 63 /\ 0 <= 0 < 2 ^ 64
   /\ 1 <= 1 < 2 ^ 31
   /\ 0 / 1 <= 2 ^ 4 - 1 /\ well_formed (appended fresh 255 8))
  /\ insertUnsignedLong (appended fresh 255 8) 0 2 4 1
     = Done (patched (appended fresh 255 8) 0 2 4)
  /\ field (patched (appended fresh 255 8) 0 2 4) 0 8
     = [true; true; false; false; false; false; true; true]
  /\ insertUnsignedLong (appended fresh 255 8) 0 6 4 1
     = Raised (InvalidParameter
                 "insertUnsignedLong called with startBit+numBits > bits_used.")
         (appended fresh 255 8).
Proof.
  assert (Hwf : well_formed (appended fresh 255 8))
    by (vm_compute; intuition congruence).
  split;
    [split; [lia|]; split; [lia|]; split; [lia|]; split; [lia|];
     split; [vm_compute; congruence | exact Hwf]|].
  destruct (insertUnsignedLong_patches (appended fresh 255 8) 0 2 4 1)
    as [_ Hin]; [lia | lia | lia | lia | vm_compute; congruence | exact Hwf |].
  destruct Hin as (Hdone & _); [vm_compute; congruence|].
  destruct (insertUnsignedLong_patches (appended fresh 255 8) 0 6 4 1)
    as [Hout _]; [lia | lia | lia | lia | vm_compute; congruence | exact Hwf |].
  split; [exact Hdone|]. split; [reflexivity|].
  apply Hout. vm_compute. reflexivity.
Defined.

Section Storage.

Context `{Collaborators}.

Implicit Types p : PackedNavBits.

(** ** [invert] *)





(** ** [trimsize] and storage without room *)

Lemma trimsize_spec p : well_formed p -> trimsize p = Done (trimmed p).
Proof.
  intros [Hu Hsz]. unfold trimsize, size in *.
  rewrite bits_resize_spec by lia.
  unfold trimmed. rewrite resize_le by lia. reflexivity.
Qed.

Lemma trimmed_size p : well_formed p -> size (trimmed p) = bits_used p.
Proof.
  intros [Hu Hsz]. unfold trimmed, size in *. simpl.
  rewrite length_take. lia.
Qed.

(** X9: [trimsize] cuts the storage down to the bits in use: they and the
    metadata stay, a second [trimsize] changes nothing, and from then on
    [asUint64_t] for a start bit and a width that are not negative throws
    exactly when [startBit + numBits] exceeds [bits_used], and reads every
    field inside the bits in use as before. *)
Theorem trimsize_bounds_extraction p :
  well_formed p ->
  trimsize p = Done (trimmed p)
  /\ size (trimmed p) = bits_used p
  /\ bits_used (trimmed p) = bits_used p
  /\ field (trimmed p) 0 (bits_used p) = field p 0 (bits_used p)
  /\ trimsize (trimmed p) = Done (trimmed p)
  /\ (forall startBit numBits,
        0 <= startBit < 2 ^ 31 -> 0 <= numBits <= 64 ->
        (asUint64_t (trimmed p) startBit numBits
         = Exc (InvalidParameter "Requested bits not present.")
         <-> bits_used p < startBit + numBits)
        /\ (startBit + numBits <= bits_used p ->
            asUint64_t (trimmed p) startBit numBits
            = asUint64_t p startBit numBits)).
Proof.
  intros Hwf. pose proof Hwf as [Hu Hsz].
  pose proof (trimmed_size p Hwf) as Hsize.
  assert (Hwf' : well_formed (trimmed p))
    by (unfold well_formed; rewrite Hsize; simpl; lia).
  split; [apply trimsize_spec; exact Hwf|].
  split; [exact Hsize|]. split; [reflexivity|].
  split.
  { unfold field, trimmed. simpl. change (Z.to_nat 0) with O.
    rewrite !drop_0, take_take, Nat.min_id. reflexivity. }
  split.
  { rewrite trimsize_spec by exact Hwf'. f_equal.
    unfold trimmed. simpl. rewrite take_take, Nat.min_id. reflexivity. }
  intros startBit numBits Hs Hn. split.
  - unfold asUint64_t. rewrite (to_uint64_small (startBit + numBits)) by lia.
    rewrite Hsize.
    destruct (Z.ltb_spec (bits_used p) (startBit + numBits)) as [Hlt|Hge].
    + split; [intros _; exact Hlt | reflexivity].
    + split; [discriminate | lia].
  - intros Hin. rewrite !asUint64_t_in_range by lia. f_equal.
    unfold trimmed. simpl. unfold size in *.
    rewrite take_drop_commute, take_take, Nat.min_l by lia.
    rewrite (take_drop_commute (bits p)). reflexivity.
Qed.

(** X10: the raw append needs cells beyond [bits_used] and does not ask
    for them: when the field does not fit between [bits_used] and the end
    of the storage, [addUint64_t] writes outside the storage, whatever the
    value.  Every buffer is in this state after [trimsize], every copy
    is, and so is every buffer after [clearBits], however much room the
    buffer had before. *)
Theorem addUint64_t_without_room p value numBits :
  1 <= numBits <= 64 ->
  (0 <= bits_used p < 2 ^ 63 -> size p < bits_used p + numBits ->
   addUint64_t p value numBits = Wild)
  /\ addUint64_t (clearBits p) value numBits = Wild
  /\ (well_formed p ->
      addUint64_t (trimmed p) value numBits = Wild
      /\ addUint64_t (cloned p) value numBits = Wild
      /\ ebind (trimsize p) (fun q => addUint64_t q value numBits) = Wild
      /\ ebind (clone p) (fun q => addUint64_t q value numBits) = Wild).
Proof.
  intros Hn.
  split; [intros Hu Hsize; apply addUint64_t_overrun; assumption|].
  split.
  { apply addUint64_t_overrun; [assumption | simpl; lia |].
    unfold size. simpl. lia. }
  intros Hwf. pose proof Hwf as [Hu Hsz].
  assert (Htrim : addUint64_t (trimmed p) value numBits = Wild).
  { apply addUint64_t_overrun; [assumption | simpl; lia |].
    rewrite trimmed_size by exact Hwf. simpl. lia. }
  assert (Hcopy : addUint64_t (cloned p) value numBits = Wild).
  { apply addUint64_t_overrun; [assumption | simpl; lia |].
    rewrite cloned_size by exact Hwf. simpl. lia. }
  split; [exact Htrim|]. split; [exact Hcopy|].
  rewrite trimsize_spec, clone_spec by exact Hwf.
  split; [exact Htrim | exact Hcopy].
Qed.

End Storage.


(** X9 on the byte [10100101] in a new buffer: before [trimsize] the cells
    8 to 15 can be read, afterwards they cannot. *)
Lemma trimsize_bounds_extraction_witness :
  well_formed (appended fresh 165 8)
  /\ trimsize (appended fresh 165 8) = Done (trimmed (appended fresh 165 8))
  /\ size (trimmed (appended fresh 165 8)) = 8
  /\ asUint64_t (appended fresh 165 8) 8 8 = Val 0
  /\ asUint64_t (trimmed (appended fresh 165 8)) 8 8
     = Exc (InvalidParameter "Requested bits not present.")
  /\ asUint64_t (trimmed (appended fresh 165 8)) 0 8 = Val 165.
Proof.
  assert (Hwf : well_formed (appended fresh 165 8))
    by (vm_compute; intuition congruence).
  split; [exact Hwf|].
  destruct (trimsize_bounds_extraction (appended fresh 165 8) Hwf)
    as (Hdone & Hsize & _ & _ & _ & Hread).
  split; [exact Hdone|]. split; [rewrite Hsize; reflexivity|].
  split; [reflexivity|].
  split.
  - apply (Hread 8 8); [lia | lia | vm_compute; reflexivity].
  - destruct (Hread 0 8) as [_ Hsame]; [lia | lia |].
    rewrite Hsame by (vm_compute; congruence). reflexivity.
Defined.

(** X10 on a new buffer that holds one byte and has room for 892 more
    bits: a second byte is appended, but not after [trimsize], not to the
    copy, and not after [clearBits]; and on a new buffer with 896 bits in
    use a field of 4 bits fits and one of 5 does not. *)
Lemma addUint64_t_without_room_witness :
  (1 <= 8 <= 64 /\ well_formed (appended fresh 165 8)
   /\ bits_used (appended fresh 165 8) + 8 <= size (appended fresh 165 8))
  /\ addUint64_t (appended fresh 165 8) 1 8
     = Done (appended (appended fresh 165 8) 1 8)
  /\ ebind (trimsize (appended fresh 165 8)) (fun q => addUint64_t q 1 8)
     = Wild
  /\ ebind (clone (appended fresh 165 8)) (fun q => addUint64_t q 1 8)
     = Wild
  /\ addUint64_t (clearBits (appended fresh 165 8)) 1 8 = Wild
  /\ addUint64_t (reset_num_bits fresh 896) 1 4
     = Done (appended (reset_num_bits fresh 896) 1 4)
  /\ addUint64_t (reset_num_bits fresh 896) 1 5 = Wild.
Proof.
  assert (Hwf : well_formed (appended fresh 165 8))
    by (vm_compute; intuition congruence).
  split; [split; [lia|]; split; [exact Hwf | vm_compute; congruence]|].
  destruct (addUint64_t_without_room (appended fresh 165 8) 1 8 ltac:(lia))
    as (_ & Hclear & Hcopies).
  destruct (Hcopies Hwf) as (_ & _ & Htrim & Hclone).
  destruct (addUint64_t_without_room (reset_num_bits fresh 896) 1 5
              ltac:(lia)) as (Hshort & _).
  split; [reflexivity|]. split; [exact Htrim|]. split; [exact Hclone|].
  split; [exact Hclear|]. split; [reflexivity|].
  apply Hshort; vm_compute; intuition congruence.
Defined.

Section Comparing.

Context `{Collaborators}.

Implicit Types p right from : PackedNavBits.

(** ** [matchBits] *)

Lemma matchBits_loop_spec n : forall (l r : list bool) i,
  0 <= i -> i + Z.of_nat n < 2 ^ 64 ->
  i + Z.of_nat n <= Z.of_nat (length l) ->
  i + Z.of_nat n <= Z.of_nat (length r) ->
  matchBits_loop l r i n
  = Val (bool_decide (take n (drop (Z.to_nat i) l)
                      = take n (drop (Z.to_nat i) r))).
Proof.
  induction n as [|n IH]; intros l r i Hi Hmax Hl Hr.
  - cbn [matchBits_loop]. rewrite !take_0. reflexivity.
  - cbn [matchBits_loop]. rewrite to_uint64_small by lia.
    destruct (lookup_lt_is_Some_2 l (Z.to_nat i)) as [x Hx]; [lia|].
    destruct (lookup_lt_is_Some_2 r (Z.to_nat i)) as [y Hy]; [lia|].
    rewrite Hx, Hy, (drop_S _ _ _ Hx), (drop_S _ _ _ Hy). simpl take.
    destruct (Bool.eqb_spec x y) as [->|Hne]; simpl negb; cbv iota.
    + rewrite IH by lia.
      replace (Z.to_nat (i + 1)) with (S (Z.to_nat i)) by lia.
      f_equal. apply bool_decide_ext. split; [congruence|].
      intros Heq. injection Heq as Heq. exact Heq.
    + f_equal. symmetry. apply bool_decide_eq_false. congruence.
Qed.

Lemma to_short_small z : - 2 ^ 15 <= z < 2 ^ 15 -> to_short z = z.
Proof. intros Hz. unfold to_short. rewrite Z.mod_small; lia. Qed.

Lemma matchBits_clamped p right startBit endBit :
  size p = size right -> 1 <= size p <= 32767 ->
  matchBits p right startBit endBit
  = Val (bool_decide
           (field p (clamped_start p startBit)
              (clamped_end p endBit - clamped_start p startBit + 1)
            = field right (clamped_start p startBit)
                (clamped_end p endBit - clamped_start p startBit + 1))).
Proof.
  intros Hsame Hsize. unfold matchBits, clamped_start, clamped_end, field.
  rewrite <- Hsame, Z.eqb_refl. simpl negb. cbv iota.
  rewrite !to_short_small by lia.
  set (e := if (endBit =? -1) || (size p <=? endBit)
            then size p - 1 else endBit).
  set (s := if startBit <? 0 then 0
            else if size p <=? startBit then size p - 1 else startBit).
  assert (Hs : 0 <= s <= size p - 1).
  { subst s. destruct (Z.ltb_spec startBit 0); [lia|].
    destruct (Z.leb_spec (size p) startBit); lia. }
  assert (He : e <= size p - 1).
  { subst e. destruct (Z.eqb_spec endBit (-1)); simpl; [lia|].
    destruct (Z.leb_spec (size p) endBit); lia. }
  replace (if size p <=? (if startBit <? 0 then 0 else startBit)
           then size p - 1
           else if startBit <? 0 then 0 else startBit) with s
    by (subst s; destruct (Z.ltb_spec startBit 0);
        [destruct (Z.leb_spec (size p) 0); [lia | reflexivity]
        | reflexivity]).
  unfold size in *.
  apply matchBits_loop_spec; lia.
Qed.

(** X11: [matchBits] never fails on storages of 1 to 32767 cells.  With
    storages of different sizes the answer is [false].  With equal sizes
    a start bit below 0 counts as 0 and one past the end as the last cell,
    an end bit of -1 or past the end counts as the last cell, and the
    answer says whether the two buffers agree on every cell from the
    start to the end so clamped; a range that is empty gives [true]. *)
Theorem matchBits_compares_clamped_range p right startBit endBit :
  1 <= size p <= 32767 ->
  (size p <> size right -> matchBits p right startBit endBit = Val false)
  /\ (size p = size right ->
      matchBits p right startBit endBit
      = Val (bool_decide
               (field p (clamped_start p startBit)
                  (clamped_end p endBit - clamped_start p startBit + 1)
                = field right (clamped_start p startBit)
                    (clamped_end p endBit - clamped_start p startBit + 1)))
      /\ 0 <= clamped_start p startBit <= size p - 1
      /\ clamped_end p endBit <= size p - 1
      /\ (clamped_end p endBit < clamped_start p startBit ->
          matchBits p right startBit endBit = Val true)).
Proof.
  intros Hsize. split; [apply matchBits_sizes_differ|].
  intros Hsame.
  pose proof (matchBits_clamped p right startBit endBit Hsame Hsize) as Hm.
  split; [exact Hm|].
  assert (Hs : 0 <= clamped_start p startBit <= size p - 1).
  { unfold clamped_start. destruct (Z.ltb_spec startBit 0); [lia|].
    destruct (Z.leb_spec (size p) startBit); lia. }
  assert (He : clamped_end p endBit <= size p - 1).
  { unfold clamped_end. destruct (Z.eqb_spec endBit (-1)); simpl; [lia|].
    destruct (Z.leb_spec (size p) endBit); lia. }
  split; [exact Hs|]. split; [exact He|].
  intros Hempty. rewrite Hm. f_equal. apply bool_decide_eq_true.
  unfold field.
  replace (Z.to_nat (clamped_end p endBit - clamped_start p startBit + 1))
    with O by lia.
  rewrite !take_0. reflexivity.
Qed.

(** ** [operator==] *)

Lemma match_unfold p right startBit endBit flagBits b :
  matchBits p right startBit endBit = Val b ->
  match_ p right startBit endBit flagBits
  = Val (matchMetaData p right flagBits && b).
Proof.
  intros Hb. unfold match_. rewrite Hb.
  destruct (matchMetaData p right flagBits), b; reflexivity.
Qed.

Lemma operator_eq_spec p right :
  1 <= size p <= 32767 ->
  operator_eq p right
  = Val (matchMetaData p right mmALL && bool_decide (bits p = bits right)).
Proof.
  intros Hsize. unfold operator_eq.
  destruct (decide (size p = size right)) as [Hsame|Hdiff].
  - rewrite (match_unfold _ _ _ _ _ _
               (matchBits_clamped p right 0 (-1) Hsame Hsize)).
    do 2 f_equal. apply bool_decide_ext.
    unfold clamped_start, clamped_end, field. simpl orb. cbv iota.
    destruct (Z.ltb_spec 0 0); [lia|].
    destruct (Z.leb_spec (size p) 0); [lia|].
    change (Z.to_nat 0) with O. rewrite !drop_0.
    unfold size in *.
    rewrite !take_ge by lia. reflexivity.
  - rewrite (match_unfold _ _ _ _ _ _
               (matchBits_sizes_differ p right 0 (-1) Hdiff)).
    do 2 f_equal. symmetry. apply bool_decide_eq_false.
    intros Heq. apply Hdiff. unfold size. rewrite Heq. reflexivity.
Qed.

(** X12: on a storage of 1 to 32767 cells [operator==] answers, without
    failing, whether the metadata selected by all flags match and the two
    storages hold the same cells: cells beyond [bits_used] count, and
    [bits_used] itself does not.  So two buffers with the same metadata
    and the same bits in use are unequal when one of them is trimmed and
    the other is not, or when their unused cells differ. *)
Theorem operator_eq_compares_storage p right :
  1 <= size p <= 32767 ->
  operator_eq p right
  = Val (matchMetaData p right mmALL && bool_decide (bits p = bits right))
  /\ (operator_eq p right = Val true
      <-> matchMetaData p right mmALL = true /\ bits p = bits right)
  /\ (bits p <> bits right -> operator_eq p right = Val false).
Proof.
  intros Hsize. pose proof (operator_eq_spec p right Hsize) as Heq.
  split; [exact Heq|]. rewrite Heq. split.
  - split.
    + intros [= Hand]. apply andb_true_iff in Hand as [Hm Hb].
      apply bool_decide_eq_true in Hb. split; assumption.
    + intros [Hm Hb]. rewrite Hm. f_equal.
      apply bool_decide_eq_true. exact Hb.
  - intros Hne. f_equal.
    rewrite (bool_decide_eq_false_2 _ Hne). apply andb_false_r.
Qed.

(** X13: two storages without cells cannot be compared: [matchBits] with
    the whole-buffer range clamps both ends to -1 and reads the cell -1,
    so [operator==] is undefined as soon as the metadata match.  Two
    copies of buffers without bits in use are in this state. *)
Theorem operator_eq_on_empty_storage p right :
  size p = 0 -> size right = 0 ->
  matchBits p right 0 (-1) = Undef
  /\ operator_eq p right
     = (if matchMetaData p right mmALL then Undef else Val false).
Proof.
  intros Hp Hr.
  assert (Hm : matchBits p right 0 (-1) = Undef).
  { unfold matchBits. rewrite Hp, Hr. simpl.
    unfold size in Hp.
    destruct (bits p) as [|b l]; [reflexivity | simpl in Hp; lia]. }
  split; [exact Hm|].
  unfold operator_eq, match_. rewrite Hm.
  destruct (matchMetaData p right mmALL); reflexivity.
Qed.

(** X14: the copy constructor builds the object that [trimsize] leaves,
    and a trimmed buffer of 1 to 32767 bits is equal to its copy, in
    either order, exactly when its own metadata match themselves. *)
Theorem clone_is_trimsize p :
  well_formed p ->
  clone p = trimsize p
  /\ (1 <= bits_used p <= 32767 ->
      operator_eq (trimmed p) (cloned p) = Val (matchMetaData p p mmALL)
      /\ operator_eq (cloned p) (trimmed p) = Val (matchMetaData p p mmALL)).
Proof.
  intros Hwf. split.
  - rewrite clone_spec, trimsize_spec by exact Hwf. reflexivity.
  - intros Hbu.
    assert (Hsize : 1 <= size (trimmed p) <= 32767)
      by (rewrite trimmed_size by exact Hwf; exact Hbu).
    change (cloned p) with (trimmed p).
    rewrite operator_eq_spec by exact Hsize.
    rewrite bool_decide_eq_true_2, andb_true_r by reflexivity.
    split; reflexivity.
Qed.

End Comparing.

(** X11 on the imported bits [101] and [100]: equal on the cells 0 to 1,
    different on the whole range, and equal again on the range 5 to 1,
    which is clamped to 2 to 1 and empty. *)
Lemma matchBits_compares_clamped_range_witness :
  1 <= size (imported fresh 3 [0xA0000000]) <= 32767
  /\ matchBits (imported fresh 3 [0xA0000000])
       (imported fresh 3 [0x80000000]) 0 1 = Val true
  /\ matchBits (imported fresh 3 [0xA0000000])
       (imported fresh 3 [0x80000000]) 0 (-1) = Val false
  /\ matchBits (imported fresh 3 [0xA0000000])
       (imported fresh 3 [0x80000000]) 5 1 = Val true.
Proof.
  assert (Hsize : 1 <= size (imported fresh 3 [0xA0000000]) <= 32767)
    by (vm_compute; intuition congruence).
  split; [exact Hsize|].
  pose proof (fun s e =>
                proj2 (matchBits_compares_clamped_range
                         (imported fresh 3 [0xA0000000])
                         (imported fresh 3 [0x80000000]) s e Hsize)
                  eq_refl) as Hm.
  split; [|split].
  - rewrite (proj1 (Hm 0 1)). reflexivity.
  - rewrite (proj1 (Hm 0 (-1))). reflexivity.
  - apply (Hm 5 1). vm_compute. reflexivity.
Defined.

(** X12 on a new buffer and the same buffer trimmed after one byte. *)
Lemma operator_eq_compares_storage_witness :
  1 <= size (appended fresh 165 8) <= 32767
  /\ operator_eq (appended fresh 165 8) (appended fresh 165 8) = Val true
  /\ operator_eq (appended fresh 165 8) (trimmed (appended fresh 165 8))
     = Val false.
Proof.
  assert (Hsize : 1 <= size (appended fresh 165 8) <= 32767)
    by (vm_compute; intuition congruence).
  split; [exact Hsize|]. split.
  - apply (operator_eq_compares_storage (appended fresh 165 8)
             (appended fresh 165 8) Hsize).
    split; reflexivity.
  - apply (operator_eq_compares_storage (appended fresh 165 8)
             (trimmed (appended fresh 165 8)) Hsize).
    intros Heq. apply (f_equal length) in Heq. vm_compute in Heq.
    discriminate.
Defined.

(** X13 on two copies of a new buffer. *)
Lemma operator_eq_on_empty_storage_witness :
  (size (cloned fresh) = 0 /\ clone fresh = Done (cloned fresh))
  /\ matchMetaData (cloned fresh) (cloned fresh) (@mmALL plain) = true
  /\ operator_eq (cloned fresh) (cloned fresh) = Undef.
Proof.
  split; [split; reflexivity|]. split; [reflexivity|].
  destruct (operator_eq_on_empty_storage (cloned fresh) (cloned fresh))
    as [_ Heq]; [reflexivity | reflexivity |].
  rewrite Heq. reflexivity.
Defined.

(** X14 on one byte in a new buffer. *)
Lemma clone_is_trimsize_witness :
  (well_formed (appended fresh 165 8)
   /\ 1 <= bits_used (appended fresh 165 8) <= 32767)
  /\ clone (appended fresh 165 8) = trimsize (appended fresh 165 8)
  /\ operator_eq (trimmed (appended fresh 165 8))
       (cloned (appended fresh 165 8)) = Val true.
Proof.
  assert (Hwf : well_formed (appended fresh 165 8))
    by (vm_compute; intuition congruence).
  assert (Hbu : 1 <= bits_used (appended fresh 165 8) <= 32767)
    by (vm_compute; intuition congruence).
  split; [split; assumption|].
  destruct (clone_is_trimsize (appended fresh 165 8) Hwf) as [Hsame Heq].
  split; [exact Hsame|].
  destruct (Heq Hbu) as [Heq1 _]. rewrite Heq1. reflexivity.
Defined.

Section CopyingBits.

Context `{Collaborators}.

Implicit Types p right from : PackedNavBits.

(** ** [copyBits] *)

Lemma copyBits_loop_spec src n : forall i dst,
  0 <= i -> i + Z.of_nat n < 2 ^ 64 ->
  i + Z.of_nat n <= Z.of_nat (length src) ->
  i + Z.of_nat n <= Z.of_nat (length dst) ->
  copyBits_loop src i n dst
  = Some (take (Z.to_nat i) dst
          ++ take n (drop (Z.to_nat i) src)
          ++ drop (Z.to_nat i + n) dst).
Proof.
  induction n as [|n IH]; intros i dst Hi Hmax Hsrc Hdst.
  - simpl. rewrite Nat.add_0_r, take_drop. reflexivity.
  - cbn [copyBits_loop]. rewrite to_uint64_small by lia.
    destruct (lookup_lt_is_Some_2 src (Z.to_nat i)) as [b Hb]; [lia|].
    rewrite Hb.
    destruct (decide (Z.to_nat i < length dst)%nat); [|lia].
    rewrite IH by (rewrite ?length_insert; lia).
    f_equal.
    replace (Z.to_nat (i + 1)) with (S (Z.to_nat i)) by lia.
    rewrite (take_S_r _ _ b) by (apply list_lookup_insert_eq; lia).
    rewrite take_insert_ge, drop_insert_lt by lia.
    rewrite (drop_S _ _ _ Hb). rewrite <- app_assoc. simpl.
    replace (S (Z.to_nat i + n))%nat with (Z.to_nat i + S n)%nat by lia.
    reflexivity.
Qed.

(** X15: [copyBits] refuses two buffers whose [bits_used] differ and
    changes nothing.  With equal [bits_used] (at most 32767) it takes the
    cells from [startBit] to the final bit over from the other buffer,
    the final bit being [bits_used - 1] for an end bit of -1, and leaves
    every other cell, [bits_used] and the metadata as they were. *)
Theorem copyBits_overlays p from startBit endBit finalBit :
  0 <= startBit -> 0 <= bits_used p <= 32767 ->
  finalBit = (if endBit =? -1 then bits_used p - 1 else endBit) ->
  startBit <= finalBit + 1 ->
  finalBit < size p -> finalBit < size from -> finalBit < 32767 ->
  (bits_used p <> bits_used from ->
   copyBits p from startBit endBit
   = Raised (InvalidParameter
               "PackedNavBits::copyBits( ) may only be called on two objects with the same number of packed bits.")
       p)
  /\ (bits_used p = bits_used from ->
      copyBits p from startBit endBit
      = Done (overlaid p from startBit finalBit)
      /\ field (overlaid p from startBit finalBit) startBit
           (finalBit - startBit + 1)
         = field from startBit (finalBit - startBit + 1)
      /\ (forall i : nat,
            Z.of_nat i < startBit \/ finalBit < Z.of_nat i ->
            bits (overlaid p from startBit finalBit) !! i = bits p !! i)
      /\ bits_used (overlaid p from startBit finalBit) = bits_used p
      /\ size (overlaid p from startBit finalBit) = size p
      /\ satSys (overlaid p from startBit finalBit) = satSys p
      /\ obsID (overlaid p from startBit finalBit) = obsID p
      /\ navID (overlaid p from startBit finalBit) = navID p
      /\ transmitTime (overlaid p from startBit finalBit) = transmitTime p).
Proof.
  intros Hs Hbu Hfinal Hle Hp Hfrom Hmax.
  set (n := Z.to_nat (finalBit - startBit + 1)).
  assert (Hmid : length (take n (drop (Z.to_nat startBit) (bits from))) = n).
  { unfold size in *. rewrite length_take, length_drop. lia. }
  assert (Hpre : length (take (Z.to_nat startBit) (bits p))
                 = Z.to_nat startBit).
  { unfold size in *. rewrite length_take. lia. }
  split.
  - intros Hne. unfold copyBits.
    destruct (Z.eqb_spec (bits_used p) (bits_used from)); [contradiction|].
    reflexivity.
  - intros Heq. split.
    { unfold copyBits. rewrite Heq, Z.eqb_refl. simpl negb. cbv iota.
      rewrite <- Heq.
      replace (if endBit =? -1 then to_short (bits_used p - 1) else endBit)
        with finalBit
        by (rewrite Hfinal; destruct (endBit =? -1);
            [rewrite to_short_small by lia|]; reflexivity).
      destruct (Z.eqb_spec finalBit 32767); [lia|].
      unfold size in *.
      rewrite copyBits_loop_spec; [| lia ..].
      unfold overlaid.
      replace (Z.to_nat startBit + Z.to_nat (finalBit - startBit + 1))%nat
        with (Z.to_nat (finalBit + 1)) by lia.
      reflexivity. }
    split.
    { unfold field, overlaid. simpl. fold n.
      rewrite drop_app_length' by (symmetry; exact Hpre).
      rewrite take_app_length' by (symmetry; exact Hmid).
      reflexivity. }
    split.
    { intros i Hi. unfold overlaid. simpl. fold n.
      destruct Hi as [Hbefore|Hafter].
      - rewrite lookup_app_l by lia. apply lookup_take_lt. lia.
      - rewrite lookup_app_r by lia.
        rewrite lookup_app_r by lia.
        rewrite lookup_drop, Hpre, Hmid. f_equal. lia. }
    split; [reflexivity|].
    split.
    { unfold overlaid, size in *. simpl. fold n.
      rewrite !length_app, Hpre, Hmid, length_drop. lia. }
    repeat split; reflexivity.
Qed.

End CopyingBits.

(** X15 on the bytes [11111111] and [00000000]: the cells 2 to 5 and then,
    with the end bit -1, the cells 6 to 7 are taken over. *)
Lemma copyBits_overlays_witness :
  (0 <= 2 /\ 0 <= bits_used (appended fresh 255 8) <= 32767
   /\ 5 < size (appended fresh 255 8))
  /\ copyBits (appended fresh 255 8) (appended fresh 0 8) 2 5
     = Done (overlaid (appended fresh 255 8) (appended fresh 0 8) 2 5)
  /\ field (overlaid (appended fresh 255 8) (appended fresh 0 8) 2 5) 0 8
     = [true; true; false; false; false; false; true; true]
  /\ copyBits (appended fresh 255 8) (appended fresh 0 8) 6 (-1)
     = Done (overlaid (appended fresh 255 8) (appended fresh 0 8) 6 7)
  /\ copyBits (appended fresh 255 8) (appended fresh 0 4) 2 5
     = Raised (InvalidParameter
                 "PackedNavBits::copyBits( ) may only be called on two objects with the same number of packed bits.")
         (appended fresh 255 8).
Proof.
  split; [split; [lia|]; split; vm_compute; intuition congruence|].
  destruct (copyBits_overlays (appended fresh 255 8) (appended fresh 0 8)
              2 5 5) as [_ Hsame];
    [lia | vm_compute; intuition congruence | reflexivity | lia
     | vm_compute; reflexivity | vm_compute; reflexivity | lia |].
  destruct (Hsame eq_refl) as (Hdone & _).
  destruct (copyBits_overlays (appended fresh 255 8) (appended fresh 0 8)
              6 (-1) 7) as [_ Hsame'];
    [lia | vm_compute; intuition congruence | reflexivity | lia
     | vm_compute; reflexivity | vm_compute; reflexivity | lia |].
  destruct (Hsame' eq_refl) as (Hdone' & _).
  destruct (copyBits_overlays (appended fresh 255 8) (appended fresh 0 4)
              2 5 5) as [Hdiff _];
    [lia | vm_compute; intuition congruence | reflexivity | lia
     | vm_compute; reflexivity | vm_compute; reflexivity | lia |].
  split; [exact Hdone|]. split; [reflexivity|]. split; [exact Hdone'|].
  apply Hdiff. vm_compute. congruence.
Defined.

Section TextReading.

Context `{Collaborators}.

Implicit Types p : PackedNavBits.
Implicit Types cs : list ascii.

(** ** [asString] *)

Lemma asString_loop_reads p n : forall currentStart out,
  0 <= currentStart ->
  currentStart + 8 * Z.of_nat n < 2 ^ 31 ->
  currentStart + 8 * Z.of_nat n <= size p ->
  asString_loop p n currentStart out
  = Val (out ++ map (fun k : nat => char_at p (currentStart + 8 * Z.of_nat k))
                  (seq 0 n)).
Proof.
  induction n as [|n IH]; intros cur out Hcur Hmax Hfit.
  - simpl. rewrite app_nil_r. reflexivity.
  - cbn [asString_loop].
    rewrite asUint64_t_in_range by lia. cbn [mbind result_bind].
    destruct (Z.leb_spec (2 ^ 31) (cur + 8)); [lia|].
    rewrite IH by lia.
    rewrite <- app_assoc. cbn [seq map app]. do 3 f_equal.
    + unfold char_at, field. rewrite Z.add_0_r. reflexivity.
    + rewrite <- seq_shift, map_map. apply map_ext. intros k.
      f_equal. lia.
Qed.

Lemma asString_loop_S p n currentStart out :
  asString_loop p (S n) currentStart out
  = (temp ← asUint64_t p currentStart 8;
     if 2 ^ 31 <=? currentStart + 8 then Undef
     else asString_loop p n (currentStart + 8)
            (out ++ [ascii_of_N (Z.to_N (temp mod 256))])).
Proof. reflexivity. Qed.

Lemma asString_loop_throws p n : forall currentStart out,
  0 <= currentStart ->
  currentStart + 8 * Z.of_nat (S n) < 2 ^ 31 ->
  size p < currentStart + 8 * Z.of_nat (S n) ->
  asString_loop p (S n) currentStart out
  = Exc (InvalidParameter "Requested bits not present.").
Proof.
  induction n as [|n IH]; intros cur out Hcur Hmax Hfit;
    rewrite asString_loop_S.
  - unfold asUint64_t. rewrite to_uint64_small by lia.
    destruct (Z.ltb_spec (size p) (cur + 8)); [reflexivity | lia].
  - destruct (Z.le_gt_cases (cur + 8) (size p)) as [Hin|Hout].
    + rewrite asUint64_t_in_range by lia. cbn [mbind result_bind].
      destruct (Z.leb_spec (2 ^ 31) (cur + 8)); [lia|].
      apply IH; lia.
    + unfold asUint64_t. rewrite to_uint64_small by lia.
      destruct (Z.ltb_spec (size p) (cur + 8)); [reflexivity | lia].
Qed.

(** X16: [asString] returns one character more than it was asked for: a
    space, and behind it one character for every eight bits from
    [startBit] on, each the byte that its eight bits spell.  It throws
    [InvalidParameter] when the last of the characters would end past the
    storage, whatever [bits_used] is. *)
Theorem asString_reads_characters p startBit numChars :
  0 <= startBit -> 0 <= numChars -> startBit + 8 * numChars < 2 ^ 31 ->
  (1 <= numChars -> size p < startBit + 8 * numChars ->
   asString p startBit numChars
   = Exc (InvalidParameter "Requested bits not present."))
  /\ (startBit + 8 * numChars <= size p ->
      exists out,
        asString p startBit numChars = Val (" "%char :: out)
        /\ Z.of_nat (length out) = numChars
        /\ forall k : nat,
             Z.of_nat k < numChars ->
             out !! k = Some (char_at p (startBit + 8 * Z.of_nat k))).
Proof.
  intros Hs Hn Hmax. unfold asString. split.
  - intros Hone Hout.
    replace (Z.to_nat numChars) with (S (Z.to_nat (numChars - 1))) by lia.
    apply asString_loop_throws; lia.
  - intros Hfit.
    exists (map (fun k : nat => char_at p (startBit + 8 * Z.of_nat k))
              (seq 0 (Z.to_nat numChars))).
    split; [rewrite asString_loop_reads by lia; reflexivity|].
    split; [rewrite length_map, length_seq; lia|].
    intros k Hk. rewrite list_lookup_fmap, lookup_seq_lt by lia.
    reflexivity.
Qed.





End TextReading.

(** X16 on a new buffer of 900 cells: a character from bit 896 on would
    end at bit 904 and is refused, and two characters from bit 0 on come
    back behind a space. *)
Lemma asString_reads_characters_witness :
  (0 <= 896 /\ 0 <= 1 /\ 896 + 8 * 1 < 2 ^ 31 /\ size fresh < 896 + 8 * 1)
  /\ asString fresh 896 1
     = Exc (InvalidParameter "Requested bits not present.")
  /\ exists out,
       asString (stored fresh (list_ascii_of_string "HI")) 0 2
       = Val (" "%char :: out)
       /\ Z.of_nat (length out) = 2.
Proof.
  split; [vm_compute; intuition congruence|].
  destruct (asString_reads_characters fresh 896 1) as [Hthrow _];
    [lia | lia | lia |].
  destruct (asString_reads_characters
              (stored fresh (list_ascii_of_string "HI")) 0 2)
    as [_ Hread]; [lia | lia | lia |].
  destruct Hread as (out & Hout & Hlen & _); [vm_compute; congruence|].
  split; [apply Hthrow; [lia | vm_compute; reflexivity]|].
  exists out. split; [exact Hout | exact Hlen].
Defined.


Section SplitUnsigned.

Context `{Collaborators}.

Implicit Types p : PackedNavBits.

(** ** The split unsigned unpack *)

Lemma lor_uint64 a t :
  0 <= t < 2 ^ 64 -> Z.lor (to_uint64 a) t = to_uint64 (Z.lor a t).
Proof.
  intros Ht. unfold to_uint64.
  rewrite <- (lor_mod_l a t).
  symmetry. rewrite <- !Z.land_ones by lia.
  rewrite Z.land_lor_distr_l, <- Z.land_assoc, Z.land_diag.
  rewrite (Z.land_ones t) by lia. rewrite (Z.mod_small t) by lia.
  reflexivity.
Qed.

(** [ulong <<= n; ulong |= temp;] puts a field of [n] bits behind the
    bits read so far, modulo [2 ^ 64]. *)
Lemma unsigned_shift_or l f :
  (length f < 64)%nat ->
  Z.lor (to_uint64 (Z.shiftl (to_uint64 (value_of l)) (Z.of_nat (length f))))
    (value_of f)
  = to_uint64 (value_of (l ++ f)).
Proof.
  intros Hlen.
  pose proof (value_of_bounds f) as Hb.
  assert (2 ^ Z.of_nat (length f) <= 2 ^ 64)
    by (apply Z.pow_le_mono_r; lia).
  rewrite lor_uint64 by lia.
  rewrite lor_shiftl_add by lia.
  rewrite value_of_app.
  destruct (to_uint64_decomp (value_of l)) as [k Hk]. rewrite Hk.
  apply (to_uint64_congr _ _ (k * 2 ^ Z.of_nat (length f))). ring.
Qed.

Lemma asUnsignedLong_split_loop_spec p startBits numBits n :
  forall (i : nat) l,
    length startBits = length numBits ->
    (i + n = length startBits)%nat ->
    Forall (range_in_storage p) (zip startBits numBits) ->
    Forall (fun x => x < 64) numBits ->
    asUnsignedLong_split_loop p startBits numBits i n
      (to_uint64 (value_of l))
    = Val (to_uint64
             (value_of (l ++ fields p (drop i (zip startBits numBits))))).
Proof.
  induction n as [|n IH]; intros i l Hlen Hi Hin Hnb.
  - rewrite drop_ge by (rewrite length_zip_with; lia).
    unfold fields. simpl. rewrite app_nil_r. reflexivity.
  - destruct (lookup_lt_is_Some_2 startBits i) as [sb Hsbi]; [lia|].
    destruct (lookup_lt_is_Some_2 numBits i) as [nb Hnbi]; [lia|].
    assert (Hz : zip startBits numBits !! i = Some (sb, nb))
      by (rewrite lookup_zip_with, Hsbi, Hnbi; reflexivity).
    pose proof (Forall_lookup_1 _ _ _ _ Hin Hz) as Hr.
    pose proof (Forall_lookup_1 _ _ _ _ Hnb Hnbi) as Hlt. simpl in Hlt.
    pose proof (field_length p _ Hr) as Hfl.
    destruct Hr as (Hs & Hone & Hfit). simpl in Hs, Hone, Hfit, Hfl.
    rewrite (drop_S _ _ _ Hz).
    change (fields p ((sb, nb) :: drop (S i) (zip startBits numBits)))
      with (field p sb nb ++ fields p (drop (S i) (zip startBits numBits))).
    cbn [asUnsignedLong_split_loop]. rewrite Hsbi, Hnbi.
    rewrite !to_int_small by lia.
    rewrite asUint64_t_in_range by lia. cbn [mbind result_bind].
    destruct (Z.leb_spec 64 nb); [lia|].
    fold (field p sb nb).
    replace nb with (Z.of_nat (length (field p sb nb))) at 1
      by (rewrite Hfl; lia).
    rewrite unsigned_shift_or by (rewrite Hfl; lia).
    rewrite IH by (assumption || lia).
    rewrite app_assoc. reflexivity.
Qed.

(** X18: the split unsigned unpack reads the ranges in the order given
    and puts their bits one after the other: for ranges that lie in the
    storage and are 1 to 63 bits wide each, the result is the number
    spelled by the concatenated bits, times the scale, modulo [2 ^ 64].
    With at most 64 bits in all and a product below [2 ^ 64] nothing is
    lost. *)
Theorem asUnsignedLong_split_concatenates p startBits numBits len scale :
  1 <= len ->
  length startBits = Z.to_nat len -> length numBits = Z.to_nat len ->
  Forall (range_in_storage p) (zip startBits numBits) ->
  Forall (fun x => x < 64) numBits ->
  asUnsignedLong_split p startBits numBits len scale
  = Val (to_uint64
           (to_uint64 (value_of (fields p (zip startBits numBits)))
            * to_uint64 scale))
  /\ ((length (fields p (zip startBits numBits)) <= 64)%nat ->
      0 <= scale < 2 ^ 31 ->
      value_of (fields p (zip startBits numBits)) * scale < 2 ^ 64 ->
      asUnsignedLong_split p startBits numBits len scale
      = Val (value_of (fields p (zip startBits numBits)) * scale)).
Proof.
  intros Hlen Hls Hln Hin Hnb.
  assert (Hmain : asUnsignedLong_split p startBits numBits len scale
                  = Val (to_uint64
                           (to_uint64
                              (value_of (fields p (zip startBits numBits)))
                            * to_uint64 scale))).
  { destruct startBits as [|sb startBits]; [simpl in Hls; lia|].
    destruct numBits as [|nb numBits]; [simpl in Hln; lia|].
    pose proof (Forall_inv Hin) as Hr.
    pose proof (Forall_inv Hnb) as Hlt. simpl in Hlt.
    pose proof (field_length p _ Hr) as Hfl.
    destruct Hr as (Hs & Hone & Hfit). simpl in Hs, Hone, Hfit, Hfl.
    unfold asUnsignedLong_split. simpl lookup. cbv iota beta.
    rewrite !to_int_small by lia.
    rewrite asUint64_t_in_range by lia. cbn [mbind result_bind].
    fold (field p sb nb).
    pose proof (value_of_bounds (field p sb nb)) as Hb.
    rewrite Hfl, Z2Nat.id in Hb by lia.
    assert (2 ^ nb <= 2 ^ 64) by (apply Z.pow_le_mono_r; lia).
    rewrite <- (to_uint64_small (value_of (field p sb nb))) at 1 by lia.
    rewrite (asUnsignedLong_split_loop_spec p (sb :: startBits)
               (nb :: numBits) (Z.to_nat (len - 1)) 1 (field p sb nb))
      by (try assumption; simpl in *; lia).
    reflexivity. }
  split; [exact Hmain|].
  intros Hw Hscale Hprod. rewrite Hmain. f_equal.
  pose proof (value_of_bounds (fields p (zip startBits numBits))) as Hb.
  assert (2 ^ Z.of_nat (length (fields p (zip startBits numBits))) <= 2 ^ 64)
    by (apply Z.pow_le_mono_r; lia).
  rewrite (to_uint64_small scale), (to_uint64_small (value_of _)) by lia.
  apply to_uint64_small. nia.
Qed.

End SplitUnsigned.

(** X18 on the bits [1101] read as the ranges [[2,4)] and [[0,2)], in
    this order: they spell [0111], which is 7, and 21 with a scale of 3. *)
Lemma asUnsignedLong_split_concatenates_witness :
  (1 <= 2 /\ length [2; 0] = Z.to_nat 2 /\ length [2; 2] = Z.to_nat 2)
  /\ fields (appended fresh 13 4) (zip [2; 0] [2; 2])
     = [false; true; true; true]
  /\ asUnsignedLong_split (appended fresh 13 4) [2; 0] [2; 2] 2 3 = Val 21.
Proof.
  split; [repeat split; lia|].
  destruct (asUnsignedLong_split_concatenates (appended fresh 13 4)
              [2; 0] [2; 2] 2 3) as [_ Hcat];
    [lia | reflexivity | reflexivity
     | repeat apply Forall_cons_2; try apply Forall_nil_2;
       (split; [simpl; lia | split; [simpl; lia | vm_compute; congruence]])
     | repeat constructor; lia |].
  split; [reflexivity|].
  apply Hcat; [vm_compute; lia | lia | vm_compute; reflexivity].
Defined.

Section SignMagnitude.

Context `{Collaborators}.

Implicit Types p : PackedNavBits.

(** ** Sign and magnitude, and single cells *)

Lemma field_one_cell p startBit b :
  0 <= startBit -> bits p !! Z.to_nat startBit = Some b ->
  field p startBit 1 = [b].
Proof.
  intros Hs Hb. unfold field. rewrite (drop_S _ _ _ Hb). reflexivity.
Qed.

(** X19: [asSignMagLong] reads the first bit of the field as the sign and
    the others as the magnitude: it throws when the field ends past the
    storage, and otherwise returns the magnitude times the scale,
    negated when the first bit is set.  A set first bit over a zero
    magnitude reads as 0. *)
Theorem asSignMagLong_reads_sign_and_magnitude p startBit numBits scale :
  0 <= startBit < 2 ^ 31 - 64 -> 1 <= numBits <= 64 ->
  0 <= scale < 2 ^ 31 ->
  (size p < startBit + numBits ->
   asSignMagLong p startBit numBits scale
   = Exc (InvalidParameter "Requested bits not present."))
  /\ (startBit + numBits <= size p ->
      value_of (field p (startBit + 1) (numBits - 1)) * scale < 2 ^ 63 ->
      exists b : bool,
        bits p !! Z.to_nat startBit = Some b
        /\ asSignMagLong p startBit numBits scale
           = Val (if b return Z
                  then - (value_of (field p (startBit + 1) (numBits - 1))
                          * scale)
                  else value_of (field p (startBit + 1) (numBits - 1))
                       * scale)
        /\ (value_of (field p (startBit + 1) (numBits - 1)) = 0 ->
            asSignMagLong p startBit numBits scale = Val 0)).
Proof.
  intros Hs Hn Hscale. split.
  - intros Hout. unfold asSignMagLong, asUnsignedLong, asUint64_t.
    replace (startBit + 1 + (numBits - 1)) with (startBit + numBits) by lia.
    rewrite (to_uint64_small (startBit + numBits)) by lia.
    destruct (Z.ltb_spec (size p) (startBit + numBits)); [reflexivity | lia].
  - intros Hfit Hprod.
    destruct (lookup_lt_is_Some_2 (bits p) (Z.to_nat startBit)) as [b Hb];
      [unfold size in *; lia|].
    set (m := value_of (field p (startBit + 1) (numBits - 1))) in *.
    pose proof (value_of_bounds (field p (startBit + 1) (numBits - 1)))
      as Hm. fold m in Hm.
    assert (Hcall : asSignMagLong p startBit numBits scale
                    = Val (if b then - (m * scale) else m * scale)).
    { unfold asSignMagLong, asUnsignedLong.
      rewrite (asUint64_t_in_range p (startBit + 1)) by lia.
      cbn [mbind result_bind].
      rewrite (asUint64_t_in_range p startBit 1) by lia.
      cbn [mbind result_bind].
      fold (field p (startBit + 1) (numBits - 1)). fold m.
      fold (field p startBit 1).
      rewrite (field_one_cell p startBit b) by (lia || exact Hb).
      rewrite (to_uint64_small scale) by lia.
      rewrite to_uint64_small by nia.
      rewrite to_int64_small by nia.
      destruct b; simpl value_of.
      - change (1 * 2 ^ Z.of_nat (length (@nil bool)) + 0 =? 1) with true.
        cbv iota.
        destruct (Z.eqb_spec (m * scale) (- 2 ^ 63)); [nia|].
        f_equal. lia.
      - reflexivity. }
    exists b. split; [exact Hb|]. split; [exact Hcall|].
    intros Hzero. rewrite Hcall, Hzero. destruct b; reflexivity.
Qed.

Lemma to_bits_lookup n v : forall k : nat,
  (k < n)%nat ->
  to_bits n v !! k = Some (Z.testbit v (Z.of_nat (n - 1 - k))).
Proof.
  induction n as [|n IH]; intros k Hk; [lia|].
  destruct k as [|k]; cbn [to_bits lookup list_lookup].
  - do 2 f_equal. lia.
  - rewrite IH by lia. do 2 f_equal. lia.
Qed.

(** X20: [asBool] hands out one cell of the storage without a check: a
    bit number inside the storage gives the bit that [asUint64_t] returns
    for a width of 1, a bit number past the end has no defined result,
    where [asUint64_t] throws.  Behind a raw append of [numBits] bits, the
    cell [k] of the new field holds bit [numBits - 1 - k] of the value:
    the most significant bit comes first. *)
Theorem asBool_reads_one_cell p bitNum :
  0 <= bitNum < 2 ^ 31 - 1 ->
  (bitNum < size p ->
   exists b, asBool p bitNum = Val b
             /\ asUint64_t p bitNum 1 = Val (Z.b2z b))
  /\ (size p <= bitNum ->
      asBool p bitNum = Undef
      /\ asUint64_t p bitNum 1
         = Exc (InvalidParameter "Requested bits not present."))
  /\ (forall value numBits,
        1 <= numBits <= 64 -> well_formed p ->
        bits_used p <= bitNum < bits_used p + numBits ->
        bits_used p + numBits <= size p ->
        exists q,
          addUint64_t p value numBits = Done q
          /\ asBool q bitNum
             = Val (Z.testbit value (bits_used p + numBits - 1 - bitNum))).
Proof.
  intros Hb. split; [|split].
  - intros Hin.
    destruct (lookup_lt_is_Some_2 (bits p) (Z.to_nat bitNum)) as [b Hcell];
      [unfold size in *; lia|].
    exists b. unfold asBool. rewrite Hcell. split; [reflexivity|].
    rewrite asUint64_t_in_range by lia.
    fold (field p bitNum 1).
    rewrite (field_one_cell p bitNum b) by (lia || exact Hcell).
    destruct b; reflexivity.
  - intros Hout. split.
    + unfold asBool. rewrite lookup_ge_None_2; [reflexivity|].
      unfold size in *. lia.
    + unfold asUint64_t. rewrite to_uint64_small by lia.
      destruct (Z.ltb_spec (size p) (bitNum + 1)); [reflexivity | lia].
  - intros value numBits Hn Hwf Hk Hfit. pose proof Hwf as [Hu Hsz].
    exists (appended p value numBits).
    split; [apply addUint64_t_spec; assumption|].
    unfold asBool. rewrite appended_bits. unfold size in *.
    rewrite lookup_app_r by (rewrite length_take; lia).
    rewrite length_take, Nat.min_l by lia.
    rewrite lookup_app_l by (rewrite to_bits_length; lia).
    rewrite to_bits_lookup by lia.
    do 2 f_equal. lia.
Qed.

End SignMagnitude.

(** X19 on the bits [1011] and [1000]: sign and magnitude give -3 and 0,
    where two's complement gives -5 and -8. *)
Lemma asSignMagLong_reads_sign_and_magnitude_witness :
  (0 <= 0 < 2 ^ 31 - 64 /\ 1 <= 4 <= 64 /\ 0 <= 1 < 2 ^ 31
   /\ 0 + 4 <= size (appended fresh 11 4))
  /\ asSignMagLong (appended fresh 11 4) 0 4 1 = Val (-3)
  /\ asLong (appended fresh 11 4) 0 4 1 = Val (-5)
  /\ asSignMagLong (appended fresh 8 4) 0 4 1 = Val 0
  /\ asLong (appended fresh 8 4) 0 4 1 = Val (-8)
  /\ asSignMagLong (appended fresh 11 4) 897 4 1
     = Exc (InvalidParameter "Requested bits not present.").
Proof.
  split; [split; [lia|]; split; [lia|]; split; [lia|];
          vm_compute; congruence|].
  destruct (asSignMagLong_reads_sign_and_magnitude
              (appended fresh 11 4) 0 4 1) as [_ Hin]; [lia | lia | lia |].
  destruct Hin as (b & Hb & Hval & _);
    [vm_compute; congruence | vm_compute; reflexivity |].
  destruct (asSignMagLong_reads_sign_and_magnitude
              (appended fresh 8 4) 0 4 1) as [_ Hin']; [lia | lia | lia |].
  destruct Hin' as (b' & _ & _ & Hzero);
    [vm_compute; congruence | vm_compute; reflexivity |].
  destruct (asSignMagLong_reads_sign_and_magnitude
              (appended fresh 11 4) 897 4 1) as [Hout _]; [lia | lia | lia |].
  assert (Hcell : b = true) by (vm_compute in Hb; congruence).
  rewrite Hcell in Hval.
  split; [exact Hval|]. split; [reflexivity|].
  split; [apply Hzero; reflexivity|]. split; [reflexivity|].
  apply Hout. vm_compute. reflexivity.
Defined.

(** X20 on a new buffer of 900 cells: the four bits of 11 are found in
    the cells 0 to 3 as [1011], and the cell 900 does not exist. *)
Lemma asBool_reads_one_cell_witness :
  (0 <= 2 < 2 ^ 31 - 1 /\ 2 < size (appended fresh 11 4)
   /\ size fresh <= 900)
  /\ (exists b, asBool (appended fresh 11 4) 2 = Val b
                /\ asUint64_t (appended fresh 11 4) 2 1 = Val (Z.b2z b))
  /\ asBool fresh 900 = Undef
  /\ exists q, addUint64_t fresh 11 4 = Done q
               /\ asBool q 1 = Val false.
Proof.
  split; [split; [lia|]; split; vm_compute; congruence|].
  destruct (asBool_reads_one_cell (appended fresh 11 4) 2) as (Hin & _ & _);
    [lia|].
  destruct (asBool_reads_one_cell fresh 900) as (_ & Hout & _); [lia|].
  destruct (asBool_reads_one_cell fresh 1) as (_ & _ & Hadd); [lia|].
  destruct (Hadd 11 4) as (q & Hq & Hcell);
    [lia | vm_compute; intuition congruence | vm_compute; intuition congruence
     | vm_compute; congruence |].
  split; [apply Hin; vm_compute; reflexivity|].
  split; [apply Hout; vm_compute; congruence|].
  exists q. split; [exact Hq | exact Hcell].
Defined.

Section TextErrors.

Context `{Collaborators}.

Implicit Types p : PackedNavBits.

(** ** What [rawBitInput] refuses *)

Lemma white_not_found a :
  Forall is_white a ->
  Forall (fun c => negb (member whiteSpace c) = false) a.
Proof.
  intros Ha. eapply Forall_impl; [exact Ha|]. intros c Hc.
  unfold is_white in Hc. rewrite Hc. reflexivity.
Qed.

Lemma find_first_not_of_white pre a :
  Forall is_white a ->
  find_first_not_of (pre ++ a) whiteSpace (Z.of_nat (length pre)) = npos.
Proof.
  intros Ha. unfold find_first_not_of.
  destruct (Z.leb (Z.of_nat (length (pre ++ a))) (Z.of_nat (length pre)));
    [reflexivity|].
  rewrite Nat2Z.id, drop_app_length. apply find_from_none.
  apply white_not_found. exact Ha.
Qed.

(** X21: [rawBitInput] looks for the count before anything else: a text
    of nothing but spaces, tabs and commas is refused for its missing
    count, and a text that ends with its first token, with no separator
    behind it, is refused whatever the token is.  The buffer is as it
    was. *)
Theorem rawBitInput_needs_count_and_separator p pre tok :
  Forall is_white pre -> Forall (fun c => ~ is_white c) tok ->
  (tok = [] ->
   rawBitInput p (pre ++ tok)
   = Raised (InvalidParameter
               "Did not find #bits at beginning of input string.") p)
  /\ (tok <> [] -> Z.of_nat (length pre) < 2 ^ 63 ->
      rawBitInput p (pre ++ tok)
      = Raised (InvalidParameter
                  "Did not find space after #bits at beginning of input string.")
          p).
Proof.
  intros Hpre Htok.
  assert (Htok' : Forall (fun c => member whiteSpace c = false) tok).
  { eapply Forall_impl; [exact Htok | exact not_white]. }
  split.
  - intros ->. unfold rawBitInput.
    rewrite app_nil_r.
    pose proof (find_first_not_of_white [] pre Hpre) as Hnone.
    change (find_first_not_of pre whiteSpace 0 = npos) in Hnone.
    rewrite Hnone. reflexivity.
  - intros Hne Hmax. destruct tok as [|c tok]; [congruence|].
    apply Forall_cons in Htok' as [Hc Htok'].
    unfold rawBitInput.
    pose proof (find_first_not_of_at [] pre c tok Hpre Hc) as Hfound.
    change (find_first_not_of (pre ++ c :: tok) whiteSpace 0
            = Z.of_nat (length pre)) in Hfound.
    rewrite Hfound. cbv zeta.
    destruct (Z.eqb_spec (Z.of_nat (length pre)) npos) as [Heq|_];
      [unfold npos in Heq; lia|].
    rewrite (find_first_of_end pre (c :: tok))
      by (constructor; assumption).
    reflexivity.
Qed.

(** One round of the word loop on a well-formed word, up to the append. *)
Lemma rawBitInput_words_round N text pre sep tok rest n end_ bitsRead p :
  text = pre ++ sep ++ tok ++ rest ->
  separator sep -> hex_word tok ->
  (rest = [] \/ exists c t, rest = c :: t /\ is_white c) ->
  Z.of_nat (length text) < 2 ^ 63 ->
  end_ = Z.of_nat (length pre) ->
  exists end',
    rawBitInput_words text N (S n) end_ bitsRead p
    = ebind (addUnsignedLong p (x2uint tok) 32 1)
        (rawBitInput_words text N n end'
           (bitsRead + (if 32 <? N - bitsRead then 32 else N - bitsRead)))
    /\ (rest = [] -> end' = npos)
    /\ (rest <> [] -> end' = Z.of_nat (length (pre ++ sep ++ tok))).
Proof.
  intros Htext [Hne Hsep] Htok Hrest Hmax Hend.
  pose proof (hex_word_facts tok Htok) as (Hnw & Htake & Hval & Hlen).
  destruct sep as [|c0 sep]; [congruence|].
  apply Forall_cons in Hsep as [Hc0 Hsep].
  destruct tok as [|t0 tok]; [discriminate|].
  pose proof Hnw as Hnw'. apply Forall_cons in Hnw' as [Ht0 _].
  assert (Htext1 : text = (pre ++ [c0]) ++ sep ++ t0 :: (tok ++ rest)).
  { rewrite Htext. simpl. rewrite <- !app_assoc. reflexivity. }
  assert (Htext2 : text = (pre ++ c0 :: sep) ++ (t0 :: tok) ++ rest).
  { rewrite Htext. simpl. rewrite <- !app_assoc. reflexivity. }
  pose proof Hmax as Hlt'. rewrite Htext2, !length_app in Hlt'.
  cbn [length] in Hlt'.
  set (begin := Z.of_nat (length (pre ++ c0 :: sep))).
  assert (Hbegin : find_first_not_of text whiteSpace
                     (to_uint64 (Z.of_nat (length pre) + 1)) = begin).
  { rewrite to_uint64_small by lia.
    replace (Z.of_nat (length pre) + 1)
      with (Z.of_nat (length (pre ++ [c0])))
      by (rewrite length_app; simpl; lia).
    rewrite Htext1, find_first_not_of_at by assumption.
    subst begin. rewrite !length_app. simpl. lia. }
  assert (Hbegin_lt : begin < 2 ^ 63)
    by (subst begin; rewrite length_app; cbn [length]; lia).
  set (end' := find_first_of text whiteSpace begin).
  assert (Hend' : (rest = [] /\ end' = npos)
                  \/ (rest <> []
                      /\ end' = begin + Z.of_nat (length (t0 :: tok)))).
  { destruct Hrest as [Hnil | (c & t & Hcons & Hc)].
    - left. split; [exact Hnil|]. subst end' begin.
      rewrite Htext2, Hnil, app_nil_r. apply find_first_of_end. exact Hnw.
    - right. split; [rewrite Hcons; discriminate|]. subst end' begin.
      rewrite Htext2, Hcons. apply find_first_of_at; assumption. }
  assert (Hsub : substr text begin (to_uint64 (end' - begin))
                 = Val (t0 :: tok)).
  { subst begin. rewrite Htext2. apply substr_at.
    - destruct Hend' as [[_ ->] | [_ ->]];
        rewrite to_uint64_small; unfold npos; lia.
    - destruct Hend' as [[Hnil _] | [_ ->]]; [left; exact Hnil | right].
      rewrite to_uint64_small by lia. lia. }
  assert (Hprefix : negb (bool_decide (take 2 (t0 :: tok) = ["0"; "x"]%char))
                    && negb (bool_decide
                               (take 2 (t0 :: tok) = ["0"; "X"]%char))
                    = false).
  { destruct Htake as [-> | ->]; reflexivity. }
  exists end'. split; [|split].
  - cbn [rawBitInput_words]. cbv zeta. rewrite Hend, Hbegin.
    destruct (Z.eqb_spec begin npos) as [Heq|_];
      [unfold npos in Heq; lia|].
    fold end'. rewrite Hsub, Hprefix. reflexivity.
  - intros Hnil. destruct Hend' as [[_ He] | [Hcons _]];
      [exact He | contradiction].
  - intros Hcons. destruct Hend' as [[Hnil _] | [_ He]]; [contradiction|].
    rewrite He. subst begin. rewrite !length_app. cbn [length]. lia.
Qed.

(** One round of the word loop on a well-formed word, with room for it. *)
Lemma rawBitInput_words_step N text pre sep tok rest n end_ bitsRead p :
  text = pre ++ sep ++ tok ++ rest ->
  separator sep -> hex_word tok ->
  (rest = [] \/ exists c t, rest = c :: t /\ is_white c) ->
  Z.of_nat (length text) < 2 ^ 63 ->
  end_ = Z.of_nat (length pre) ->
  well_formed p -> bits_used p + 32 <= size p ->
  exists end',
    rawBitInput_words text N (S n) end_ bitsRead p
    = rawBitInput_words text N n end'
        (bitsRead + (if 32 <? N - bitsRead then 32 else N - bitsRead))
        (appended p (x2uint tok) 32)
    /\ (rest = [] -> end' = npos)
    /\ (rest <> [] -> end' = Z.of_nat (length (pre ++ sep ++ tok))).
Proof.
  intros Htext Hsep Htok Hrest Hmax Hend Hwf Hfit.
  destruct (rawBitInput_words_round N text pre sep tok rest n end_ bitsRead p
              Htext Hsep Htok Hrest Hmax Hend)
    as (end' & Hround & Hnil & Hcons).
  exists end'. split; [|split; assumption].
  rewrite Hround.
  pose proof (hex_word_facts tok Htok) as (_ & _ & Hval & _).
  rewrite addUnsignedLong_word by (assumption || lia).
  reflexivity.
Qed.

Lemma words_text_nil words :
  Forall (fun w => separator w.1 /\ hex_word w.2) words ->
  words_text words = [] -> words = [].
Proof.
  intros Hwords Hnil. destruct words as [|[sep tok] words]; [reflexivity|].
  apply Forall_cons in Hwords as [[[Hne _] _] _]. simpl in Hne.
  rewrite words_text_cons in Hnil. simpl in Hnil.
  destruct sep; [congruence | discriminate].
Qed.

(** The loop on a text with fewer words than it has rounds: at the end of
    the words it looks for one more, from the position behind the last
    token, which for a token that ends the text is [npos + 1 = 0]. *)
Lemma rawBitInput_words_short N ds text words :
  forall pre trail end_ bitsRead p n,
    text = pre ++ words_text words ++ trail ->
    Forall (fun w => separator w.1 /\ hex_word w.2) words ->
    Forall is_white trail ->
    Z.of_nat (length text) < 2 ^ 63 ->
    (length words < n)%nat ->
    (words <> [] \/ trail <> [] -> end_ = Z.of_nat (length pre)) ->
    (words = [] -> trail = [] -> end_ = npos) ->
    well_formed p ->
    bits_used p + 32 * Z.of_nat (length words) <= size p ->
    find_first_not_of text whiteSpace 0 = 0 ->
    find_first_of text whiteSpace 0 = Z.of_nat (length ds) ->
    substr text 0 (Z.of_nat (length ds)) = Val ds ->
    Z.of_nat (length ds) < 2 ^ 63 ->
    negb (bool_decide (take 2 ds = ["0"; "x"]%char))
    && negb (bool_decide (take 2 ds = ["0"; "X"]%char)) = true ->
    rawBitInput_words text N n end_ bitsRead p
    = Raised (InvalidParameter
                (if bool_decide (trail = [])
                 then "Expected hex data did not being with '0x'"
                 else "Did not find expected number of hex words."))
        (appended_all p 32 (word_values words)).
Proof.
  induction words as [|[sep tok] words IH];
    intros pre trail end_ bitsRead p n Htext Hwords Htrail Hmax Hn
      Hend Hend0 Hwf Hfit Hfind0 Hfirst Hsub Hdl Hprefix.
  - destruct n as [|n]; [simpl in Hn; lia|].
    cbn [rawBitInput_words word_values map appended_all fold_left].
    cbv zeta.
    destruct trail as [|c trail].
    + rewrite (Hend0 eq_refl eq_refl).
      replace (to_uint64 (npos + 1)) with 0 by reflexivity.
      rewrite Hfind0. change (0 =? npos) with false. cbv iota.
      rewrite Hfirst, Z.sub_0_r.
      rewrite to_uint64_small by lia.
      rewrite Hsub, Hprefix. reflexivity.
    + rewrite (Hend ltac:(right; discriminate)).
      apply Forall_cons in Htrail as [Hc Htrail].
      assert (Hlen : Z.of_nat (length pre) + 1 < 2 ^ 63).
      { rewrite Htext, !length_app in Hmax. cbn [length] in Hmax. lia. }
      rewrite to_uint64_small by lia.
      replace (Z.of_nat (length pre) + 1)
        with (Z.of_nat (length (pre ++ [c])))
        by (rewrite length_app; simpl; lia).
      replace text with ((pre ++ [c]) ++ trail)
        by (rewrite Htext; simpl; rewrite <- app_assoc; reflexivity).
      rewrite find_first_not_of_white by exact Htrail.
      reflexivity.
  - destruct n as [|n]; [simpl in Hn; lia|].
    apply Forall_cons in Hwords as [[Hsep Htok] Hwords].
    simpl in Hsep, Htok.
    cbn [length] in Hfit, Hn. rewrite Nat2Z.inj_succ in Hfit.
    assert (Hrest : words_text words ++ trail = []
                    \/ exists c t, words_text words ++ trail = c :: t
                                   /\ is_white c).
    { apply rest_starts_white; [exact Hwords|].
      destruct trail as [|c trail]; [left; reflexivity | right].
      apply Forall_cons in Htrail as [Hc _]. eauto. }
    destruct (rawBitInput_words_step N text pre sep tok
                (words_text words ++ trail) n end_ bitsRead p)
      as (end' & Hstep & Hnil & Hcons);
      [ rewrite Htext, words_text_cons; simpl;
        rewrite <- !app_assoc; reflexivity
      | exact Hsep | exact Htok | exact Hrest | exact Hmax
      | apply Hend; left; discriminate | exact Hwf | lia |].
    rewrite Hstep.
    pose proof Hwf as [Hu Hsz].
    rewrite (IH (pre ++ sep ++ tok) trail end' _
               (appended p (x2uint tok) 32) n).
    + reflexivity.
    + rewrite Htext, words_text_cons. simpl. rewrite <- !app_assoc.
      reflexivity.
    + exact Hwords.
    + exact Htrail.
    + exact Hmax.
    + lia.
    + intros Hsome. apply Hcons. intros Hempty.
      apply app_eq_nil in Hempty as [Hw Ht].
      apply (words_text_nil words Hwords) in Hw.
      destruct Hsome; contradiction.
    + intros Hw Ht. apply Hnil. rewrite Hw, Ht. reflexivity.
    + apply appended_well_formed; (assumption || lia).
    + rewrite appended_size, appended_bits_used by lia. lia.
    + exact Hfind0.
    + exact Hfirst.
    + exact Hsub.
    + exact Hdl.
    + exact Hprefix.
Qed.

Lemma decimal_count_no_hex_prefix ds :
  decimal_count ds ->
  negb (bool_decide (take 2 ds = ["0"; "x"]%char))
  && negb (bool_decide (take 2 ds = ["0"; "X"]%char)) = true.
Proof.
  intros [_ Hds].
  assert (Hno : forall x, (x = "x" \/ x = "X")%char ->
                          take 2 ds <> ["0"%char; x]).
  { intros x Hx Heq.
    destruct ds as [|d0 [|d1 ds]]; try discriminate.
    injection Heq as _ Hd1.
    apply Forall_cons in Hds as [_ Hds].
    apply Forall_cons in Hds as [[v Hv] _].
    rewrite Hd1 in Hv.
    destruct Hx as [-> | ->]; vm_compute in Hv; discriminate. }
  rewrite !bool_decide_eq_false_2; [reflexivity | |]; apply Hno; auto.
Qed.

(** X22: a text whose count asks for more words than the text has is
    refused, but only when the search for the missing word fails: the
    words that are there have been appended by then and stay, 32 bits
    each, with [bits_used] moved on.  With a separator behind the last
    word the message is that of the missing word; with the last word at
    the very end of the text the search goes on from the start of the
    text, finds the count itself and refuses it as a word without
    [0x]. *)
Theorem rawBitInput_too_few_words p ds words trail :
  decimal_count ds ->
  Forall (fun w => separator w.1 /\ hex_word w.2) words ->
  Forall is_white trail ->
  words <> [] \/ trail <> [] ->
  0 <= asInt ds < 2 ^ 31 ->
  Z.of_nat (length words) < Z.quot (asInt ds - 1) 32 + 1 ->
  well_formed p ->
  bits_used p + 32 * Z.of_nat (length words) <= size p ->
  Z.of_nat (length (interchange_text ds words trail)) < 2 ^ 63 ->
  (trail <> [] ->
   rawBitInput p (interchange_text ds words trail)
   = Raised (InvalidParameter "Did not find expected number of hex words.")
       (appended_all p 32 (word_values words)))
  /\ (trail = [] ->
      rawBitInput p (interchange_text ds words trail)
      = Raised (InvalidParameter "Expected hex data did not being with '0x'")
          (appended_all p 32 (word_values words)))
  /\ bits_used (appended_all p 32 (word_values words))
     = bits_used p + 32 * Z.of_nat (length words)
  /\ field (appended_all p 32 (word_values words)) (bits_used p)
       (32 * Z.of_nat (length words))
     = values_bits 32 (word_values words).
Proof.
  intros Hcount Hwords Htrail Hsome HN Hfew Hwf Hfit Hmax.
  pose proof Hcount as [Hdne Hds].
  set (text := interchange_text ds words trail) in *.
  assert (Hwl : length (word_values words) = length words)
    by (unfold word_values; apply length_map).
  assert (Hwhite : exists c tail,
             words_text words ++ trail = c :: tail /\ is_white c).
  { destruct (rest_starts_white words trail Hwords) as [Hnil|Hcons].
    - destruct trail as [|c trail]; [left; reflexivity | right].
      apply Forall_cons in Htrail as [Hc _]. eauto.
    - exfalso. apply app_eq_nil in Hnil as [Hw Ht].
      apply (words_text_nil words Hwords) in Hw.
      destruct Hsome; contradiction.
    - exact Hcons. }
  destruct Hwhite as (c0 & tail & Htail & Hc0).
  destruct ds as [|d0 ds]; [congruence|].
  pose proof Hds as Hds0. apply Forall_cons in Hds0 as [Hd0 _].
  assert (Htext1 : text = [] ++ (d0 :: ds) ++ c0 :: tail).
  { subst text. unfold interchange_text. rewrite Htail. reflexivity. }
  assert (Hb : find_first_not_of text whiteSpace 0 = 0).
  { rewrite Htext1.
    apply (find_first_not_of_at [] [] d0); [constructor|].
    apply digit_not_white. exact Hd0. }
  assert (He : find_first_of text whiteSpace 0
               = Z.of_nat (length (d0 :: ds))).
  { rewrite Htext1.
    refine (find_first_of_at [] (d0 :: ds) c0 tail _ Hc0).
    eapply Forall_impl; [exact Hds | exact digit_not_white]. }
  assert (Hs : substr text 0 (Z.of_nat (length (d0 :: ds)))
               = Val (d0 :: ds)).
  { rewrite Htext1.
    apply (substr_at [] (d0 :: ds)); [lia | right; reflexivity]. }
  assert (Hcall : rawBitInput p text
                  = Raised (InvalidParameter
                              (if bool_decide (trail = [])
                               then "Expected hex data did not being with '0x'"
                               else "Did not find expected number of hex words."))
                      (appended_all p 32 (word_values words))).
  { unfold rawBitInput. rewrite Hb. cbv zeta.
    change (0 =? npos) with false. cbv iota. rewrite He.
    pose proof Hmax as Hmax'. rewrite Htext1, !length_app in Hmax'.
    destruct (Z.eqb_spec (Z.of_nat (length (d0 :: ds))) npos) as [Heq|_];
      [unfold npos in Heq; lia|].
    rewrite Hs.
    apply (rawBitInput_words_short _ (d0 :: ds) text words (d0 :: ds) trail);
      try assumption.
    - reflexivity.
    - lia.
    - reflexivity.
    - intros Hw Ht. destruct Hsome; contradiction.
    - lia.
    - apply decimal_count_no_hex_prefix. exact Hcount. }
  destruct (appended_all_layout 32 (word_values words) p)
    as [Hbu Hbits]; [lia | exact Hwf | rewrite Hwl; exact Hfit |].
  rewrite Hwl in Hbu, Hbits.
  split; [|split; [|split]].
  - intros Hne. rewrite Hcall, bool_decide_eq_false_2 by exact Hne.
    reflexivity.
  - intros Hnil. rewrite Hcall, bool_decide_eq_true_2 by exact Hnil.
    reflexivity.
  - exact Hbu.
  - unfold field. rewrite Hbits. pose proof Hwf as [Hu Hsz].
    rewrite drop_app_length'
      by (unfold size in *; rewrite length_take; lia).
    rewrite take_app_length'; [reflexivity|].
    rewrite values_bits_length, Hwl. lia.
Qed.

(** ** Words that do not fit *)

Lemma addUnsignedLong_word_overrun p v :
  0 <= v < 2 ^ 32 -> 0 <= bits_used p < 2 ^ 63 ->
  size p < bits_used p + 32 ->
  addUnsignedLong p v 32 1 = Wild.
Proof.
  intros Hv Hu Hsize.
  rewrite (addUnsignedLong_unfold p v 32 1 _ ltac:(lia) ltac:(lia)
             pow2_minus_1_32).
  rewrite Z.div_1_r.
  destruct (Z.ltb_spec (2 ^ 32 - 1) v); [lia|].
  apply addUint64_t_overrun; (assumption || lia).
Qed.

(** The word loop appends every word as 32 bits without asking for room:
    it runs past the end of the storage as soon as the words are more
    than the storage holds behind [bits_used]. *)
Lemma rawBitInput_words_overrun N text words :
  forall pre trail end_ bitsRead p,
    text = pre ++ words_text words ++ trail ->
    Forall (fun w => separator w.1 /\ hex_word w.2) words ->
    trailer trail ->
    Z.of_nat (length text) < 2 ^ 63 ->
    (words <> [] -> end_ = Z.of_nat (length pre)) ->
    well_formed p ->
    size p < bits_used p + 32 * Z.of_nat (length words) ->
    rawBitInput_words text N (length words) end_ bitsRead p = Wild.
Proof.
  induction words as [|[sep tok] words IH];
    intros pre trail end_ bitsRead p Htext Hwords Htrail Hmax Hend Hwf Hroom.
  - destruct Hwf as [Hu Hsz]. simpl in Hroom. lia.
  - pose proof Hwords as Hall.
    apply Forall_cons in Hwords as [[Hsep Htok] Hwords].
    simpl in Hsep, Htok.
    cbn [length] in *. rewrite Nat2Z.inj_succ in Hroom.
    pose proof (rest_starts_white words trail Hwords Htrail) as Hrest.
    pose proof (hex_word_facts tok Htok) as (_ & _ & Hval & _).
    destruct (rawBitInput_words_round N text pre sep tok
                (words_text words ++ trail) (length words) end_ bitsRead p)
      as (end' & Hround & Hnil & Hcons);
      [ rewrite Htext, words_text_cons; simpl;
        rewrite <- !app_assoc; reflexivity
      | exact Hsep | exact Htok | exact Hrest | exact Hmax
      | apply Hend; discriminate |].
    rewrite Hround. pose proof Hwf as [Hu Hsz].
    destruct (Z.le_gt_cases (bits_used p + 32) (size p)) as [Hfit|Hshort].
    + rewrite addUnsignedLong_word by (assumption || lia).
      cbn [ebind].
      apply (IH (pre ++ sep ++ tok) trail).
      * rewrite Htext, words_text_cons. simpl. rewrite <- !app_assoc.
        reflexivity.
      * exact Hwords.
      * exact Htrail.
      * exact Hmax.
      * intros Hsome. apply Hcons. intros Hempty.
        apply app_eq_nil in Hempty as [Hw _].
        apply (words_text_nil words Hwords) in Hw. contradiction.
      * apply appended_well_formed; (assumption || lia).
      * rewrite appended_size, appended_bits_used by lia. lia.
    + rewrite addUnsignedLong_word_overrun by lia. reflexivity.
Qed.

(** C7: [rawBitInput] appends every word of the text as 32 bits and trims
    afterwards, and it never asks whether the words fit.  A newly
    constructed buffer has 900 cells and so has room for 28 words: for a
    well-formed text with a count [N] of 897 or more, the 900 bits of a
    full buffer among them, and its [(N - 1) / 32 + 1] words, the 29th
    word is written past the end of the storage, and the import has no
    defined result: [bits_used] is not set to [N]. *)
Theorem rawBitInput_overruns_storage p ds words trail :
  bits_used p = 0 -> size p = 900 ->
  decimal_count ds ->
  Forall (fun w => separator w.1 /\ hex_word w.2) words ->
  trailer trail ->
  897 <= asInt ds < 2 ^ 31 ->
  Z.of_nat (length words) = (asInt ds - 1) / 32 + 1 ->
  Z.of_nat (length (interchange_text ds words trail)) < 2 ^ 63 ->
  rawBitInput p (interchange_text ds words trail) = Wild
  /\ (forall q, rawBitInput p (interchange_text ds words trail) <> Done q)
  /\ 32 * 28 <= size p < 32 * Z.of_nat (length words).
Proof.
  intros Hbu Hsize [Hdne Hds] Hwords Htrail HN Hcount Hmax.
  set (N := asInt ds) in *.
  assert (Hdiv : 32 * ((N - 1) / 32) <= N - 1 < 32 * ((N - 1) / 32) + 32).
  { pose proof (Z.div_mod (N - 1) 32 ltac:(lia)) as Hdm.
    pose proof (Z.mod_pos_bound (N - 1) 32 ltac:(lia)). lia. }
  assert (Hwf : well_formed p) by (unfold well_formed; lia).
  assert (Hmany : size p < 32 * Z.of_nat (length words)) by lia.
  assert (Hcall : rawBitInput p (interchange_text ds words trail) = Wild).
  { destruct ds as [|d0 ds]; [congruence|].
    pose proof Hds as Hds0. apply Forall_cons in Hds0 as [Hd0 _].
    destruct words as [|[sep tok] words]; [simpl in Hcount; lia|].
    pose proof Hwords as Hw0.
    apply Forall_cons in Hw0 as [[[Hsne Hsep] _] _].
    simpl in Hsne, Hsep. destruct sep as [|c0 sep]; [congruence|].
    apply Forall_cons in Hsep as [Hc0 _].
    set (text := interchange_text (d0 :: ds)
                   ((c0 :: sep, tok) :: words) trail) in *.
    set (tail := sep ++ tok ++ words_text words ++ trail).
    assert (Htext1 : text = [] ++ (d0 :: ds) ++ c0 :: tail).
    { subst text tail. unfold interchange_text.
      rewrite words_text_cons. simpl. rewrite <- !app_assoc. reflexivity. }
    assert (Hb : find_first_not_of text whiteSpace 0 = 0).
    { rewrite Htext1.
      apply (find_first_not_of_at [] [] d0); [constructor|].
      apply digit_not_white. exact Hd0. }
    assert (He : find_first_of text whiteSpace 0
                 = Z.of_nat (length (d0 :: ds))).
    { rewrite Htext1.
      refine (find_first_of_at [] (d0 :: ds) c0 tail _ Hc0).
      eapply Forall_impl; [exact Hds | exact digit_not_white]. }
    assert (Hs : substr text 0 (Z.of_nat (length (d0 :: ds)))
                 = Val (d0 :: ds)).
    { rewrite Htext1.
      apply (substr_at [] (d0 :: ds)); [lia | right; reflexivity]. }
    unfold rawBitInput. rewrite Hb. cbv zeta.
    change (0 =? npos) with false. cbv iota. rewrite He.
    pose proof Hmax as Hmax'. rewrite Htext1, !length_app in Hmax'.
    destruct (Z.eqb_spec (Z.of_nat (length (d0 :: ds))) npos) as [Heq|_];
      [unfold npos in Heq; lia|].
    rewrite Hs. fold N.
    rewrite Z.quot_div_nonneg by lia.
    rewrite <- Hcount, Nat2Z.id.
    apply (rawBitInput_words_overrun N text ((c0 :: sep, tok) :: words)
             (d0 :: ds) trail);
      [reflexivity | exact Hwords | exact Htrail | exact Hmax
       | reflexivity | exact Hwf | lia]. }
  split; [exact Hcall|]. split; [|lia].
  intros q Hq. rewrite Hcall in Hq. discriminate.
Qed.

End TextErrors.

(** X21 on the texts [" ,"] and [" 32"]. *)
Lemma rawBitInput_needs_count_and_separator_witness :
  (Forall is_white (list_ascii_of_string " ,")
   /\ Forall (fun c => ~ is_white c) (list_ascii_of_string "32"))
  /\ rawBitInput fresh (list_ascii_of_string " ,")
     = Raised (InvalidParameter
                 "Did not find #bits at beginning of input string.") fresh
  /\ rawBitInput fresh (list_ascii_of_string " 32")
     = Raised (InvalidParameter
                 "Did not find space after #bits at beginning of input string.")
         fresh.
Proof.
  assert (Hwhite : Forall is_white (list_ascii_of_string " ,"))
    by (repeat constructor).
  assert (Hwhite' : Forall is_white (list_ascii_of_string " "))
    by (repeat constructor).
  assert (Htok : Forall (fun c => ~ is_white c) (list_ascii_of_string "32"))
    by (repeat constructor; vm_compute; discriminate).
  split; [split; assumption|].
  destruct (rawBitInput_needs_count_and_separator fresh
              (list_ascii_of_string " ,") [] Hwhite ltac:(constructor))
    as [Hnone _].
  destruct (rawBitInput_needs_count_and_separator fresh
              (list_ascii_of_string " ") (list_ascii_of_string "32")
              Hwhite' Htok)
    as [_ Hsep].
  split; [exact (Hnone eq_refl)|].
  apply Hsep; [discriminate | simpl; lia].
Defined.

(** X22 on a count of 64 with one word: the word is appended, and the
    message depends on whether a separator follows it. *)
Lemma rawBitInput_too_few_words_witness :
  (0 <= asInt (list_ascii_of_string "64") < 2 ^ 31
   /\ 1 < Z.quot (asInt (list_ascii_of_string "64") - 1) 32 + 1)
  /\ rawBitInput fresh (list_ascii_of_string "64 0xABCD1234 ")
     = Raised (InvalidParameter "Did not find expected number of hex words.")
         (appended fresh 0xABCD1234 32)
  /\ rawBitInput fresh (list_ascii_of_string "64 0xABCD1234")
     = Raised (InvalidParameter "Expected hex data did not being with '0x'")
         (appended fresh 0xABCD1234 32)
  /\ bits_used (appended fresh 0xABCD1234 32) = 32.
Proof.
  assert (Hcount : decimal_count (list_ascii_of_string "64"))
    by (split; [discriminate | repeat constructor; vm_compute; eauto]).
  assert (Hwords : Forall (fun w => separator w.1 /\ hex_word w.2)
                     [(list_ascii_of_string " ",
                       list_ascii_of_string "0xABCD1234")]).
  { repeat constructor; try discriminate.
    exists "x"%char, (list_ascii_of_string "ABCD1234").
    repeat split; auto. repeat constructor; vm_compute; eauto. }
  assert (Hwf : well_formed fresh) by (vm_compute; intuition congruence).
  split; [vm_compute; intuition congruence|].
  destruct (rawBitInput_too_few_words fresh (list_ascii_of_string "64")
              [(list_ascii_of_string " ", list_ascii_of_string "0xABCD1234")]
              (list_ascii_of_string " "))
    as (Hmissing & _ & Hbu & _);
    [ exact Hcount | exact Hwords | repeat constructor
    | left; discriminate | vm_compute; intuition congruence
    | vm_compute; reflexivity | exact Hwf | vm_compute; congruence
    | vm_compute; reflexivity |].
  destruct (rawBitInput_too_few_words fresh (list_ascii_of_string "64")
              [(list_ascii_of_string " ", list_ascii_of_string "0xABCD1234")]
              [])
    as (_ & Hwrapped & _);
    [ exact Hcount | exact Hwords | constructor
    | left; discriminate | vm_compute; intuition congruence
    | vm_compute; reflexivity | exact Hwf | vm_compute; congruence
    | vm_compute; reflexivity |].
  split; [apply Hmissing; discriminate|].
  split; [exact (Hwrapped eq_refl) | exact Hbu].
Defined.

(** C7 on the text of 900 bits, the count and 29 words, and a new buffer
    of 900 cells. *)
Lemma rawBitInput_overruns_storage_witness :
  (bits_used fresh = 0 /\ size fresh = 900
   /\ asInt (list_ascii_of_string "900") = 900
   /\ (900 - 1) / 32 + 1 = 29)
  /\ rawBitInput fresh text_900 = Wild.
Proof.
  split; [repeat split; vm_compute; reflexivity|].
  destruct (rawBitInput_overruns_storage fresh (list_ascii_of_string "900")
              (replicate 29
                 (list_ascii_of_string " ",
                  list_ascii_of_string "0x00000000"))
              [])
    as (Hwild & _).
  - reflexivity.
  - reflexivity.
  - split; [discriminate | repeat constructor; vm_compute; eauto].
  - apply Forall_replicate. split.
    + split; [discriminate | repeat constructor].
    + exists "x"%char, (list_ascii_of_string "00000000").
      repeat split; auto. repeat constructor; vm_compute; eauto.
  - left. reflexivity.
  - vm_compute. intuition congruence.
  - vm_compute. reflexivity.
  - vm_compute. reflexivity.
  - exact Hwild.
Defined.

Section Joining.

Context `{Collaborators}.

Implicit Types p right a b c : PackedNavBits.

(** ** Buffers put together *)

Lemma take_drop_take {A} (l : list A) (s n k : nat) :
  (s + n <= k)%nat -> take n (drop s (take k l)) = take n (drop s l).
Proof.
  intros Hk. rewrite !take_drop_commute, take_take, Nat.min_l by lia.
  reflexivity.
Qed.

Lemma addPackedNavBits_spec p right :
  well_formed p -> well_formed right ->
  bits_used p + bits_used right < 2 ^ 31 ->
  addPackedNavBits p right = Done (concatenated p right).
Proof.
  intros [Hu Hsz] [Hur Hszr] Hsum. unfold size in *.
  unfold addPackedNavBits.
  rewrite bits_resize_spec by (simpl; lia).
  cbn [ebind with_bits with_bits_used bits bits_used].
  rewrite copy_loop_spec by (rewrite ?length_resize; lia).
  unfold concatenated, field, with_bits, with_bits_used. simpl.
  do 2 f_equal.
  change (Z.to_nat 0) with O. rewrite Z.add_0_l, !drop_0.
  rewrite (drop_ge (resize _ _ _)) by (rewrite length_resize; lia).
  rewrite app_nil_r, take_resize_le, resize_le by lia.
  reflexivity.
Qed.

Lemma concatenated_well_formed p right :
  well_formed p -> well_formed right ->
  bits_used p + bits_used right < 2 ^ 31 ->
  well_formed (concatenated p right)
  /\ size (concatenated p right) = bits_used p + bits_used right.
Proof.
  intros [Hu Hsz] [Hur Hszr] Hsum.
  assert (Hsize : size (concatenated p right)
                  = bits_used p + bits_used right).
  { unfold concatenated, field, size in *. simpl.
    change (Z.to_nat 0) with O. rewrite !drop_0.
    rewrite length_app, !length_take. lia. }
  split; [|exact Hsize].
  unfold well_formed. rewrite Hsize. simpl. lia.
Qed.

(** X23: after [addPackedNavBits] every field of the bits in use of
    either buffer is found again, those of the appended buffer
    [bits_used] places further on; [asUint64_t] returns there what it
    returned on the buffer the bits came from. *)
Theorem addPackedNavBits_keeps_fields p right startBit numBits :
  well_formed p -> well_formed right ->
  bits_used p + bits_used right < 2 ^ 31 ->
  0 <= startBit -> 0 <= numBits <= 64 ->
  exists q,
    addPackedNavBits p right = Done q
    /\ (startBit + numBits <= bits_used p ->
        field q startBit numBits = field p startBit numBits
        /\ asUint64_t q startBit numBits = asUint64_t p startBit numBits)
    /\ (startBit + numBits <= bits_used right ->
        field q (bits_used p + startBit) numBits
        = field right startBit numBits
        /\ asUint64_t q (bits_used p + startBit) numBits
           = asUint64_t right startBit numBits).
Proof.
  intros Hwf Hwfr Hsum Hs Hn.
  pose proof Hwf as [Hu Hsz]. pose proof Hwfr as [Hur Hszr].
  destruct (concatenated_well_formed p right Hwf Hwfr Hsum) as [_ Hsize].
  exists (concatenated p right).
  split; [apply addPackedNavBits_spec; assumption|].
  assert (Hbits : bits (concatenated p right)
                  = take (Z.to_nat (bits_used p)) (bits p)
                    ++ take (Z.to_nat (bits_used right)) (bits right)).
  { unfold concatenated, field. simpl. change (Z.to_nat 0) with O.
    rewrite !drop_0. reflexivity. }
  split.
  - intros Hin.
    assert (Hfield : field (concatenated p right) startBit numBits
                     = field p startBit numBits).
    { unfold field. rewrite Hbits. unfold size in *.
      rewrite drop_app_le by (rewrite length_take; lia).
      rewrite take_app_le by (rewrite length_drop, length_take; lia).
      apply take_drop_take. lia. }
    split; [exact Hfield|].
    rewrite !asUint64_t_in_range by lia.
    fold (field (concatenated p right) startBit numBits).
    fold (field p startBit numBits). rewrite Hfield. reflexivity.
  - intros Hin.
    assert (Hfield : field (concatenated p right) (bits_used p + startBit)
                       numBits
                     = field right startBit numBits).
    { unfold field. rewrite Hbits. unfold size in *.
      rewrite Z2Nat.inj_add by lia.
      rewrite <- drop_drop.
      rewrite drop_app_length' by (rewrite length_take; lia).
      apply take_drop_take. lia. }
    split; [exact Hfield|].
    rewrite !asUint64_t_in_range by lia.
    fold (field (concatenated p right) (bits_used p + startBit) numBits).
    fold (field right startBit numBits). rewrite Hfield. reflexivity.
Qed.

(** X24: appending [b] and then [c] to [a] gives the same buffer as
    appending to [a] the buffer made of [b] and [c]: the same bits, the
    same [bits_used], and the metadata of [a]. *)
Theorem addPackedNavBits_associative a b c :
  well_formed a -> well_formed b -> well_formed c ->
  bits_used a + bits_used b + bits_used c < 2 ^ 31 ->
  ebind (addPackedNavBits a b) (fun ab => addPackedNavBits ab c)
  = ebind (addPackedNavBits b c) (fun bc => addPackedNavBits a bc)
  /\ ebind (addPackedNavBits a b) (fun ab => addPackedNavBits ab c)
     = Done (concatenated (concatenated a b) c)
  /\ bits (concatenated (concatenated a b) c)
     = field a 0 (bits_used a) ++ field b 0 (bits_used b)
       ++ field c 0 (bits_used c).
Proof.
  intros Hwfa Hwfb Hwfc Hsum.
  pose proof Hwfa as [Hua Hsza]. pose proof Hwfb as [Hub Hszb].
  pose proof Hwfc as [Huc Hszc].
  destruct (concatenated_well_formed a b Hwfa Hwfb) as [Hwfab Hsab]; [lia|].
  destruct (concatenated_well_formed b c Hwfb Hwfc) as [Hwfbc Hsbc]; [lia|].
  assert (Hwhole : forall p right,
             size (concatenated p right) = bits_used p + bits_used right ->
             field (concatenated p right) 0
               (bits_used (concatenated p right))
             = field p 0 (bits_used p) ++ field right 0 (bits_used right)).
  { intros p right Hsize. unfold field at 1.
    change (Z.to_nat 0) with O. rewrite drop_0.
    apply take_ge. unfold size in Hsize.
    change (length (bits (concatenated p right))
            <= Z.to_nat (bits_used p + bits_used right))%nat.
    lia. }
  assert (Hbits : bits (concatenated (concatenated a b) c)
                  = field a 0 (bits_used a) ++ field b 0 (bits_used b)
                    ++ field c 0 (bits_used c)).
  { unfold concatenated at 1. cbn [bits with_bits with_bits_used].
    rewrite (Hwhole a b Hsab), <- app_assoc. reflexivity. }
  rewrite (addPackedNavBits_spec a b), (addPackedNavBits_spec b c)
    by (assumption || lia).
  cbn [ebind].
  rewrite (addPackedNavBits_spec (concatenated a b) c),
    (addPackedNavBits_spec a (concatenated b c))
    by (assumption || (simpl; lia)).
  split; [|split; [reflexivity | exact Hbits]].
  f_equal.
  unfold concatenated at 1 3.
  rewrite (Hwhole a b Hsab), (Hwhole b c Hsbc), <- app_assoc.
  change (bits_used (concatenated a b)) with (bits_used a + bits_used b).
  change (bits_used (concatenated b c)) with (bits_used b + bits_used c).
  rewrite Z.add_assoc.
  reflexivity.
Qed.

End Joining.

(** X23 on the bits [0101] with the bits [11] appended: the two bits from
    bit 4 on are those of the appended buffer. *)
Lemma addPackedNavBits_keeps_fields_witness :
  (well_formed (appended fresh 5 4) /\ well_formed (appended fresh 3 2)
   /\ bits_used (appended fresh 5 4) + bits_used (appended fresh 3 2)
      < 2 ^ 31)
  /\ exists q,
       addPackedNavBits (appended fresh 5 4) (appended fresh 3 2) = Done q
       /\ asUint64_t q 0 2 = Val 1
       /\ asUint64_t q 4 2 = Val 3.
Proof.
  assert (Hwf : well_formed (appended fresh 5 4))
    by (vm_compute; intuition congruence).
  assert (Hwfr : well_formed (appended fresh 3 2))
    by (vm_compute; intuition congruence).
  split; [split; [exact Hwf|]; split; [exact Hwfr | vm_compute; reflexivity]|].
  destruct (addPackedNavBits_keeps_fields (appended fresh 5 4)
              (appended fresh 3 2) 0 2)
    as (q & Hq & Hleft & Hright);
    [exact Hwf | exact Hwfr | vm_compute; reflexivity | lia | lia |].
  destruct Hleft as [_ Hleft]; [vm_compute; congruence|].
  destruct Hright as [_ Hright]; [vm_compute; congruence|].
  exists q. split; [exact Hq|].
  split; [rewrite Hleft; reflexivity|].
  change (asUint64_t q (bits_used (appended fresh 5 4) + 0) 2 = Val 3).
  rewrite Hright. reflexivity.
Defined.

(** X24 on the bits [1], [10] and [11]: both orders give [11011]. *)
Lemma addPackedNavBits_associative_witness :
  (well_formed (appended fresh 1 1) /\ well_formed (appended fresh 2 2)
   /\ well_formed (appended fresh 3 2))
  /\ ebind (addPackedNavBits (appended fresh 1 1) (appended fresh 2 2))
       (fun ab => addPackedNavBits ab (appended fresh 3 2))
     = ebind (addPackedNavBits (appended fresh 2 2) (appended fresh 3 2))
         (fun bc => addPackedNavBits (appended fresh 1 1) bc)
  /\ bits (concatenated
             (concatenated (appended fresh 1 1) (appended fresh 2 2))
             (appended fresh 3 2))
     = [true; true; false; true; true].
Proof.
  assert (Hwfa : well_formed (appended fresh 1 1))
    by (vm_compute; intuition congruence).
  assert (Hwfb : well_formed (appended fresh 2 2))
    by (vm_compute; intuition congruence).
  assert (Hwfc : well_formed (appended fresh 3 2))
    by (vm_compute; intuition congruence).
  split; [split; [exact Hwfa|]; split; [exact Hwfb | exact Hwfc]|].
  destruct (addPackedNavBits_associative (appended fresh 1 1)
              (appended fresh 2 2) (appended fresh 3 2))
    as (Hassoc & _ & Hbits);
    [exact Hwfa | exact Hwfb | exact Hwfc | vm_compute; reflexivity |].
  split; [exact Hassoc|]. rewrite Hbits. reflexivity.
Defined.
